(** * meld-port: sequence alignment, chunking and line projection

    A shallow embedding of [meld-port.py] together with the parts of the
    Python standard library it runs on ([difflib.SequenceMatcher],
    [str.splitlines], [html.escape]).

    Python values are modelled as follows.
    - [str] is a list of Unicode code points ([N]); [len] is [length].
    - a list of lines is a [list str].
    - indices produced by the aligner are never negative and are [nat];
      the fields of a [DiffChunk] are arbitrary Python ints and are [Z].
    - dicts are [gmap]s, sets are [gset]s. *)

From Stdlib Require Import String Ascii DecimalString DecimalNat.
From stdpp Require Import gmap list sorting numbers.

Local Open Scope nat_scope.

(** ** Strings *)

Definition char : Type := N.
Definition str : Type := list char.

(** A literal of the source text, written as a Rocq string. *)
Fixpoint lit (s : string) : str :=
  match s with
  | EmptyString => []
  | String c s' => N_of_ascii c :: lit s'
  end.

Definition QUOT : char := 34%N.   (* the double quote *)
Definition APOS : char := 39%N.   (* the single quote *)
Definition AMP : char := 38%N.
Definition LT : char := 60%N.
Definition GT : char := 62%N.
Definition LF : char := 10%N.
Definition CR : char := 13%N.
Definition NUL : char := 0%N.

(** ** difflib.SequenceMatcher

    [SequenceMatcher(None, a, b)]: [isjunk] is [None] and [autojunk] keeps
    its default [True]. *)

Inductive tag : Type := tag_equal | tag_insert | tag_delete | tag_replace.

#[global] Instance tag_eq_dec : EqDecision tag.
Proof. solve_decision. Defined.

(** [Match(a, b, size)] *)
Definition block : Type := nat * nat * nat.
(** a pending region [(alo, ahi, blo, bhi)] *)
Definition region : Type := nat * nat * nat * nat.
(** an opcode [(tag, i1, i2, j1, j2)] *)
Definition opcode : Type := tag * nat * nat * nat * nat.

Definition op_tag (o : opcode) : tag := o.1.1.1.1.
Definition op_i1 (o : opcode) : nat := o.1.1.1.2.
Definition op_i2 (o : opcode) : nat := o.1.1.2.
Definition op_j1 (o : opcode) : nat := o.1.2.
Definition op_j2 (o : opcode) : nat := o.2.

(** Tuple comparison as [list.sort] uses it on [Match] triples. *)
Definition block_le (x y : block) : Prop :=
  x.1.1 < y.1.1 ∨ (x.1.1 = y.1.1 ∧ (x.1.2 < y.1.2 ∨ (x.1.2 = y.1.2 ∧ x.2 ≤ y.2))).

#[global] Instance block_le_dec x y : Decision (block_le x y).
Proof. unfold block_le. apply _. Defined.

Section SequenceMatcher.
Context {T : Type} `{Countable T}.

(** [a[i] == b[j]] for indices that are in range.  Out of range the
    library raises [IndexError]; [get_matching_blocks] asks for no such
    index, its windows lying within the two sequences. *)
Definition elt_eqb (a b : list T) (i j : nat) : bool :=
  match a !! i, b !! j with
  | Some x, Some y => bool_decide (x = y)
  | _, _ => false
  end.

(** *** [__chain_b] *)

(** [b2j.setdefault(elt, []).append(i)] *)
Definition b2j_add (b2j : gmap T (list nat)) (p : nat * T) : gmap T (list nat) :=
  <[p.2 := default [] (b2j !! p.2) ++ [p.1]]> b2j.

Definition b2j_all (b : list T) : gmap T (list nat) :=
  foldl b2j_add ∅ (imap pair b).

(** [len(idxs) > ntest] with [ntest = n // 100 + 1] *)
Definition is_popular (n : nat) (idxs : list nat) : Prop :=
  n `div` 100 + 1 < length idxs.

#[global] Instance is_popular_dec n idxs : Decision (is_popular n idxs).
Proof. unfold is_popular. apply _. Defined.

(** [self.bpopular]: filled only when [autojunk and n >= 200]. *)
Definition bpopular (b : list T) : gset T :=
  if bool_decide (200 ≤ length b)
  then dom (filter (λ kv, is_popular (length b) kv.2) (b2j_all b))
  else ∅.

(** [self.b2j] after [del b2j[elt]] for every popular [elt].  The junk
    purge before it is skipped because [isjunk] is [None]. *)
Definition chain_b (b : list T) : gmap T (list nat) :=
  filter (λ kv, kv.1 ∉ bpopular b) (b2j_all b).

(** [self.bjunk]: the empty set, since [isjunk] is [None]. *)
Definition bjunk : gset T := ∅.

Definition isbjunk (b : list T) (j : nat) : bool :=
  match b !! j with
  | Some y => bool_decide (y ∈ bjunk)
  | None => false
  end.

(** *** [find_longest_match] *)

(** [j2len.get(j-1, 0)]: the key [-1] is never present. *)
Definition j2lenget (j2len : gmap nat nat) (j : nat) : nat :=
  match j with
  | 0 => 0
  | S j' => default 0 (j2len !! j')
  end.

(** The inner loop [for j in b2j.get(a[i], nothing)], with its
    [continue] and [break].  [i-k+1] is computed as [i+1-k]: [k] never
    exceeds [i+1]. *)
Fixpoint scan_row (j2len : gmap nat nat) (i blo bhi : nat) (js : list nat)
    (newj2len : gmap nat nat) (best : block) : gmap nat nat * block :=
  match js with
  | [] => (newj2len, best)
  | j :: js' =>
      if bool_decide (j < blo) then scan_row j2len i blo bhi js' newj2len best
      else if bool_decide (bhi ≤ j) then (newj2len, best)
      else
        let k := j2lenget j2len j + 1 in
        let best' := if bool_decide (best.2 < k) then (i + 1 - k, j + 1 - k, k) else best in
        scan_row j2len i blo bhi js' (<[j := k]> newj2len) best'
  end.

(** One iteration of [for i in range(alo, ahi)]. *)
Definition scan_step (a : list T) (b2j : gmap T (list nat)) (blo bhi : nat)
    (st : gmap nat nat * block) (i : nat) : gmap nat nat * block :=
  let js := default [] (a !! i ≫= λ x, b2j !! x) in
  scan_row st.1 i blo bhi js ∅ st.2.

Definition scan (a : list T) (b2j : gmap T (list nat)) (alo ahi blo bhi : nat) : block :=
  (foldl (scan_step a b2j blo bhi) (∅, (alo, blo, 0)) (seq alo (ahi - alo))).2.

(** [while besti > alo and bestj > blo and (isbjunk(b[bestj-1]) is junk)
    and a[besti-1] == b[bestj-1]]: the match grows to the left. *)
Fixpoint extend_left (a b : list T) (junk : bool) (alo blo : nat)
    (besti bestj bestsize : nat) : block :=
  match besti, bestj with
  | S i', S j' =>
      if bool_decide (alo < besti) && bool_decide (blo < bestj)
         && bool_decide (isbjunk b j' = junk) && elt_eqb a b i' j'
      then extend_left a b junk alo blo i' j' (S bestsize)
      else (besti, bestj, bestsize)
  | _, _ => (besti, bestj, bestsize)
  end.

(** [while besti+bestsize < ahi and bestj+bestsize < bhi and ...]: the
    match grows to the right.  [room] is [ahi - (besti+bestsize)], the
    number of iterations the first test of the loop allows. *)
Fixpoint extend_right (a b : list T) (junk : bool) (bhi : nat)
    (besti bestj : nat) (room : nat) (bestsize : nat) : nat :=
  match room with
  | 0 => bestsize
  | S room' =>
      if bool_decide (bestj + bestsize < bhi)
         && bool_decide (isbjunk b (bestj + bestsize) = junk)
         && elt_eqb a b (besti + bestsize) (bestj + bestsize)
      then extend_right a b junk bhi besti bestj room' (S bestsize)
      else bestsize
  end.

Definition extend (a b : list T) (junk : bool) (alo ahi blo bhi : nat) (m : block) : block :=
  let '(besti, bestj, bestsize) := extend_left a b junk alo blo m.1.1 m.1.2 m.2 in
  (besti, bestj, extend_right a b junk bhi besti bestj (ahi - (besti + bestsize)) bestsize).

Definition find_longest_match (a b : list T) (b2j : gmap T (list nat))
    (alo ahi blo bhi : nat) : block :=
  let m := scan a b2j alo ahi blo bhi in
  let m := extend a b false alo ahi blo bhi m in
  extend a b true alo ahi blo bhi m.

(** *** [get_matching_blocks] *)

(** The work list [queue] is a stack: its head here is the last element
    of the Python list.  [find] is [self.find_longest_match]. *)
Fixpoint matching_loop (find : region → block) (fuel : nat)
    (queue : list region) (matching_blocks : list block) : option (list block) :=
  match queue with
  | [] => Some matching_blocks
  | (alo, ahi, blo, bhi) :: queue =>
      match fuel with
      | 0 => None
      | S fuel =>
          let '(i, j, k) := find (alo, ahi, blo, bhi) in
          if bool_decide (k ≠ 0) then
            let queue := if bool_decide (alo < i ∧ blo < j)
                         then (alo, i, blo, j) :: queue else queue in
            let queue := if bool_decide (i + k < ahi ∧ j + k < bhi)
                         then (i + k, ahi, j + k, bhi) :: queue else queue in
            matching_loop find fuel queue (matching_blocks ++ [(i, j, k)])
          else matching_loop find fuel queue matching_blocks
      end
  end.

(** The loop that collapses adjacent blocks; the state is [(i1, j1, k1)]
    and [non_adjacent]. *)
Definition collapse_step (st : block * list block) (x : block) : block * list block :=
  let '((i1, j1, k1), non_adjacent) := st in
  let '(i2, j2, k2) := x in
  if bool_decide (i1 + k1 = i2 ∧ j1 + k1 = j2)
  then ((i1, j1, k1 + k2), non_adjacent)
  else ((i2, j2, k2),
        if bool_decide (k1 ≠ 0) then non_adjacent ++ [(i1, j1, k1)] else non_adjacent).

Definition collapse (matching_blocks : list block) : list block :=
  let '((i1, j1, k1), non_adjacent) := foldl collapse_step ((0, 0, 0), []) matching_blocks in
  if bool_decide (k1 ≠ 0) then non_adjacent ++ [(i1, j1, k1)] else non_adjacent.

(** Every iteration of the work loop removes a region and adds regions
    that are together strictly smaller, so [2 * len(a) + 1] iterations
    are enough ([matching_loop_total] below). *)
Definition matching_fuel (a : list T) : nat := 2 * length a + 1.

Definition raw_matching_blocks (a b : list T) : option (list block) :=
  let b2j := chain_b b in
  matching_loop (λ '(alo, ahi, blo, bhi), find_longest_match a b b2j alo ahi blo bhi)
    (matching_fuel a) [(0, length a, 0, length b)] [].

Definition get_matching_blocks (a b : list T) : list block :=
  let matching_blocks := default [] (raw_matching_blocks a b) in
  let matching_blocks := merge_sort block_le matching_blocks in
  collapse matching_blocks ++ [(length a, length b, 0)].

(** *** [get_opcodes] *)

Definition opcode_step (st : nat * nat * list opcode) (x : block) : nat * nat * list opcode :=
  let '(i, j, answer) := st in
  let '(ai, bj, size) := x in
  let tag :=
    if bool_decide (i < ai ∧ j < bj) then Some tag_replace
    else if bool_decide (i < ai) then Some tag_delete
    else if bool_decide (j < bj) then Some tag_insert
    else None in
  let answer := match tag with
                | Some t => answer ++ [(t, i, ai, j, bj)]
                | None => answer
                end in
  let answer := if bool_decide (size ≠ 0)
                then answer ++ [(tag_equal, ai, ai + size, bj, bj + size)] else answer in
  (ai + size, bj + size, answer).

Definition opcodes_of_blocks (blocks : list block) : list opcode :=
  (foldl opcode_step (0, 0, []) blocks).2.

Definition get_opcodes (a b : list T) : list opcode :=
  opcodes_of_blocks (get_matching_blocks a b).

End SequenceMatcher.

(** ** [str] methods and [html.escape] *)

(** [Py_UNICODE_ISLINEBREAK]: the line boundaries of [str.splitlines]. *)
Definition is_linebreak (c : char) : bool :=
  bool_decide (c ∈ [10; 11; 12; 13; 28; 29; 30; 133; 8232; 8233]%N).

(** [str.splitlines()] without [keepends].  [cur] is the line read so
    far; [after_cr] tells that the previous character was a carriage
    return, so that a line feed here belongs to the same boundary. *)
Fixpoint splitlines_from (after_cr : bool) (cur : str) (s : str) : list str :=
  match s with
  | [] => if bool_decide (cur = []) then [] else [cur]
  | c :: s' =>
      if after_cr && bool_decide (c = LF) then splitlines_from false cur s'
      else if is_linebreak c then cur :: splitlines_from (bool_decide (c = CR)) [] s'
      else splitlines_from false (cur ++ [c]) s'
  end.

Definition splitlines (s : str) : list str := splitlines_from false [] s.

(** [s.replace(old, new)] for a pattern [old] of one character. *)
Definition replace_char (old : char) (new : str) (s : str) : str :=
  s ≫= λ c, if bool_decide (c = old) then new else [c].

(** [html.escape(s)] with [quote=True]. *)
Definition html_escape (s : str) : str :=
  let s := replace_char AMP (lit "&amp;") s in
  let s := replace_char LT (lit "&lt;") s in
  let s := replace_char GT (lit "&gt;") s in
  let s := replace_char QUOT (lit "&quot;") s in
  replace_char APOS (lit "&#x27;") s.

(** [sep.join(l)] *)
Fixpoint join (sep : str) (l : list str) : str :=
  match l with
  | [] => []
  | x :: l' => match l' with [] => x | _ :: _ => x ++ sep ++ join sep l' end
  end.

(** [str(n)] for a non-negative int. *)
Definition str_of_nat (n : nat) : str :=
  lit (NilEmpty.string_of_uint (Nat.to_uint n)).

(** [s[i1:i2]] for non-negative bounds. *)
Definition slice {A} (s : list A) (i1 i2 : nat) : list A :=
  take (i2 - i1) (drop i1 s).

(** ** meld-port.py *)

(** The [tag] of a chunk is one of the four tags of [difflib], as in
    every chunk that [compute_diff] builds.  The source declares it a
    [str] and does not check it: a chunk made by hand with another tag
    is outside this model. *)
Record DiffChunk : Type := mkDiffChunk {
  tag_of : tag;
  start_a : Z;
  end_a : Z;
  start_b : Z;
  end_b : Z
}.

#[global] Instance DiffChunk_eq_dec : EqDecision DiffChunk.
Proof. solve_decision. Defined.

(** The text of a tag. *)
Definition tag_name (t : tag) : str :=
  match t with
  | tag_equal => lit "equal"
  | tag_insert => lit "insert"
  | tag_delete => lit "delete"
  | tag_replace => lit "replace"
  end.

Definition chunk_of_opcode (o : opcode) : DiffChunk :=
  let '(t, i1, i2, j1, j2) := o in
  mkDiffChunk t (Z.of_nat i1) (Z.of_nat i2) (Z.of_nat j1) (Z.of_nat j2).

(** The body of the loop of [compute_diff]. *)
Definition compute_diff_step (chunks : list DiffChunk) (o : opcode) : list DiffChunk :=
  if bool_decide (op_tag o ≠ tag_equal) then chunks ++ [chunk_of_opcode o] else chunks.

Definition compute_diff (text_a text_b : str) : list DiffChunk :=
  let lines_a := splitlines text_a in
  let lines_b := splitlines text_b in
  foldl compute_diff_step [] (get_opcodes lines_a lines_b).

Definition compute_inline_diff (text1 text2 : str) : list opcode :=
  get_opcodes text1 text2.

Definition INLINE_HIGHLIGHT_LIMIT : nat := 20 * 1024.
Definition LINE_LENGTH_LIMIT : nat := 8 * 1024.

Definition NBSP : str := lit "&nbsp;".
Definition SPAN_OPEN : str := lit "<span class=" ++ [QUOT] ++ lit "inline-diff" ++ [QUOT] ++ lit ">".
Definition SPAN_CLOSE : str := lit "</span>".

(** [html.escape(line) if line else "&nbsp;"] *)
Definition escape_or_nbsp (line : str) : str :=
  if bool_decide (line = []) then NBSP else html_escape line.

(** The body of the loop over the opcodes. *)
Definition render_op (line : str) (result : list str) (o : opcode) : list str :=
  let '(t, i1, i2, j1, j2) := o in
  match t with
  | tag_equal => result ++ [html_escape (slice line i1 i2)]
  | tag_replace | tag_delete =>
      result ++ [SPAN_OPEN ++ html_escape (slice line i1 i2) ++ SPAN_CLOSE]
  | tag_insert => result
  end.

(** [format_line_with_inline_diff], with the character aligner it calls
    as a parameter. *)
Definition format_line_with_inline_diff_using (diff : str → str → list opcode)
    (line other_line : str) (is_changed : bool) : str :=
  if negb is_changed || bool_decide (line = []) || bool_decide (other_line = [])
  then escape_or_nbsp line
  else if bool_decide (INLINE_HIGHLIGHT_LIMIT < length line + length other_line)
  then escape_or_nbsp line
  else
    let opcodes := diff line other_line in
    let result := foldl (render_op line) [] opcodes in
    if bool_decide (result = []) then NBSP else join [] result.

Definition format_line_with_inline_diff : str → str → bool → str :=
  format_line_with_inline_diff_using compute_inline_diff.

(** [chunk.start_a <= i < chunk.end_a] on the left,
    [chunk.start_b <= i < chunk.end_b] on the right. *)
Definition in_chunk (is_left : bool) (chunk : DiffChunk) (i : nat) : Prop :=
  if is_left then (start_a chunk ≤ Z.of_nat i < end_a chunk)%Z
  else (start_b chunk ≤ Z.of_nat i < end_b chunk)%Z.

#[global] Instance in_chunk_dec is_left chunk i : Decision (in_chunk is_left chunk i).
Proof. unfold in_chunk. destruct is_left; apply _. Defined.

(** The first loop over [chunks]: [(chunk_class, chunk_tag)]. *)
Fixpoint classify (is_left : bool) (i : nat) (chunks : list DiffChunk) : str * option tag :=
  match chunks with
  | [] => ([], None)
  | chunk :: chunks' =>
      if bool_decide (in_chunk is_left chunk i)
      then (lit "chunk-" ++ tag_name (tag_of chunk), Some (tag_of chunk))
      else classify is_left i chunks'
  end.

(** The index of the paired line: [chunk.start_b + (i - chunk.start_a)]
    on the left, [chunk.start_a + (i - chunk.start_b)] on the right. *)
Definition paired_index (is_left : bool) (chunk : DiffChunk) (i : nat) : Z :=
  if is_left then (start_b chunk + (Z.of_nat i - start_a chunk))%Z
  else (start_a chunk + (Z.of_nat i - start_b chunk))%Z.

(** The second loop over [chunks], with its [else] clause. *)
Fixpoint format_paired (is_left : bool) (i : nat) (line : str) (other_lines : list str)
    (chunks : list DiffChunk) : str :=
  match chunks with
  | [] => escape_or_nbsp line
  | chunk :: chunks' =>
      if bool_decide (in_chunk is_left chunk i ∧ tag_of chunk = tag_replace) then
        let other_idx := paired_index is_left chunk i in
        if bool_decide (0 ≤ other_idx < Z.of_nat (length other_lines))%Z then
          match other_lines !! Z.to_nat other_idx with
          | Some other_line => format_line_with_inline_diff line other_line true
          | None => escape_or_nbsp line   (* the index is within bounds *)
          end
        else escape_or_nbsp line
      else format_paired is_left i line other_lines chunks'
  end.

Definition formatted_line (is_left : bool) (i : nat) (line : str) (other_lines : list str)
    (chunks : list DiffChunk) : str :=
  if bool_decide ((classify is_left i chunks).2 = Some tag_replace)
  then format_paired is_left i line other_lines chunks
  else escape_or_nbsp line.

(** The record appended to [html_lines]. *)
Definition line_record (chunk_class : str) (i : nat) (content : str) : str :=
  lit "<div class=" ++ [QUOT] ++ lit "line " ++ chunk_class ++ [QUOT]
  ++ lit " data-line=" ++ [QUOT] ++ str_of_nat i ++ [QUOT] ++ lit ">"
  ++ lit "<span class=" ++ [QUOT] ++ lit "line-num" ++ [QUOT] ++ lit ">"
  ++ str_of_nat (i + 1) ++ lit "</span>"
  ++ lit "<span class=" ++ [QUOT] ++ lit "line-content" ++ [QUOT] ++ lit ">"
  ++ content ++ lit "</span>"
  ++ lit "</div>".

(** The body of [for i, line in enumerate(lines)]. *)
Definition format_lines_step (other_lines : list str) (chunks : list DiffChunk)
    (is_left : bool) (html_lines : list str) (p : nat * str) : list str :=
  let '(i, line) := p in
  html_lines ++ [line_record (classify is_left i chunks).1 i
                   (formatted_line is_left i line other_lines chunks)].

Definition format_lines_records (lines other_lines : list str) (chunks : list DiffChunk)
    (is_left : bool) : list str :=
  foldl (format_lines_step other_lines chunks is_left) [] (imap pair lines).

Definition format_lines (lines other_lines : list str) (chunks : list DiffChunk)
    (is_left : bool) : str :=
  join [LF] (format_lines_records lines other_lines chunks is_left).

(** The loop [for i, line in enumerate(lines, 1)] of [check_file_limits]:
    the number and the length of the first line that is too long. *)
Fixpoint first_long_line (i : nat) (lines : list str) : option (nat * nat) :=
  match lines with
  | [] => None
  | line :: lines' =>
      if bool_decide (LINE_LENGTH_LIMIT < length line) then Some (i, length line)
      else first_long_line (S i) lines'
  end.

(** What [check_file_limits] prints when it rejects a text. *)
Definition binary_report (filename : str) : list str :=
  [ lit "Error: " ++ filename ++ lit " appears to be a binary file (contains null bytes)";
    lit "Binary files are not supported in the diff viewer." ].

Definition long_line_report (filename : str) (i len : nat) : list str :=
  [ lit "Error: " ++ filename ++ lit " line " ++ str_of_nat i ++ lit " exceeds "
      ++ str_of_nat LINE_LENGTH_LIMIT ++ lit " characters (" ++ str_of_nat len ++ lit " chars)";
    lit "Files with very long lines can cause browser hangs and are not supported." ].

(** [check_file_limits]: the lines printed and the value returned. *)
Definition check_file_limits (text filename : str) : list str * bool :=
  if bool_decide (NUL ∈ text) then (binary_report filename, false)
  else
    let lines := splitlines text in
    match first_long_line 1 lines with
    | Some (i, len) => (long_line_report filename i len, false)
    | None => ([], true)
    end.

(** ** [generate_html]

    The page is rendered by a Jinja2 template that is read from a file;
    what the function computes itself are the four values that it hands
    to the template. *)

(** [json.dumps] of an int: its decimal digits, after a minus sign when
    it is negative. *)
Definition json_int (z : Z) : str :=
  if bool_decide (z < 0)%Z then lit "-" ++ str_of_nat (Z.to_nat (- z))
  else str_of_nat (Z.to_nat z).

(** [json.dumps] of a string of ASCII letters and underscores, as the
    keys and the names of the tags are: the string between double
    quotes, nothing in it being escaped. *)
Definition json_str (s : str) : str := [QUOT] ++ s ++ [QUOT].

(** [json.dumps] of one dict of [chunks_data]: the items in the order
    in which the dict was built, [", "] between two items and [": "]
    after a key. *)
Definition json_chunk (i : nat) (chunk : DiffChunk) : str :=
  lit "{" ++ json_str (lit "id") ++ lit ": " ++ json_int (Z.of_nat i)
  ++ lit ", " ++ json_str (lit "tag") ++ lit ": " ++ json_str (tag_name (tag_of chunk))
  ++ lit ", " ++ json_str (lit "start_a") ++ lit ": " ++ json_int (start_a chunk)
  ++ lit ", " ++ json_str (lit "end_a") ++ lit ": " ++ json_int (end_a chunk)
  ++ lit ", " ++ json_str (lit "start_b") ++ lit ": " ++ json_int (start_b chunk)
  ++ lit ", " ++ json_str (lit "end_b") ++ lit ": " ++ json_int (end_b chunk)
  ++ lit "}".

(** [json.dumps(chunks_data)], where [chunks_data] holds one dict for
    each [i, chunk in enumerate(chunks)]. *)
Definition chunks_json (chunks : list DiffChunk) : str :=
  lit "[" ++ join (lit ", ") (imap json_chunk chunks) ++ lit "]".

(** The keyword arguments of [template.render]. *)
Record template_args : Type := mk_template_args {
  left_content : str;
  right_content : str;
  chunks_json_arg : str;
  chunk_count : nat
}.

Definition render_args (text_a text_b : str) (chunks : list DiffChunk) : template_args :=
  let lines_a := splitlines text_a in
  let lines_b := splitlines text_b in
  let left_content := format_lines lines_a lines_b chunks true in
  let right_content := format_lines lines_b lines_a chunks false in
  mk_template_args left_content right_content (chunks_json chunks) (length chunks).

(** [generate_html], with the rendering of the template that
    [template_path] names as a parameter. *)
Definition generate_html {R : Type} (template_render : template_args → R)
    (text_a text_b : str) (chunks : list DiffChunk) : R :=
  template_render (render_args text_a text_b chunks).

(** ** The reference aligner

    The Ratcliff/Obershelp recursion as the specification words it: find
    the longest common contiguous block of the two regions, the one with
    the smallest start in [a] and then the smallest start in [b] when
    several are as long; recurse on the regions strictly before and
    strictly after it; concatenate in order. *)

Section Reference.
Context {T : Type} `{Countable T}.

(** How far [a[p:]] and [b[q:]] agree, up to [n] elements. *)
Fixpoint common_length (a b : list T) (n p q : nat) : nat :=
  match n with
  | 0 => 0
  | S n' => if elt_eqb a b p q then S (common_length a b n' (S p) (S q)) else 0
  end.

(** The common block that starts at [(p, q)] replaces [best] only when
    it is strictly longer. *)
Definition longest_step_b (a b : list T) (ahi bhi p : nat) (best : block) (q : nat) : block :=
  let k := common_length a b ((ahi - p) `min` (bhi - q)) p q in
  if bool_decide (best.2 < k) then (p, q, k) else best.

Definition longest_step_a (a b : list T) (ahi blo bhi : nat) (best : block) (p : nat) : block :=
  foldl (longest_step_b a b ahi bhi p) best (seq blo (bhi - blo)).

(** The starts are tried in increasing order of [p], then of [q]. *)
Definition longest_common_block (a b : list T) (r : region) : block :=
  let '(alo, ahi, blo, bhi) := r in
  foldl (longest_step_a a b ahi blo bhi) (alo, blo, 0) (seq alo (ahi - alo)).

(** The recursion on the regions before and after the block that [find]
    returns.  [depth] bounds the nesting; a region that holds [n]
    elements of [a] needs [n + 1]. *)
Fixpoint blocks_rec (find : region → block) (depth : nat) (r : region) : list block :=
  match depth with
  | 0 => []
  | S depth =>
      let '(alo, ahi, blo, bhi) := r in
      let '(i, j, k) := find r in
      if bool_decide (k = 0) then []
      else blocks_rec find depth (alo, i, blo, j) ++ [(i, j, k)]
           ++ blocks_rec find depth (i + k, ahi, j + k, bhi)
  end.

Definition ratcliff_obershelp_blocks (a b : list T) : list block :=
  blocks_rec (longest_common_block a b) (S (length a)) (0, length a, 0, length b).

(** Adjacent matches are merged and the gaps between the matches are
    classified, as in [get_matching_blocks] and [get_opcodes]. *)
Definition ratcliff_obershelp (a b : list T) : list opcode :=
  opcodes_of_blocks (collapse (ratcliff_obershelp_blocks a b) ++ [(length a, length b, 0)]).

End Reference.

(** ** Notions used to state the properties *)

(** [needle in hay] for two strings. *)
Definition contains (needle hay : str) : Prop :=
  ∃ pre post, hay = pre ++ needle ++ post.

(** What one run of the character alignment contributes to the line. *)
Definition render_run (line : str) (o : opcode) : str :=
  match op_tag o with
  | tag_equal => html_escape (slice line (op_i1 o) (op_i2 o))
  | tag_replace | tag_delete =>
      SPAN_OPEN ++ html_escape (slice line (op_i1 o) (op_i2 o)) ++ SPAN_CLOSE
  | tag_insert => []
  end.



(** The start of a chunk on the side that is projected, and on the
    other side. *)
Definition this_start (is_left : bool) (chunk : DiffChunk) : Z :=
  if is_left then start_a chunk else start_b chunk.

Definition other_start (is_left : bool) (chunk : DiffChunk) : Z :=
  if is_left then start_b chunk else start_a chunk.

(** The chunk that classifies line [i] is the first one of the list
    whose range holds [i]. *)
Definition first_chunk (chunks : list DiffChunk) (is_left : bool) (i n : nat)
    (chunk : DiffChunk) : Prop :=
  chunks !! n = Some chunk ∧ in_chunk is_left chunk i
  ∧ ∀ m c, m < n → chunks !! m = Some c → ¬ in_chunk is_left c i.

(** The partition of two sequences by edit operations. *)

(** The operations follow one another without a gap from [(i, j)] to
    [(i', j')]: each starts where the one before it ends. *)
Fixpoint tiles (i j : nat) (ops : list opcode) (i' j' : nat) : Prop :=
  match ops with
  | [] => i = i' ∧ j = j'
  | o :: ops' =>
      op_i1 o = i ∧ op_j1 o = j ∧ op_i1 o ≤ op_i2 o ∧ op_j1 o ≤ op_j2 o
      ∧ tiles (op_i2 o) (op_j2 o) ops' i' j'
  end.

(** What the tag of an operation says about its two ranges. *)
Definition op_ok {T} (a b : list T) (o : opcode) : Prop :=
  match op_tag o with
  | tag_equal =>
      op_i1 o < op_i2 o ∧ op_i2 o - op_i1 o = op_j2 o - op_j1 o
      ∧ ∀ t, op_i1 o + t < op_i2 o →
             ∃ x, a !! (op_i1 o + t) = Some x ∧ b !! (op_j1 o + t) = Some x
  | tag_insert => op_i1 o = op_i2 o ∧ op_j1 o < op_j2 o
  | tag_delete => op_i1 o < op_i2 o ∧ op_j1 o = op_j2 o
  | tag_replace => op_i1 o < op_i2 o ∧ op_j1 o < op_j2 o
  end.

(** The partition invariant of one alignment run. *)
Definition total_partition {T} (a b : list T) (ops : list opcode) : Prop :=
  (* contiguous, from the start of both sequences to their ends *)
  tiles 0 0 ops (length a) (length b)
  (* in increasing order and without overlap *)
  ∧ (∀ n m o o', n < m → ops !! n = Some o → ops !! m = Some o' →
       op_i2 o ≤ op_i1 o' ∧ op_j2 o ≤ op_j1 o'
       ∧ (op_i1 o < op_i1 o' ∨ op_j1 o < op_j1 o'))
  (* every index of [a], and of [b], lies in exactly one range *)
  ∧ (∀ x, x < length a → exists ! n, ∃ o, ops !! n = Some o ∧ op_i1 o ≤ x < op_i2 o)
  ∧ (∀ y, y < length b → exists ! n, ∃ o, ops !! n = Some o ∧ op_j1 o ≤ y < op_j2 o)
  (* the tags agree with the ranges *)
  ∧ Forall (op_ok a b) ops.

(** A line of five characters against two hundred: [a] occurs four
    times in the second sequence, which makes it popular. *)
Definition popular_a : str := [98; 97; 97; 97; 97]%N.
Definition popular_b : str := [97; 97; 97; 97]%N ++ (N.of_nat <$> seq 1000 196).

(** ** Notions used to state further properties *)

(** What [html.escape] puts for one character. *)
Definition escape_char (c : char) : str :=
  if bool_decide (c = AMP) then lit "&amp;"
  else if bool_decide (c = LT) then lit "&lt;"
  else if bool_decide (c = GT) then lit "&gt;"
  else if bool_decide (c = QUOT) then lit "&quot;"
  else if bool_decide (c = APOS) then lit "&#x27;"
  else [c].

(** A string that holds no line boundary. *)
Definition plain (l : str) : Prop := Forall (λ c, is_linebreak c = false) l.

#[global] Instance plain_dec l : Decision (plain l).
Proof. unfold plain. apply _. Defined.

(** The tags that the line projector and the inline highlighter write:
    what they put from a [<] up to the first attribute value or to the
    closing [>]. *)
Definition own_tags : list str :=
  [lit "<div class="; lit "<span class="; lit "</span>"; lit "</div>"].

(** Every [<] of [out] opens one of these tags. *)
Definition opens_own_tags (out : str) : Prop :=
  ∀ pre post, out = pre ++ LT :: post →
  ∃ tag rest, tag ∈ own_tags ∧ LT :: post = tag ++ rest.

(** The end of a chunk on the side that is not projected. *)
Definition other_end (is_left : bool) (chunk : DiffChunk) : Z :=
  if is_left then end_b chunk else end_a chunk.

(** * Proofs *)

(** * The index [b2j] *)

Section ChainB.
Context {T : Type} `{Countable T}.

(** What [b2j] holds for an element [x] after the first loop of
    [__chain_b] has read [b]. *)
Definition b2j_entry (b : list T) (x : T) (o : option (list nat)) : Prop :=
  match o with
  | Some js =>
      js ≠ [] ∧ Sorted lt js ∧ Forall (λ j, j < length b) js
      ∧ ∀ j, j ∈ js ↔ b !! j = Some x
  | None => x ∉ b
  end.

Lemma Sorted_lt_snoc (js : list nat) (n : nat) :
  Sorted lt js → Forall (λ j, j < n) js → Sorted lt (js ++ [n]).
Proof.
  intros Hs Hf. apply Sorted_snoc; [done|].
  destruct js as [|j js _] using rev_ind; [constructor|].
  constructor. rewrite Forall_app, Forall_singleton in Hf. lia.
Qed.

Lemma b2j_all_snoc (b : list T) (y : T) :
  b2j_all (b ++ [y]) = b2j_add (b2j_all b) (length b, y).
Proof.
  unfold b2j_all. rewrite imap_app, foldl_app. simpl.
  by rewrite Nat.add_0_r.
Qed.

Lemma b2j_all_entry (b : list T) (x : T) : b2j_entry b x (b2j_all b !! x).
Proof.
  induction b as [|y b IH] using rev_ind.
  - unfold b2j_all. simpl. rewrite lookup_empty. simpl. apply not_elem_of_nil.
  - rewrite b2j_all_snoc. unfold b2j_add. simpl.
    destruct (decide (y = x)) as [->|Hne].
    + rewrite lookup_insert_eq. simpl. rewrite length_app. simpl.
      destruct (b2j_all b !! x) as [js|] eqn:E; simpl in *.
      * destruct IH as (_ & Hs & Hf & Hm). split_and!.
        -- by destruct js.
        -- by apply Sorted_lt_snoc.
        -- rewrite Forall_app, Forall_singleton. split; [|lia].
           eapply Forall_impl; [|exact Hf]. simpl. lia.
        -- intros j. rewrite elem_of_app, list_elem_of_singleton, Hm.
           split.
           ++ intros [Hj| ->].
              ** rewrite lookup_app_l; [done|]. by eapply lookup_lt_Some.
              ** by rewrite list_lookup_middle.
           ++ intros Hj. destruct (decide (j < length b)) as [Hl|Hl].
              ** left. by rewrite lookup_app_l in Hj.
              ** right. apply lookup_lt_Some in Hj. rewrite length_app in Hj.
                 simpl in Hj. lia.
      * split_and!.
        -- done.
        -- repeat constructor.
        -- repeat constructor. lia.
        -- intros j. rewrite list_elem_of_singleton. split.
           ++ intros ->. by rewrite list_lookup_middle.
           ++ intros Hj. destruct (decide (j < length b)) as [Hl|Hl].
              ** rewrite lookup_app_l in Hj by done.
                 exfalso. apply IH. by eapply list_elem_of_lookup_2.
              ** apply lookup_lt_Some in Hj. rewrite length_app in Hj.
                 simpl in Hj. lia.
    + rewrite lookup_insert_ne by done.
      destruct (b2j_all b !! x) as [js|] eqn:E; simpl in *.
      * destruct IH as (Hne' & Hs & Hf & Hm). split_and!; [done|done| |].
        -- rewrite length_app. eapply Forall_impl; [|exact Hf]. simpl. lia.
        -- intros j. rewrite Hm. split.
           ++ intros Hj. rewrite lookup_app_l; [done|]. by eapply lookup_lt_Some.
           ++ intros Hj. destruct (decide (j < length b)) as [Hl|Hl].
              ** by rewrite lookup_app_l in Hj.
              ** apply lookup_lt_Some in Hj as Hj'. rewrite length_app in Hj'.
                 simpl in Hj'. assert (j = length b) as -> by lia.
                 rewrite list_lookup_middle in Hj by done. congruence.
      * rewrite elem_of_app, list_elem_of_singleton. intros [?| ->]; [by apply IH|done].
Qed.

(** An element is kept in [b2j] exactly when it occurs in [b] and is not
    popular. *)
Lemma chain_b_lookup (b : list T) (x : T) (js : list nat) :
  chain_b b !! x = Some js ↔ b2j_all b !! x = Some js ∧ x ∉ bpopular b.
Proof. unfold chain_b. by rewrite map_lookup_filter_Some. Qed.

Lemma chain_b_sorted (b : list T) (x : T) (js : list nat) :
  chain_b b !! x = Some js → Sorted lt js.
Proof.
  rewrite chain_b_lookup. intros [E _].
  pose proof (b2j_all_entry b x) as Hx. rewrite E in Hx. apply Hx.
Qed.

Lemma chain_b_elem_of (b : list T) (x : T) (js : list nat) (j : nat) :
  chain_b b !! x = Some js → j ∈ js ↔ b !! j = Some x.
Proof.
  rewrite chain_b_lookup. intros [E _].
  pose proof (b2j_all_entry b x) as Hx. rewrite E in Hx. apply Hx.
Qed.

Lemma chain_b_is_Some (b : list T) (x : T) :
  is_Some (chain_b b !! x) ↔ x ∈ b ∧ x ∉ bpopular b.
Proof.
  pose proof (b2j_all_entry b x) as Hx. split.
  - intros [js Hjs]. apply chain_b_lookup in Hjs as [E Hp]. split; [|done].
    rewrite E in Hx. destruct Hx as (Hne & _ & _ & Hm).
    destruct js as [|j js]; [done|].
    eapply list_elem_of_lookup_2, Hm. left.
  - intros [Hin Hp]. destruct (b2j_all b !! x) as [js|] eqn:E; simpl in Hx; [|done].
    exists js. by apply chain_b_lookup.
Qed.

Lemma bpopular_short (b : list T) : length b < 200 → bpopular b = ∅.
Proof. intros Hl. unfold bpopular. rewrite bool_decide_eq_false_2; [done|lia]. Qed.

End ChainB.

Ltac bd_cases := repeat case_bool_decide; first [done | exfalso; lia | lia].

(** * The first of the longest

    Both the scan of [find_longest_match] and the reference search read
    the cells of a grid row by row and keep the first cell whose value
    is the greatest.  [val i j] is the value of cell [(i, j)] and
    [pos i j k] the block that is kept for a cell of value [k]. *)

Section Best.
Variables (alo blo bhi : nat) (val : nat → nat → nat) (pos : nat → nat → nat → nat * nat).

(** Cell [(i', j')] is read before cell [(i, j)]. *)
Definition before (i j i' j' : nat) : Prop := i' < i ∨ (i' = i ∧ j' < j).

(** [best] when all the cells before [(i, j)] have been read: it is the
    first of the cells of greatest value. *)
Record best_ok (i j : nat) (best : block) : Prop := {
  best_max : ∀ i' j', before i j i' j' → j' < bhi → val i' j' ≤ best.2;
  best_zero : best.2 = 0 → best = (alo, blo, 0);
  best_first : 0 < best.2 →
    ∃ i0 j0, before i j i0 j0 ∧ j0 < bhi ∧ val i0 j0 = best.2
      ∧ best.1 = pos i0 j0 best.2
      ∧ ∀ i' j', before i j i' j' → j' < bhi → val i' j' = best.2 → ¬ before i0 j0 i' j'
}.

Lemma best_ok_mono i j i2 j2 best :
  best_ok i j best →
  (∀ i' j', before i j i' j' → before i2 j2 i' j') →
  (∀ i' j', before i2 j2 i' j' → ¬ before i j i' j' → j' < bhi → val i' j' = 0) →
  best_ok i2 j2 best.
Proof.
  intros [Hmax Hzero Hfirst] Hsub Hnew. split; [|done|].
  - intros i' j' Hb Hj'. destruct (decide (before i j i' j')) as [Hb'|Hb'].
    + by apply Hmax.
    + rewrite (Hnew i' j') by done. lia.
  - intros Hpos. destruct (Hfirst Hpos) as (i0 & j0 & Hb0 & Hj0 & Hr & Hp & Hf).
    exists i0, j0. split_and!; [by apply Hsub|done..|].
    intros i' j' Hb Hj' Hr'. destruct (decide (before i j i' j')) as [Hb'|Hb'].
    + by apply Hf.
    + rewrite (Hnew i' j') in Hr' by done. lia.
Qed.

Lemma best_ok_read i j best :
  best_ok i j best → j < bhi →
  best_ok i (S j)
    (if bool_decide (best.2 < val i j) then (pos i j (val i j), val i j) else best).
Proof.
  intros [Hmax Hzero Hfirst] Hj.
  assert (∀ i' j', before i (S j) i' j' → before i j i' j' ∨ (i' = i ∧ j' = j)) as Hcase.
  { unfold before. lia. }
  case_bool_decide as Hk; split; simpl.
  - intros i' j' Hb Hj'. destruct (Hcase _ _ Hb) as [Hb'|[-> ->]]; [|done].
    specialize (Hmax _ _ Hb' Hj'). lia.
  - lia.
  - intros _. exists i, j. split_and!; [unfold before; lia|done..|].
    intros i' j' Hb Hj' Hr. destruct (Hcase _ _ Hb) as [Hb'|[-> ->]].
    + specialize (Hmax _ _ Hb' Hj'). lia.
    + unfold before. lia.
  - intros i' j' Hb Hj'. destruct (Hcase _ _ Hb) as [Hb'|[-> ->]]; [by apply Hmax|lia].
  - done.
  - intros Hpos. destruct (Hfirst Hpos) as (i0 & j0 & Hb0 & Hj0 & Hr & Hp & Hf).
    exists i0, j0. split_and!; [unfold before in *; lia|done..|].
    intros i' j' Hb Hj' Hr'. destruct (Hcase _ _ Hb) as [Hb'|[-> ->]]; [by apply Hf|].
    unfold before in *. lia.
Qed.

End Best.

(** * The scan of [find_longest_match] *)

Section Scan.
Context {T : Type} `{Countable T}.
Variables (a b : list T) (b2j : gmap T (list nat)).
Hypothesis b2j_sorted : ∀ x js, b2j !! x = Some js → Sorted lt js.
Hypothesis b2j_elem_of : ∀ x js j, b2j !! x = Some js → j ∈ js ↔ b !! j = Some x.
Variables (alo blo bhi : nat).

(** [a[i]] and [b[j]] are the same element, and [b2j] has an entry
    for it. *)
Definition cell (i j : nat) : bool :=
  match a !! i, b !! j with
  | Some x, Some y => bool_decide (x = y) && bool_decide (is_Some (b2j !! y))
  | _, _ => false
  end.

(** The length of the longest diagonal run of cells that ends at
    [(i, j)] and stays at or above [(alo, blo)]. *)
Fixpoint run (i j : nat) {struct i} : nat :=
  if bool_decide (alo ≤ i ∧ blo ≤ j) && cell i j
  then S (match i, j with S i', S j' => run i' j' | _, _ => 0 end)
  else 0.

Definition run_prev (i j : nat) : nat :=
  match i, j with S i', S j' => run i' j' | _, _ => 0 end.

Lemma run_unfold i j :
  run i j = if bool_decide (alo ≤ i ∧ blo ≤ j) && cell i j then S (run_prev i j) else 0.
Proof. by destruct i. Qed.

Lemma run_pos i j : 0 < run i j ↔ alo ≤ i ∧ blo ≤ j ∧ cell i j = true.
Proof.
  rewrite run_unfold. destruct (cell i j); rewrite ?andb_true_r, ?andb_false_r.
  - case_bool_decide; split; try lia; intros (? & ? & _); lia.
  - split; [lia|]. by intros (_ & _ & ?).
Qed.

Lemma run_bound i j : run i j ≤ i + 1 - alo ∧ run i j ≤ j + 1 - blo.
Proof.
  revert j. induction i as [|i IH]; intros j; rewrite run_unfold.
  - destruct (_ && _) eqn:E; [|lia]. simpl.
    apply andb_true_iff in E as [E _]. apply bool_decide_eq_true in E. lia.
  - destruct (_ && _) eqn:E; [|lia].
    apply andb_true_iff in E as [E _]. apply bool_decide_eq_true in E.
    destruct j as [|j]; simpl; [lia|]. specialize (IH j).
    pose proof (run_pos i j). destruct (run i j) eqn:Er; lia.
Qed.

Lemma run_cells i j t : t < run i j → cell (i - t) (j - t) = true.
Proof.
  revert i j. induction t as [|t IH]; intros i j Ht.
  - rewrite !Nat.sub_0_r. apply run_pos. lia.
  - rewrite run_unfold in Ht. destruct (_ && _); [|lia].
    destruct i as [|i], j as [|j]; simpl in Ht; try lia.
    simpl. apply IH. lia.
Qed.

Lemma run_ge i j k :
  k ≤ i + 1 - alo → k ≤ j + 1 - blo →
  (∀ t, t < k → cell (i - t) (j - t) = true) → k ≤ run i j.
Proof.
  revert i j. induction k as [|k IH]; intros i j Hi Hj Hc; [lia|].
  rewrite run_unfold.
  pose proof (Hc 0 ltac:(lia)) as H0. rewrite !Nat.sub_0_r in H0.
  rewrite H0, andb_true_r, bool_decide_eq_true_2 by lia.
  destruct k as [|k]; [lia|].
  destruct i as [|i], j as [|j]; simpl; try lia.
  apply le_n_S, IH; [lia..|].
  intros t Ht. specialize (Hc (S t) ltac:(lia)). by simpl in Hc.
Qed.

(** The cell that would continue a run to the upper left is not one. *)
Lemma run_stops i j :
  alo + run i j ≤ i → blo + run i j ≤ j → cell (i - run i j) (j - run i j) = false.
Proof.
  intros Hi Hj. destruct (cell (i - run i j) (j - run i j)) eqn:E; [|done].
  assert (S (run i j) ≤ run i j); [|lia].
  apply run_ge; [lia..|]. intros t Ht.
  destruct (decide (t = run i j)) as [->|]; [done|]. apply run_cells. lia.
Qed.

Lemma run_succ i j :
  alo ≤ S i → blo ≤ S j → cell (S i) (S j) = true → run (S i) (S j) = S (run i j).
Proof.
  intros Hi Hj Hc. rewrite run_unfold, Hc, andb_true_r.
  by rewrite bool_decide_eq_true_2 by lia.
Qed.

(** *** The dict [j2len] *)

(** The run lengths of the row above row [i]. *)
Definition run_above (i j : nat) : nat :=
  match i with 0 => 0 | S i' => run i' j end.

(** [j2len] at the start of row [i]. *)
Definition j2len_ok (j2len : gmap nat nat) (i : nat) : Prop :=
  ∀ j, j2len !! j =
       if bool_decide (0 < run_above i j ∧ j < bhi) then Some (run_above i j) else None.

(** [newj2len] in row [i] when the columns below [lo] have been read. *)
Definition newj2len_ok (newj2len : gmap nat nat) (i lo : nat) : Prop :=
  ∀ j, newj2len !! j =
       if bool_decide (j < lo ∧ 0 < run i j ∧ j < bhi) then Some (run i j) else None.

Lemma j2lenget_ok j2len i j :
  j2len_ok j2len i → j ≤ bhi → j2lenget j2len j = run_prev i j.
Proof.
  intros Hok Hj. destruct j as [|j]; simpl.
  - by destruct i.
  - rewrite Hok. unfold run_above, run_prev. destruct i as [|i].
    + case_bool_decide; simpl; lia.
    + case_bool_decide; simpl; lia.
Qed.

(** *** The best match so far *)

(** The block that ends at [(i, j)] and has length [k] starts at
    [(i+1-k, j+1-k)]. *)
Definition ends_at (i j k : nat) : nat * nat := (i + 1 - k, j + 1 - k).

Local Abbreviation scan_ok_at := (best_ok alo blo bhi run ends_at).

(** *** One row *)

Lemma scan_row_ok j2len i js :
  alo ≤ i → j2len_ok j2len i →
  ∀ lo newj2len best,
    Sorted lt js → Forall (λ j, lo ≤ j) js →
    (∀ j, lo ≤ j → j ∈ js ↔ cell i j = true) →
    newj2len_ok newj2len i lo → scan_ok_at i lo best →
    j2len_ok (scan_row j2len i blo bhi js newj2len best).1 (S i)
    ∧ scan_ok_at (S i) 0 (scan_row j2len i blo bhi js newj2len best).2.
Proof.
  intros Hi Hprev. induction js as [|j js IH]; intros lo new best Hs Hlo Hmem Hnew Hbest.
  - assert (∀ j, lo ≤ j → run i j = 0) as Hz.
    { intros j Hj. pose proof (run_pos i j) as Hp. pose proof (Hmem j Hj) as Hm.
      rewrite elem_of_nil in Hm. destruct (run i j); [done|].
      exfalso. apply Hm, Hp. lia. }
    simpl. split.
    + intros j. rewrite Hnew. simpl. destruct (decide (lo ≤ j)) as [Hj|Hj].
      * rewrite (Hz j Hj). by rewrite !bool_decide_eq_false_2 by lia.
      * bd_cases.
    + eapply best_ok_mono; [done|unfold before; lia|].
      unfold before. intros i' j' H1 H2 _.
      assert (i' = i) as -> by lia. apply Hz. lia.
  - apply Sorted_inv in Hs as Hs'. destruct Hs' as [Hs' _].
    assert (Forall (lt j) js) as Hall.
    { apply Sorted_extends; [intros ???; lia|done]. }
    clear Hs. rename Hall into Hs.
    apply Forall_cons_iff in Hlo as [Hj Hlo].
    assert (∀ j', lo ≤ j' → j' < j → run i j' = 0) as Hz.
    { intros j' H1 H2. pose proof (run_pos i j') as Hp. pose proof (Hmem j' H1) as Hm.
      destruct (run i j'); [done|]. exfalso.
      assert (j' ∈ j :: js) as Hin by (apply Hm, Hp; lia).
      apply elem_of_cons in Hin as [->|Hin]; [lia|].
      rewrite Forall_forall in Hs. specialize (Hs j'). 
      assert (j < j'); [|lia]. apply Hs. by apply list_elem_of_In. }
    assert (newj2len_ok new i j) as Hnew'.
    { intros j'. rewrite Hnew. destruct (decide (lo ≤ j' < j)) as [Hj'|Hj'].
      - rewrite Hz by lia. by rewrite !bool_decide_eq_false_2 by lia.
      - bd_cases. }
    assert (scan_ok_at i j best) as Hbest'.
    { eapply best_ok_mono; [done|unfold before; lia|].
      unfold before. intros i' j' H1 H2 _.
      assert (i' = i) as -> by lia. apply Hz; lia. }
    assert (∀ j', S j ≤ j' → j' ∈ js ↔ cell i j' = true) as Hmem'.
    { intros j' Hj'. rewrite <- Hmem by lia. rewrite elem_of_cons.
      split; [by right|]. intros [->|?]; [lia|done]. }
    assert (Forall (λ j', S j ≤ j') js) as Hlo'.
    { eapply Forall_impl; [|exact Hs]. simpl. lia. }
    simpl. case_bool_decide as Hblo.
    + (* continue *)
      assert (run i j = 0) as Hr.
      { pose proof (run_pos i j). destruct (run i j); [done|lia]. }
      apply (IH (S j)); try done.
      * intros j'. rewrite Hnew'. destruct (decide (j' = j)) as [->|].
        -- rewrite Hr. by rewrite !bool_decide_eq_false_2 by lia.
        -- bd_cases.
      * eapply best_ok_mono; [done|unfold before; lia|].
        unfold before. intros i' j' H1 H2 _. assert (i' = i ∧ j' = j) as [-> ->] by lia.
        done.
    + case_bool_decide as Hbhi.
      * (* break *)
        simpl. split.
        -- intros j'. rewrite Hnew'. simpl. bd_cases.
        -- eapply best_ok_mono; [done|unfold before; lia|].
           unfold before. intros i' j' H1 H2 H3. lia.
      * assert (cell i j = true) as Hc by (apply Hmem; [lia|left]).
        assert (run i j = j2lenget j2len j + 1) as Hr.
        { rewrite run_unfold, Hc, andb_true_r, bool_decide_eq_true_2 by lia.
          rewrite (j2lenget_ok _ i) by (done || lia). lia. }
        rewrite <- Hr. apply (IH (S j)); try done.
        -- intros j'. destruct (decide (j' = j)) as [->|].
           ++ rewrite lookup_insert_eq. rewrite bool_decide_eq_true_2; [done|lia].
           ++ rewrite lookup_insert_ne by done. rewrite Hnew'.
              bd_cases.
        -- apply best_ok_read; [done|lia].
Qed.

Lemma row_elem_of i j :
  j ∈ default [] (a !! i ≫= λ x, b2j !! x) ↔ cell i j = true.
Proof.
  unfold cell. destruct (a !! i) as [x|] eqn:Ea; simpl; [|by rewrite elem_of_nil].
  destruct (b2j !! x) as [js|] eqn:Ex; simpl.
  - rewrite (b2j_elem_of _ _ _ Ex). destruct (b !! j) as [y|]; [|done].
    rewrite andb_true_iff, !bool_decide_eq_true. split.
    + intros [= ->]. by rewrite Ex.
    + by intros [-> _].
  - rewrite elem_of_nil. destruct (b !! j) as [y|]; [|done].
    rewrite andb_true_iff, !bool_decide_eq_true. split; [done|].
    intros [-> [? ?]]. congruence.
Qed.

Lemma row_sorted i : Sorted lt (default [] (a !! i ≫= λ x, b2j !! x)).
Proof.
  destruct (a !! i) as [x|]; simpl; [|constructor].
  destruct (b2j !! x) as [js|] eqn:Ex; simpl; [by eapply b2j_sorted|constructor].
Qed.

Lemma scan_step_ok st i :
  alo ≤ i → j2len_ok st.1 i → scan_ok_at i 0 st.2 →
  j2len_ok (scan_step a b2j blo bhi st i).1 (S i)
  ∧ scan_ok_at (S i) 0 (scan_step a b2j blo bhi st i).2.
Proof.
  intros Hi Hj Hb. unfold scan_step. apply (scan_row_ok _ _ _ Hi Hj 0).
  - apply row_sorted.
  - apply Forall_forall. lia.
  - intros j _. apply row_elem_of.
  - intros j. rewrite lookup_empty. by rewrite bool_decide_eq_false_2 by lia.
  - done.
Qed.

Lemma scan_fold_ok n : ∀ i st,
  alo ≤ i → j2len_ok st.1 i → scan_ok_at i 0 st.2 →
  scan_ok_at (i + n) 0 (foldl (scan_step a b2j blo bhi) st (seq i n)).2.
Proof.
  induction n as [|n IH]; intros i st Hi Hj Hb; simpl.
  - by rewrite Nat.add_0_r.
  - destruct (scan_step_ok st i Hi Hj Hb) as [Hj' Hb'].
    replace (i + S n) with (S i + n) by lia. apply IH; [lia|done..].
Qed.

(** The result of the scan over the rows [alo ≤ i < ahi]. *)
Lemma scan_ok ahi : alo ≤ ahi → scan_ok_at ahi 0 (scan a b2j alo ahi blo bhi).
Proof.
  intros Hle. unfold scan. replace ahi with (alo + (ahi - alo)) at 1 by lia.
  apply scan_fold_ok; [done| |].
  - intros j. simpl. rewrite lookup_empty. unfold run_above.
    destruct alo as [|alo'] eqn:Ea; [by rewrite bool_decide_eq_false_2 by lia|].
    pose proof (run_pos alo' j). rewrite bool_decide_eq_false_2; [done|lia].
  - split; simpl; [|done|lia].
    intros i' j' Hb _. pose proof (run_pos i' j'). unfold before in Hb.
    destruct (run i' j'); lia.
Qed.

Lemma scan_empty ahi : ahi ≤ alo → scan a b2j alo ahi blo bhi = (alo, blo, 0).
Proof. intros Hle. unfold scan. by replace (ahi - alo) with 0 by lia. Qed.

End Scan.

(** * [find_longest_match] returns a common block of its region *)

Ltac tuple_eq := repeat first [lia | f_equal].

Section Find.
Context {T : Type} `{Countable T}.
Variables (a b : list T).

(** The elements of the block are pairwise identical. *)
Definition block_matches (m : block) : Prop :=
  ∀ t, t < m.2 → elt_eqb a b (m.1.1 + t) (m.1.2 + t) = true.

Definition region_ok (r : region) : Prop :=
  let '(alo, ahi, blo, bhi) := r in
  alo ≤ ahi ∧ ahi ≤ length a ∧ blo ≤ bhi ∧ bhi ≤ length b.

Definition block_inside (r : region) (m : block) : Prop :=
  let '(alo, ahi, blo, bhi) := r in
  alo ≤ m.1.1 ∧ m.1.1 + m.2 ≤ ahi ∧ blo ≤ m.1.2 ∧ m.1.2 + m.2 ≤ bhi.

Lemma elt_eqb_true i j :
  elt_eqb a b i j = true ↔ ∃ x, a !! i = Some x ∧ b !! j = Some x.
Proof.
  unfold elt_eqb. destruct (a !! i) as [x|], (b !! j) as [y|]; simpl.
  - rewrite bool_decide_eq_true. split; [intros ->; eauto|]. by intros (z & [= ->] & [= ->]).
  - split; [done|]. by intros (z & _ & ?).
  - split; [done|]. by intros (z & ? & _).
  - split; [done|]. by intros (z & ? & _).
Qed.

Lemma cell_elt_eqb b2j i j : cell a b b2j i j = true → elt_eqb a b i j = true.
Proof.
  unfold cell, elt_eqb. destruct (a !! i), (b !! j); try done.
  by intros [? _]%andb_true_iff.
Qed.

Lemma isbjunk_false j : isbjunk b j = false.
Proof.
  unfold isbjunk, bjunk. destruct (b !! j); [|done].
  apply bool_decide_eq_false, not_elem_of_empty.
Qed.

(** *** The scan *)

Lemma scan_inside b2j alo ahi blo bhi :
  (∀ x js, b2j !! x = Some js → Sorted lt js) →
  (∀ x js j, b2j !! x = Some js → j ∈ js ↔ b !! j = Some x) →
  alo ≤ ahi → blo ≤ bhi →
  block_inside (alo, ahi, blo, bhi) (scan a b2j alo ahi blo bhi)
  ∧ block_matches (scan a b2j alo ahi blo bhi).
Proof.
  intros Hs Hm Ha Hb.
  destruct (scan_ok a b b2j Hs Hm alo blo bhi ahi Ha) as [_ Hzero Hfirst].
  destruct (scan a b2j alo ahi blo bhi) as [[p q] k]. simpl in *.
  destruct (decide (k = 0)) as [->|Hk].
  - specialize (Hzero eq_refl) as [= -> ->]. split; [lia|]. intros t Ht. simpl in Ht. lia.
  - destruct (Hfirst ltac:(lia)) as (i0 & j0 & Hb0 & Hj0 & Hr & [= -> ->] & _).
    pose proof (run_bound a b b2j alo blo i0 j0) as [Hb1 Hb2]. rewrite Hr in Hb1, Hb2.
    unfold before in Hb0. split; [lia|].
    intros t Ht. simpl in *. apply (cell_elt_eqb b2j).
    replace (i0 + 1 - k + t) with (i0 - (k - 1 - t)) by lia.
    replace (j0 + 1 - k + t) with (j0 - (k - 1 - t)) by lia.
    apply (run_cells a b b2j alo blo). lia.
Qed.

(** *** The extension loops *)

Lemma extend_left_spec junk alo blo besti : ∀ bestj bestsize,
  ∃ d, d ≤ besti - alo ∧ d ≤ bestj - blo
    ∧ extend_left a b junk alo blo besti bestj bestsize = (besti - d, bestj - d, bestsize + d)
    ∧ (∀ t, t < d → elt_eqb a b (besti - d + t) (bestj - d + t) = true
                    ∧ isbjunk b (bestj - d + t) = junk)
    ∧ (alo < besti - d → blo < bestj - d →
       elt_eqb a b (besti - d - 1) (bestj - d - 1) = false
       ∨ isbjunk b (bestj - d - 1) ≠ junk).
Proof.
  induction besti as [|i IH]; intros bestj bestsize.
  - exists 0. simpl. rewrite ?Nat.sub_0_r, ?Nat.add_0_r. repeat split; intros; lia.
  - destruct bestj as [|j].
    + exists 0. simpl. rewrite ?Nat.sub_0_r, ?Nat.add_0_r. repeat split; intros; lia.
    + simpl. destruct (_ && _) eqn:E.
      * apply andb_true_iff in E as [E E4]. apply andb_true_iff in E as [E E3].
        apply andb_true_iff in E as [E1 E2].
        apply bool_decide_eq_true in E1, E2, E3.
        destruct (IH j (S bestsize)) as (d & Hd1 & Hd2 & -> & Hm & Hstop).
        exists (S d). split_and!; [lia|lia|tuple_eq| |].
        -- intros t Ht. destruct (decide (t = d)) as [->|].
           ++ replace (S i - S d + d) with i by lia.
              by replace (S j - S d + d) with j by lia.
           ++ replace (S i - S d + t) with (i - d + t) by lia.
              replace (S j - S d + t) with (j - d + t) by lia. apply Hm. lia.
        -- replace (S i - S d) with (i - d) by lia.
           by replace (S j - S d) with (j - d) by lia.
      * exists 0. split_and!; [lia|lia|tuple_eq|intros; lia|].
        intros H1 H2. rewrite !Nat.sub_0_r. simpl. rewrite !Nat.sub_0_r.
        rewrite !andb_false_iff in E. rewrite !bool_decide_eq_false in E.
        destruct E as [[[E|E]|E]|E]; [lia|lia|by right|by left].
Qed.

Lemma extend_right_spec junk bhi besti bestj room : ∀ bestsize,
  ∃ d, d ≤ room ∧ bestj + bestsize + d ≤ Nat.max bhi (bestj + bestsize)
    ∧ extend_right a b junk bhi besti bestj room bestsize = bestsize + d
    ∧ (∀ t, t < d → elt_eqb a b (besti + bestsize + t) (bestj + bestsize + t) = true
                    ∧ isbjunk b (bestj + bestsize + t) = junk)
    ∧ (d < room → bestj + bestsize + d < bhi →
       elt_eqb a b (besti + bestsize + d) (bestj + bestsize + d) = false
       ∨ isbjunk b (bestj + bestsize + d) ≠ junk).
Proof.
  induction room as [|room IH]; intros bestsize.
  - exists 0. simpl. split_and!; [lia|lia|lia|intros; lia|lia].
  - simpl. destruct (_ && _) eqn:E.
    + apply andb_true_iff in E as [E E3]. apply andb_true_iff in E as [E1 E2].
      apply bool_decide_eq_true in E1, E2.
      destruct (IH (S bestsize)) as (d & Hd1 & Hd2 & -> & Hm & Hstop).
      exists (S d). split_and!; [lia|lia|lia| |].
      * intros t Ht. destruct t as [|t].
        -- by rewrite !Nat.add_0_r.
        -- replace (besti + bestsize + S t) with (besti + S bestsize + t) by lia.
           replace (bestj + bestsize + S t) with (bestj + S bestsize + t) by lia.
           apply Hm. lia.
      * replace (besti + bestsize + S d) with (besti + S bestsize + d) by lia.
        replace (bestj + bestsize + S d) with (bestj + S bestsize + d) by lia.
        intros. apply Hstop; lia.
    + exists 0. split_and!; [lia|lia|lia|intros; lia|].
      intros _ Hlt. rewrite !Nat.add_0_r.
      rewrite !andb_false_iff in E. rewrite !bool_decide_eq_false in E.
      destruct E as [[E|E]|E]; [lia|by right|by left].
Qed.

(** With [isjunk=None] nothing is junk, and the two loops over junk
    elements leave the match as it is. *)
Lemma extend_junk alo ahi blo bhi m : extend a b true alo ahi blo bhi m = m.
Proof.
  unfold extend. destruct m as [[p q] k]. simpl.
  destruct (extend_left_spec true alo blo p q k) as (d & _ & _ & -> & Hm & _).
  destruct d as [|d].
  - rewrite !Nat.sub_0_r, !Nat.add_0_r.
    destruct (extend_right_spec true bhi p q (ahi - (p + k)) k) as (d & _ & _ & -> & Hm' & _).
    destruct d as [|d]; [by rewrite Nat.add_0_r|].
    destruct (Hm' 0 ltac:(lia)) as [_ Hj]. by rewrite isbjunk_false in Hj.
  - destruct (Hm 0 ltac:(lia)) as [_ Hj]. by rewrite isbjunk_false in Hj.
Qed.

Lemma extend_inside junk alo ahi blo bhi m :
  block_inside (alo, ahi, blo, bhi) m → block_matches m →
  block_inside (alo, ahi, blo, bhi) (extend a b junk alo ahi blo bhi m)
  ∧ block_matches (extend a b junk alo ahi blo bhi m).
Proof.
  destruct m as [[p q] k]. unfold block_inside, block_matches, extend. simpl.
  intros (H1 & H2 & H3 & H4) Hm.
  destruct (extend_left_spec junk alo blo p q k) as (d & Hd1 & Hd2 & -> & Hml & _).
  destruct (extend_right_spec junk bhi (p - d) (q - d) (ahi - (p - d + (k + d))) (k + d))
    as (e & He1 & He2 & -> & Hmr & _).
  simpl. split; [lia|].
  intros t Ht. destruct (decide (t < d)) as [Hlt|Hge]; [by apply Hml|].
  destruct (decide (t < k + d)) as [Hlt|Hge'].
  - replace (p - d + t) with (p + (t - d)) by lia.
    replace (q - d + t) with (q + (t - d)) by lia. apply Hm. lia.
  - replace (p - d + t) with (p - d + (k + d) + (t - (k + d))) by lia.
    replace (q - d + t) with (q - d + (k + d) + (t - (k + d))) by lia.
    apply Hmr. lia.
Qed.

Lemma find_longest_match_inside alo ahi blo bhi :
  alo ≤ ahi → blo ≤ bhi →
  block_inside (alo, ahi, blo, bhi) (find_longest_match a b (chain_b b) alo ahi blo bhi)
  ∧ block_matches (find_longest_match a b (chain_b b) alo ahi blo bhi).
Proof.
  intros Ha Hb. unfold find_longest_match. rewrite extend_junk.
  destruct (scan_inside (chain_b b) alo ahi blo bhi) as [Hi Hm]; [|  |done..|].
  - apply chain_b_sorted.
  - intros x js j. apply chain_b_elem_of.
  - by apply extend_inside.
Qed.

End Find.

(** * The work list of [get_matching_blocks] *)

(** A relation holds between any two elements at different places. *)
Fixpoint pairwise {A} (R : relation A) (l : list A) : Prop :=
  match l with
  | [] => True
  | x :: l' => Forall (R x) l' ∧ pairwise R l'
  end.

Lemma pairwise_app {A} (R : relation A) l1 l2 :
  pairwise R (l1 ++ l2) ↔
  pairwise R l1 ∧ pairwise R l2 ∧ Forall (λ x, Forall (R x) l2) l1.
Proof.
  induction l1 as [|x l1 IH]; simpl.
  - split; [by intros; split_and!|by intros (_ & ? & _)].
  - rewrite Forall_app, IH, Forall_cons_iff. tauto.
Qed.

Lemma pairwise_Permutation {A} (R : relation A) `{!Symmetric R} l1 l2 :
  l1 ≡ₚ l2 → pairwise R l1 → pairwise R l2.
Proof.
  induction 1 as [|x l1 l2 Hp IH|x y l|l1 l2 l3 _ IH1 _ IH2]; simpl.
  - done.
  - intros [Hx Hl]. split; [by rewrite <- Hp|by apply IH].
  - rewrite !Forall_cons_iff. intros [[Hyx Hy] [Hx Hl]]. by split_and!.
  - intros. by apply IH2, IH1.
Qed.

Lemma pairwise_fmap {A B} (R : relation B) (f : A → B) l :
  pairwise R (f <$> l) ↔ pairwise (λ x y, R (f x) (f y)) l.
Proof.
  induction l as [|x l IH]; simpl; [done|]. by rewrite Forall_fmap, IH.
Qed.

Lemma pairwise_push {A} (R : relation A) `{!Symmetric R} (news q acc : list A) x :
  pairwise R (q ++ acc) → Forall (R x) (q ++ acc) →
  pairwise R (x :: news) → Forall (λ n, Forall (R n) (q ++ acc)) news →
  pairwise R (news ++ q ++ acc ++ [x]).
Proof.
  intros Hrest Hx [Hxn Hnews] Hn.
  apply (pairwise_Permutation R (x :: news ++ (q ++ acc))).
  { rewrite !(assoc_L (++)). apply Permutation_cons_append. }
  simpl. split; [by apply Forall_app|]. apply pairwise_app. by split_and!.
Qed.

(** Region [r1] lies before region [r2] in both sequences. *)
Definition region_before (r1 r2 : region) : Prop :=
  r1.1.1.2 ≤ r2.1.1.1 ∧ r1.2 ≤ r2.1.2.

Definition apart (r1 r2 : region) : Prop := region_before r1 r2 ∨ region_before r2 r1.

#[global] Instance apart_sym : Symmetric apart.
Proof. intros r1 r2. unfold apart. tauto. Qed.

(** The region a block covers. *)
Definition block_region (m : block) : region :=
  (m.1.1, m.1.1 + m.2, m.1.2, m.1.2 + m.2).

Definition region_within (r q : region) : Prop :=
  q.1.1.1 ≤ r.1.1.1 ∧ r.1.1.2 ≤ q.1.1.2 ∧ q.1.2 ≤ r.1.2 ∧ r.2 ≤ q.2.

Lemma apart_within r q z : region_within r q → apart q z → apart r z.
Proof. unfold region_within, apart, region_before. lia. Qed.

Definition region_weight (r : region) : nat := 2 * (r.1.1.2 - r.1.1.1) + 1.

Definition queue_weight (queue : list region) : nat :=
  foldr (λ r n, region_weight r + n) 0 queue.

Ltac push_tac :=
  simpl; split_and?; repeat (apply Forall_cons_iff; split); try done;
  try (match goal with Hz : ∀ z, region_within z _ → _ |- _ =>
         apply Hz; unfold region_within; simpl; lia end);
  unfold apart, region_before, block_region; simpl; lia.

Section WorkList.
Context {T : Type} `{Countable T}.
Variables (a b : list T) (find : region → block).
Hypothesis find_inside : ∀ r, region_ok a b r →
  block_inside r (find r) ∧ block_matches a b (find r).

(** A block of positive length whose elements match, within both
    sequences. *)
Definition block_good (m : block) : Prop :=
  0 < m.2 ∧ m.1.1 + m.2 ≤ length a ∧ m.1.2 + m.2 ≤ length b ∧ block_matches a b m.

(** Every iteration makes the queue lighter, so the loop ends before
    the fuel does. *)
Lemma matching_loop_total fuel : ∀ queue acc,
  Forall (region_ok a b) queue → queue_weight queue ≤ fuel →
  is_Some (matching_loop find fuel queue acc).
Proof.
  induction fuel as [|fuel IH]; intros queue acc Hok Hw.
  - destruct queue as [|[[[alo ahi] blo] bhi] queue]; [by eexists|].
    simpl in Hw. unfold region_weight in Hw. lia.
  - destruct queue as [|[[[alo ahi] blo] bhi] queue]; [by eexists|].
    apply Forall_cons_iff in Hok as [Hr Hok]. simpl.
    destruct (find_inside _ Hr) as [Hin _].
    destruct (find (alo, ahi, blo, bhi)) as [[i j] k]. simpl in *.
    unfold region_weight in Hw. simpl in Hw.
    case_bool_decide as Hk; [|apply IH; [done|lia]].
    apply IH.
    + repeat case_bool_decide; repeat (apply Forall_cons_iff; split); simpl; try done; lia.
    + repeat case_bool_decide; simpl; unfold region_weight; simpl; lia.
Qed.

Definition loop_inv (queue : list region) (acc : list block) : Prop :=
  Forall (region_ok a b) queue
  ∧ Forall block_good acc
  ∧ pairwise apart (queue ++ (block_region <$> acc)).

Lemma matching_loop_inv fuel : ∀ queue acc res,
  matching_loop find fuel queue acc = Some res →
  loop_inv queue acc → loop_inv [] res.
Proof.
  induction fuel as [|fuel IH]; intros queue acc res Hrun Hinv.
  - destruct queue as [|[[[alo ahi] blo] bhi] queue]; [|done].
    simpl in Hrun. by injection Hrun as <-.
  - destruct queue as [|[[[alo ahi] blo] bhi] queue].
    { simpl in Hrun. by injection Hrun as <-. }
    destruct Hinv as (Hok & Hgood & Hpw).
    apply Forall_cons_iff in Hok as [Hr Hok]. simpl in Hrun, Hpw.
    destruct Hpw as [Hr_apart Hpw].
    destruct (find_inside _ Hr) as [Hin Hm].
    destruct (find (alo, ahi, blo, bhi)) as [[i j] k] eqn:Ef. simpl in *.
    case_bool_decide as Hk; [|apply (IH _ _ _ Hrun); by split_and!].
    apply (IH _ _ _ Hrun). clear IH Hrun.
    set (rest := queue ++ (block_region <$> acc)) in *.
    assert (∀ z, region_within z (alo, ahi, blo, bhi) → Forall (apart z) rest) as Hz.
    { intros z Hz. eapply Forall_impl; [|exact Hr_apart].
      intros y Hy. by eapply apart_within. }
    assert (Forall (apart (block_region (i, j, k))) rest) as HX.
    { apply Hz. unfold region_within, block_region. simpl. lia. }
    split_and!.
    + repeat case_bool_decide; repeat (apply Forall_cons_iff; split); simpl; try done; lia.
    + apply Forall_app. split; [done|]. apply Forall_singleton.
      unfold block_good. simpl. split_and!; [lia|lia|lia|done].
    + rewrite fmap_app. simpl.
      assert (pairwise apart (queue ++ (block_region <$> acc))) as Hpw' by done.
      unfold rest in *.
      repeat case_bool_decide.
      * apply (pairwise_push apart [_; _]); push_tac.
      * apply (pairwise_push apart [_]); push_tac.
      * apply (pairwise_push apart [_]); push_tac.
      * apply (pairwise_push apart []); simpl; try done.
Qed.

(** The raw blocks, wherever the loop is started from a whole region. *)
Lemma matching_loop_whole :
  ∃ res, matching_loop find (matching_fuel a) [(0, length a, 0, length b)] [] = Some res
    ∧ Forall block_good res ∧ pairwise apart (block_region <$> res).
Proof.
  assert (Forall (region_ok a b) [(0, length a, 0, length b)]) as Hok.
  { apply Forall_singleton. simpl. lia. }
  destruct (matching_loop_total (matching_fuel a) [(0, length a, 0, length b)] [] Hok)
    as [res Hres].
  { unfold matching_fuel, queue_weight, region_weight. simpl. lia. }
  exists res. split; [done|].
  destruct (matching_loop_inv _ _ _ _ Hres) as (_ & Hg & Hp); [|done].
  split_and!; [done|constructor|done].
Qed.

End WorkList.

(** * Sorting and collapsing the blocks *)

#[global] Instance block_le_trans : Transitive block_le.
Proof. intros x y z. unfold block_le. lia. Qed.

#[global] Instance block_le_total : Total block_le.
Proof. intros x y. unfold block_le. lia. Qed.

#[global] Instance block_le_antisymm : AntiSymm (=) block_le.
Proof.
  intros [[i j] k] [[i' j'] k']. unfold block_le. simpl. intros H1 H2.
  f_equal; [f_equal|]; lia.
Qed.

(** Each block starts at or after [(i, j)] and after the end of the
    block before it. *)
Fixpoint blocks_chain (i j : nat) (l : list block) : Prop :=
  match l with
  | [] => True
  | m :: l' => i ≤ m.1.1 ∧ j ≤ m.1.2 ∧ blocks_chain (m.1.1 + m.2) (m.1.2 + m.2) l'
  end.

(** Where a chain ends. *)
Fixpoint chain_end (i j : nat) (l : list block) : nat * nat :=
  match l with
  | [] => (i, j)
  | m :: l' => chain_end (m.1.1 + m.2) (m.1.2 + m.2) l'
  end.

Lemma blocks_chain_app i j l1 l2 :
  blocks_chain i j (l1 ++ l2) ↔
  blocks_chain i j l1 ∧ blocks_chain (chain_end i j l1).1 (chain_end i j l1).2 l2.
Proof.
  revert i j. induction l1 as [|m l1 IH]; intros i j; simpl; [tauto|].
  rewrite IH. tauto.
Qed.

Lemma chain_end_app i j l1 l2 :
  chain_end i j (l1 ++ l2) = chain_end (chain_end i j l1).1 (chain_end i j l1).2 l2.
Proof. revert i j. induction l1 as [|m l1 IH]; intros i j; simpl; [done|apply IH]. Qed.

Lemma blocks_chain_weaken i j i' j' l :
  i' ≤ i → j' ≤ j → blocks_chain i j l → blocks_chain i' j' l.
Proof. destruct l; simpl; [done|]. intros ?? (? & ? & ?). split_and!; [lia|lia|done]. Qed.

Lemma sorted_blocks_chain (l : list block) :
  Sorted block_le l → pairwise apart (block_region <$> l) → Forall (λ m, 0 < m.2) l →
  blocks_chain 0 0 l.
Proof.
  induction l as [|m l IH]; [done|]. simpl.
  intros Hs [Hm Hp] Hk. apply Forall_cons_iff in Hk as [Hk Hks].
  apply Sorted_inv in Hs as [Hs Hhd].
  split_and!; [lia|lia|]. specialize (IH Hs Hp Hks).
  destruct l as [|m' l]; [done|]. simpl in *. destruct IH as (_ & _ & IH).
  split_and!; [| |done].
  all: apply HdRel_inv in Hhd; apply Forall_cons_iff in Hm as [Hm _];
    apply Forall_cons_iff in Hks as [Hk' _];
    unfold apart, region_before, block_region, block_le in *; simpl in *; lia.
Qed.

Section Collapse.
Context {T : Type} `{Countable T}.
Variables (a b : list T).

Lemma block_good_merge i j k k' :
  (k ≠ 0 → block_good a b (i, j, k)) → block_good a b (i + k, j + k, k') →
  block_good a b (i, j, k + k').
Proof.
  unfold block_good, block_matches. simpl. intros H1 (H2 & H3 & H4 & H5).
  split_and!; [lia..|]. intros t Ht.
  destruct (decide (t < k)) as [Hlt|Hge].
  - apply H1; lia.
  - replace (i + t) with (i + k + (t - k)) by lia.
    replace (j + t) with (j + k + (t - k)) by lia. apply H5. lia.
Qed.

(** The current block, when it is not the dummy the loop starts with. *)
Definition current (m : block) : list block := if bool_decide (m.2 ≠ 0) then [m] else [].

Lemma current_pos i j k : k ≠ 0 → current (i, j, k) = [(i, j, k)].
Proof. intros Hk. unfold current. simpl. by rewrite bool_decide_eq_true_2. Qed.

Lemma current_zero i j : current (i, j, 0) = [].
Proof. done. Qed.

Lemma collapse_fold_ok l : ∀ cur na,
  (cur.2 = 0 → cur = (0, 0, 0) ∧ na = []) →
  blocks_chain 0 0 (na ++ current cur ++ l) →
  Forall (block_good a b) (na ++ current cur ++ l) →
  blocks_chain 0 0 ((foldl collapse_step (cur, na) l).2 ++ current (foldl collapse_step (cur, na) l).1)
  ∧ Forall (block_good a b)
      ((foldl collapse_step (cur, na) l).2 ++ current (foldl collapse_step (cur, na) l).1)
  ∧ chain_end 0 0 ((foldl collapse_step (cur, na) l).2 ++ current (foldl collapse_step (cur, na) l).1)
    = chain_end 0 0 (na ++ current cur ++ l).
Proof.
  induction l as [|[[i2 j2] k2] l IH]; intros [[i1 j1] k1] na Hdummy Hc Hg.
  - simpl. by rewrite app_nil_r in *.
  - assert (0 < k2) as Hk2.
    { rewrite !Forall_app, Forall_cons_iff in Hg. destruct Hg as (_ & _ & Hg & _).
      apply Hg. }
    simpl in Hdummy. simpl foldl.
    destruct (decide (i1 + k1 = i2 ∧ j1 + k1 = j2)) as [[<- <-]|Hadj].
    + rewrite bool_decide_eq_true_2 by done.
      destruct (IH (i1, j1, k1 + k2) na) as (IH1 & IH2 & IH3).
      * simpl. lia.
      * rewrite current_pos by lia. destruct (decide (k1 = 0)) as [->|Hk1].
        -- destruct (Hdummy eq_refl) as [[= -> ->] ->]. by rewrite current_zero in Hc.
        -- rewrite current_pos in Hc by done. rewrite !blocks_chain_app in *. simpl in *.
           replace (i1 + (k1 + k2)) with (i1 + k1 + k2) by lia.
           replace (j1 + (k1 + k2)) with (j1 + k1 + k2) by lia. tauto.
      * rewrite current_pos by lia. destruct (decide (k1 = 0)) as [->|Hk1].
        -- destruct (Hdummy eq_refl) as [[= -> ->] ->]. by rewrite current_zero in Hg.
        -- rewrite current_pos in Hg by done.
           rewrite !Forall_app, !Forall_cons_iff in *.
           destruct Hg as (Hg1 & [Hg2 _] & Hg3 & Hg4).
           split_and!; try done. by apply block_good_merge.
      * split_and!; [done..|]. rewrite IH3. rewrite current_pos by lia.
        destruct (decide (k1 = 0)) as [->|Hk1].
        -- by destruct (Hdummy eq_refl) as [[= -> ->] ->].
        -- rewrite (current_pos _ _ k1) by done. rewrite !chain_end_app. simpl.
           f_equal; lia.
    + rewrite bool_decide_eq_false_2 by done.
      destruct (decide (k1 = 0)) as [->|Hk1].
      * destruct (Hdummy eq_refl) as [[= -> ->] ->].
        rewrite bool_decide_eq_false_2 by lia.
        rewrite current_zero in Hc, Hg.
        destruct (IH (i2, j2, k2) []) as (IH1 & IH2 & IH3).
        -- simpl. lia.
        -- by rewrite current_pos by lia.
        -- by rewrite current_pos by lia.
        -- split_and!; [done..|]. rewrite IH3. by rewrite current_pos by lia.
      * rewrite bool_decide_eq_true_2 by done. rewrite current_pos in Hc, Hg by done.
        assert ((na ++ [(i1, j1, k1)]) ++ current (i2, j2, k2) ++ l
                = na ++ [(i1, j1, k1)] ++ (i2, j2, k2) :: l) as Heq.
        { rewrite current_pos by lia. rewrite <- (assoc_L (++)). reflexivity. }
        destruct (IH (i2, j2, k2) (na ++ [(i1, j1, k1)])) as (IH1 & IH2 & IH3).
        -- simpl. lia.
        -- by rewrite Heq.
        -- by rewrite Heq.
        -- split_and!; [done..|]. by rewrite IH3, Heq, (current_pos _ _ k1).
Qed.

Lemma collapse_ok l :
  blocks_chain 0 0 l → Forall (block_good a b) l →
  blocks_chain 0 0 (collapse l) ∧ Forall (block_good a b) (collapse l)
  ∧ chain_end 0 0 (collapse l) = chain_end 0 0 l.
Proof.
  intros Hc Hg. pose proof (collapse_fold_ok l (0, 0, 0) []) as Hfold.
  unfold collapse. rewrite current_zero in Hfold. simpl in Hfold.
  destruct (foldl collapse_step (0, 0, 0, []) l) as [[[i1 j1] k1] na].
  unfold current in Hfold. simpl in Hfold.
  specialize (Hfold ltac:(done) Hc Hg).
  case_bool_decide; [done|]. by rewrite app_nil_r in Hfold.
Qed.

End Collapse.

(** * The edit operations partition both sequences *)

Lemma tiles_app i j l1 l2 i' j' :
  tiles i j (l1 ++ l2) i' j' ↔ ∃ i1 j1, tiles i j l1 i1 j1 ∧ tiles i1 j1 l2 i' j'.
Proof.
  revert i j. induction l1 as [|o l1 IH]; intros i j; simpl.
  - split; [intros; by exists i, j|]. by intros (i1 & j1 & [-> ->] & ?).
  - rewrite IH. split.
    + intros (? & ? & ? & ? & i1 & j1 & ? & ?). exists i1, j1. by split_and!.
    + intros (i1 & j1 & (? & ? & ? & ? & ?) & ?). split_and!; try done. by exists i1, j1.
Qed.

Lemma tiles_le i j ops i' j' : tiles i j ops i' j' → i ≤ i' ∧ j ≤ j'.
Proof.
  revert i j. induction ops as [|o ops IH]; intros i j; simpl; [lia|].
  intros (? & ? & ? & ? & Ht). apply IH in Ht. lia.
Qed.

Lemma tiles_bounds i j ops i' j' n o :
  tiles i j ops i' j' → ops !! n = Some o →
  i ≤ op_i1 o ∧ op_i1 o ≤ op_i2 o ∧ op_i2 o ≤ i'
  ∧ j ≤ op_j1 o ∧ op_j1 o ≤ op_j2 o ∧ op_j2 o ≤ j'.
Proof.
  revert i j n. induction ops as [|o' ops IH]; intros i j n; [done|]. simpl.
  intros (? & ? & ? & ? & Ht). destruct n as [|n]; simpl.
  - intros [= ->]. apply tiles_le in Ht. lia.
  - intros Hn. specialize (IH _ _ _ Ht Hn). lia.
Qed.

Lemma tiles_ordered i j ops i' j' n m o o' :
  tiles i j ops i' j' → n < m → ops !! n = Some o → ops !! m = Some o' →
  op_i2 o ≤ op_i1 o' ∧ op_j2 o ≤ op_j1 o'.
Proof.
  revert i j n m. induction ops as [|o1 ops IH]; intros i j n m; [done|]. simpl.
  intros (? & ? & ? & ? & Ht) Hnm. destruct m as [|m]; [lia|].
  destruct n as [|n]; simpl.
  - intros [= ->] Hm. pose proof (tiles_bounds _ _ _ _ _ _ _ Ht Hm). lia.
  - intros Hn Hm. eapply (IH _ _ n m); [done|lia|done..].
Qed.

Lemma tiles_cover_a i j ops i' j' x :
  tiles i j ops i' j' → i ≤ x < i' →
  ∃ n o, ops !! n = Some o ∧ op_i1 o ≤ x < op_i2 o.
Proof.
  revert i j. induction ops as [|o ops IH]; intros i j; simpl; [lia|].
  intros (? & ? & ? & ? & Ht) Hx. destruct (decide (x < op_i2 o)) as [Hlt|Hge].
  - exists 0, o. split; [done|lia].
  - destruct (IH _ _ Ht) as (n & o' & Hn & Ho'); [lia|]. by exists (S n), o'.
Qed.

Lemma tiles_cover_b i j ops i' j' y :
  tiles i j ops i' j' → j ≤ y < j' →
  ∃ n o, ops !! n = Some o ∧ op_j1 o ≤ y < op_j2 o.
Proof.
  revert i j. induction ops as [|o ops IH]; intros i j; simpl; [lia|].
  intros (? & ? & ? & ? & Ht) Hy. destruct (decide (y < op_j2 o)) as [Hlt|Hge].
  - exists 0, o. split; [done|lia].
  - destruct (IH _ _ Ht) as (n & o' & Hn & Ho'); [lia|]. by exists (S n), o'.
Qed.

Lemma tiles_total_partition {T} (a b : list T) ops :
  tiles 0 0 ops (length a) (length b) → Forall (op_ok a b) ops →
  total_partition a b ops.
Proof.
  intros Ht Hok. unfold total_partition. split_and!; [done| | | |done].
  - intros n m o o' Hnm Hn Hm.
    destruct (tiles_ordered _ _ _ _ _ _ _ _ _ Ht Hnm Hn Hm) as [H1 H2].
    split_and!; [done..|].
    rewrite Forall_forall in Hok. specialize (Hok o).
    assert (op_ok a b o) as Ho.
    { apply Hok. apply list_elem_of_In. by eapply list_elem_of_lookup_2. }
    unfold op_ok in Ho. destruct (op_tag o); lia.
  - intros x Hx. destruct (tiles_cover_a _ _ _ _ _ x Ht) as (n & o & Hn & Ho); [lia|].
    exists n. split; [by exists o|].
    intros m (o' & Hm & Ho'). destruct (Nat.lt_trichotomy n m) as [Hlt|[->|Hlt]]; [|done|].
    + pose proof (tiles_ordered _ _ _ _ _ _ _ _ _ Ht Hlt Hn Hm). lia.
    + pose proof (tiles_ordered _ _ _ _ _ _ _ _ _ Ht Hlt Hm Hn). lia.
  - intros y Hy. destruct (tiles_cover_b _ _ _ _ _ y Ht) as (n & o & Hn & Ho); [lia|].
    exists n. split; [by exists o|].
    intros m (o' & Hm & Ho'). destruct (Nat.lt_trichotomy n m) as [Hlt|[->|Hlt]]; [|done|].
    + pose proof (tiles_ordered _ _ _ _ _ _ _ _ _ Ht Hlt Hn Hm). lia.
    + pose proof (tiles_ordered _ _ _ _ _ _ _ _ _ Ht Hlt Hm Hn). lia.
Qed.

Section Opcodes.
Context {T : Type} `{Countable T}.
Variables (a b : list T).

Lemma opcode_fold_ok l : ∀ i j answer,
  blocks_chain i j l → Forall (block_matches a b) l →
  ∃ new,
    foldl opcode_step (i, j, answer) l
      = ((chain_end i j l).1, (chain_end i j l).2, answer ++ new)
    ∧ tiles i j new (chain_end i j l).1 (chain_end i j l).2
    ∧ Forall (op_ok a b) new.
Proof.
  induction l as [|[[ai bj] size] l IH]; intros i j answer Hc Hm.
  - exists []. simpl. by rewrite app_nil_r.
  - simpl in Hc. destruct Hc as (Hi & Hj & Hc).
    apply Forall_cons_iff in Hm as [Hm Hms].
    set (gap := if bool_decide (i < ai ∧ j < bj) then [(tag_replace, i, ai, j, bj)]
                else if bool_decide (i < ai) then [(tag_delete, i, ai, j, bj)]
                else if bool_decide (j < bj) then [(tag_insert, i, ai, j, bj)]
                else []).
    set (eq := if bool_decide (size ≠ 0)
               then [(tag_equal, ai, ai + size, bj, bj + size)] else []).
    assert (opcode_step (i, j, answer) (ai, bj, size)
            = (ai + size, bj + size, answer ++ gap ++ eq)) as Hstep.
    { unfold opcode_step, gap, eq. repeat case_bool_decide; simpl;
        rewrite ?app_nil_r, <- ?(assoc_L (++)); reflexivity. }
    change (foldl opcode_step (i, j, answer) ((ai, bj, size) :: l))
      with (foldl opcode_step (opcode_step (i, j, answer) (ai, bj, size)) l).
    rewrite Hstep.
    destruct (IH (ai + size) (bj + size) (answer ++ gap ++ eq) Hc Hms)
      as (new & -> & Ht & Hok).
    exists (gap ++ eq ++ new). simpl. split_and!.
    + by rewrite <- !(assoc_L (++)).
    + apply tiles_app. exists ai, bj. split.
      * unfold gap. repeat case_bool_decide; simpl; unfold op_i1, op_i2, op_j1, op_j2;
          simpl; lia.
      * apply tiles_app. exists (ai + size), (bj + size). split; [|done].
        unfold eq. case_bool_decide; simpl; unfold op_i1, op_i2, op_j1, op_j2; simpl; lia.
    + rewrite !Forall_app. split_and!; [| |done].
      * unfold gap. repeat case_bool_decide; try apply Forall_nil_2;
          apply Forall_singleton; unfold op_ok, op_i1, op_i2, op_j1, op_j2; simpl; lia.
      * unfold eq. case_bool_decide; [|apply Forall_nil_2]. apply Forall_singleton.
        unfold op_ok, op_i1, op_i2, op_j1, op_j2. simpl. split_and!; [lia..|].
        intros t Ht'. apply elt_eqb_true. apply (Hm t). simpl. lia.
Qed.

Lemma chain_end_bound l : ∀ i j,
  i ≤ length a → j ≤ length b → Forall (block_good a b) l →
  (chain_end i j l).1 ≤ length a ∧ (chain_end i j l).2 ≤ length b.
Proof.
  induction l as [|m l IH]; intros i j Hi Hj Hg; simpl; [done|].
  apply Forall_cons_iff in Hg as [(_ & ? & ? & _) Hg]. by apply IH.
Qed.

(** The opcodes built from a chain of matching blocks that ends with
    the sentinel. *)
Lemma opcodes_of_blocks_partition l :
  blocks_chain 0 0 l → Forall (block_good a b) l →
  total_partition a b (opcodes_of_blocks (l ++ [(length a, length b, 0)])).
Proof.
  intros Hc Hg.
  destruct (chain_end_bound l 0 0) as [He1 He2]; [lia|lia|done|].
  destruct (opcode_fold_ok (l ++ [(length a, length b, 0)]) 0 0 [])
    as (new & Hfold & Ht & Hok).
  - apply blocks_chain_app. split; [done|]. simpl. by split_and!.
  - apply Forall_app. split.
    + eapply Forall_impl; [|exact Hg]. by intros m (_ & _ & _ & ?).
    + apply Forall_singleton. intros t Ht. simpl in Ht. lia.
  - unfold opcodes_of_blocks. rewrite Hfold. simpl.
    rewrite chain_end_app in Ht. simpl in Ht. rewrite !Nat.add_0_r in Ht.
    by apply tiles_total_partition.
Qed.

Lemma find_region_inside (r : region) :
  region_ok a b r →
  block_inside r ((λ '(alo, ahi, blo, bhi),
                     find_longest_match a b (chain_b b) alo ahi blo bhi) r)
  ∧ block_matches a b ((λ '(alo, ahi, blo, bhi),
                          find_longest_match a b (chain_b b) alo ahi blo bhi) r).
Proof.
  destruct r as [[[alo ahi] blo] bhi]. intros (? & ? & ? & ?).
  by apply find_longest_match_inside.
Qed.

(** The work loop of [get_matching_blocks] ends within its fuel. *)
Lemma raw_matching_blocks_total :
  ∃ res, raw_matching_blocks a b = Some res
    ∧ Forall (block_good a b) res ∧ pairwise apart (block_region <$> res).
Proof. apply matching_loop_whole, find_region_inside. Qed.

Lemma sorted_good_chain (res : list block) :
  Forall (block_good a b) res → pairwise apart (block_region <$> res) →
  blocks_chain 0 0 (merge_sort block_le res)
  ∧ Forall (block_good a b) (merge_sort block_le res).
Proof.
  intros Hg Hp.
  assert (Forall (block_good a b) (merge_sort block_le res)) as Hg'.
  { by rewrite merge_sort_Permutation. }
  split; [|done]. apply sorted_blocks_chain.
  - apply Sorted_merge_sort, _.
  - eapply pairwise_Permutation; [apply _| |exact Hp].
    apply fmap_Permutation. symmetry. apply merge_sort_Permutation.
  - eapply Forall_impl; [|exact Hg']. by intros m (? & _).
Qed.

Lemma get_opcodes_partition : total_partition a b (get_opcodes a b).
Proof.
  destruct raw_matching_blocks_total as (res & Hres & Hg & Hp).
  unfold get_opcodes, get_matching_blocks. rewrite Hres. simpl.
  destruct (sorted_good_chain res Hg Hp) as [Hc Hg'].
  destruct (collapse_ok a b _ Hc Hg') as (Hc2 & Hg2 & _).
  by apply opcodes_of_blocks_partition.
Qed.

End Opcodes.

(** * Aligning a sequence with itself *)

Section Identity.
Context {T : Type} `{Countable T}.
Variable a : list T.

Let b2j : gmap T (list nat) := chain_b a.

Lemma elt_eqb_diag i : i < length a → elt_eqb a a i i = true.
Proof.
  intros Hi. apply elt_eqb_true. destruct (lookup_lt_is_Some_2 a i Hi) as [x Hx]. eauto.
Qed.

Lemma cell_diag_l i j : cell a a b2j i j = true → cell a a b2j i i = true.
Proof.
  unfold cell. destruct (a !! i) as [x|], (a !! j) as [y|]; try done.
  rewrite !andb_true_iff, !bool_decide_eq_true. by intros [-> ?].
Qed.

Lemma cell_diag_r i j : cell a a b2j i j = true → cell a a b2j j j = true.
Proof.
  unfold cell. destruct (a !! i) as [x|], (a !! j) as [y|]; try done.
  rewrite !andb_true_iff, !bool_decide_eq_true. by intros [-> ?].
Qed.

(** A run off the diagonal is no longer than the runs on the diagonal
    that end in the same row and in the same column. *)
Lemma run_diag i j :
  run a a b2j 0 0 i j ≤ run a a b2j 0 0 (i `min` j) (i `min` j).
Proof.
  pose proof (run_bound a a b2j 0 0 i j) as [Hb1 Hb2].
  apply run_ge; [lia..|]. intros t Ht.
  pose proof (run_cells a a b2j 0 0 i j t Ht) as Hc.
  destruct (decide (i ≤ j)).
  - rewrite Nat.min_l by done. by eapply cell_diag_l.
  - rewrite Nat.min_r by lia. by eapply cell_diag_r.
Qed.

Lemma scan_same_diag :
  ∃ p k, scan a b2j 0 (length a) 0 (length a) = (p, p, k) ∧ p + k ≤ length a.
Proof.
  destruct (scan_ok a a b2j (chain_b_sorted a) (λ x js j, chain_b_elem_of a x js j)
              0 0 (length a) (length a) ltac:(lia)) as [Hmax Hzero Hfirst].
  destruct (scan a b2j 0 (length a) 0 (length a)) as [[p q] k]. simpl in *.
  destruct (decide (k = 0)) as [->|Hk].
  - specialize (Hzero eq_refl) as [= -> ->]. exists 0, 0. split; [done|lia].
  - destruct (Hfirst ltac:(lia)) as (i0 & j0 & Hb0 & Hj0 & Hr & [= -> ->] & Hf).
    assert (i0 < length a) as Hi0 by (unfold before in Hb0; lia).
    pose proof (run_diag i0 j0) as Hd. rewrite Hr in Hd.
    set (m := i0 `min` j0) in *.
    assert (before (length a) 0 m m) as Hbm by (unfold before; lia).
    pose proof (Hmax m m Hbm ltac:(lia)) as Hle.
    pose proof (Hf m m Hbm ltac:(lia) ltac:(lia)) as Hnb.
    assert (i0 = j0) as -> by (unfold before in Hnb; lia).
    pose proof (run_bound a a b2j 0 0 j0 j0) as [Hb1 _]. rewrite Hr in Hb1.
    exists (j0 + 1 - k), k. split; [done|lia].
Qed.

(** On the diagonal the first two extension loops take in the whole
    sequence. *)
Lemma extend_same_diag p k :
  p + k ≤ length a →
  extend a a false 0 (length a) 0 (length a) (p, p, k) = (0, 0, length a).
Proof.
  intros Hpk. unfold extend. simpl.
  destruct (extend_left_spec a a false 0 0 p p k) as (d & Hd1 & _ & -> & _ & Hstop).
  assert (p - d = 0) as ->.
  { destruct (decide (p - d = 0)) as [|Hne]; [done|].
    destruct Hstop as [Hs|Hs]; [lia|lia| |].
    - rewrite elt_eqb_diag in Hs; [done|lia].
    - by rewrite isbjunk_false in Hs. }
  destruct (extend_right_spec a a false (length a) 0 0 (length a - (0 + (k + d))) (k + d))
    as (e & He1 & _ & -> & _ & Hstop').
  assert (e = length a - (0 + (k + d))) as ->.
  { destruct (decide (e = length a - (0 + (k + d)))) as [|Hne]; [done|].
    destruct Hstop' as [Hs|Hs]; [lia|lia| |].
    - rewrite elt_eqb_diag in Hs; [done|lia].
    - by rewrite isbjunk_false in Hs. }
  f_equal. lia.
Qed.

Lemma find_longest_match_same :
  find_longest_match a a (chain_b a) 0 (length a) 0 (length a) = (0, 0, length a).
Proof.
  unfold find_longest_match. rewrite extend_junk.
  destruct scan_same_diag as (p & k & Hs & Hpk). unfold b2j in Hs. rewrite Hs.
  by apply extend_same_diag.
Qed.

Lemma get_matching_blocks_same :
  get_matching_blocks a a
  = if bool_decide (length a ≠ 0) then [(0, 0, length a); (length a, length a, 0)]
    else [(length a, length a, 0)].
Proof.
  unfold get_matching_blocks, raw_matching_blocks, matching_fuel.
  replace (2 * length a + 1) with (S (2 * length a)) by lia.
  cbn [matching_loop]. rewrite find_longest_match_same.
  case_bool_decide as Hn.
  - rewrite (bool_decide_eq_false_2 (0 < 0 ∧ 0 < 0)) by lia.
    rewrite (bool_decide_eq_false_2 (0 + length a < length a ∧ 0 + length a < length a)) by lia.
    destruct (2 * length a) as [|fuel] eqn:E; [lia|].
    cbn [matching_loop default app].
    unfold merge_sort, collapse. simpl.
    by rewrite bool_decide_eq_true_2 by lia.
  - destruct (2 * length a) as [|fuel] eqn:E; done.
Qed.

(** Aligning a sequence with itself gives one [equal] operation, or
    none when the sequence is empty. *)
Lemma get_opcodes_same :
  get_opcodes a a
  = if bool_decide (length a ≠ 0) then [(tag_equal, 0, length a, 0, length a)] else [].
Proof.
  unfold get_opcodes. rewrite get_matching_blocks_same.
  case_bool_decide as Hn; unfold opcodes_of_blocks; simpl.
  - rewrite !bool_decide_eq_false_2 by lia. by rewrite bool_decide_eq_true_2.
  - rewrite !bool_decide_eq_false_2 by lia. done.
Qed.

End Identity.

(** * The longest common block of a region *)

Section Longest.
Context {T : Type} `{Countable T}.
Variables (a b : list T).

(** [(p', q')] comes before [(p, q)]: a smaller start in [a], or the
    same start in [a] and a smaller start in [b]. *)
Definition starts_before (m' m : block) : Prop :=
  m'.1.1 < m.1.1 ∨ (m'.1.1 = m.1.1 ∧ m'.1.2 < m.1.2).

(** [m] is the longest common block of region [r], and the first of
    the longest ones. *)
Definition is_longest (r : region) (m : block) : Prop :=
  block_inside r m ∧ block_matches a b m
  ∧ (∀ m', block_inside r m' → block_matches a b m' →
           m'.2 ≤ m.2 ∧ (m'.2 = m.2 → 0 < m.2 → ¬ starts_before m' m))
  ∧ (m.2 = 0 → m.1 = (r.1.1.1, r.1.2)).

Lemma is_longest_unique r m1 m2 : is_longest r m1 → is_longest r m2 → m1 = m2.
Proof.
  intros (Hi1 & Hm1 & Hb1 & Hz1) (Hi2 & Hm2 & Hb2 & Hz2).
  destruct (Hb1 m2 Hi2 Hm2) as [Hle1 Hf1]. destruct (Hb2 m1 Hi1 Hm1) as [Hle2 Hf2].
  assert (m1.2 = m2.2) as Hk by lia.
  destruct m1 as [[p1 q1] k1], m2 as [[p2 q2] k2]. simpl in *. subst k2.
  destruct (decide (k1 = 0)) as [->|Hk].
  - specialize (Hz1 eq_refl). specialize (Hz2 eq_refl). congruence.
  - specialize (Hf1 eq_refl ltac:(lia)). specialize (Hf2 eq_refl ltac:(lia)).
    unfold starts_before in *. simpl in *. f_equal. f_equal; lia.
Qed.

(** *** The reference search *)

Lemma common_length_le n : ∀ p q, common_length a b n p q ≤ n.
Proof.
  induction n as [|n IH]; intros p q; simpl; [done|].
  destruct (elt_eqb a b p q); [|lia]. specialize (IH (S p) (S q)). lia.
Qed.

Lemma common_length_matches n : ∀ p q t,
  t < common_length a b n p q → elt_eqb a b (p + t) (q + t) = true.
Proof.
  induction n as [|n IH]; intros p q t; simpl; [lia|].
  destruct (elt_eqb a b p q) eqn:E; [|lia]. intros Ht.
  destruct t as [|t]; [by rewrite !Nat.add_0_r|].
  replace (p + S t) with (S p + t) by lia. replace (q + S t) with (S q + t) by lia.
  apply IH. lia.
Qed.

Lemma common_length_ge n : ∀ p q k,
  k ≤ n → (∀ t, t < k → elt_eqb a b (p + t) (q + t) = true) →
  k ≤ common_length a b n p q.
Proof.
  induction n as [|n IH]; intros p q k Hk Hm; simpl; [lia|].
  destruct k as [|k]; [lia|].
  pose proof (Hm 0 ltac:(lia)) as H0. rewrite !Nat.add_0_r in H0. rewrite H0.
  apply le_n_S, IH; [lia|]. intros t Ht. specialize (Hm (S t) ltac:(lia)).
  by replace (p + S t) with (S p + t) in Hm by lia;
     replace (q + S t) with (S q + t) in Hm by lia.
Qed.

Section Search.
Variables (alo ahi blo bhi : nat).

(** The length of the longest common block of the region that starts at
    [(p, q)]. *)
Definition reach (p q : nat) : nat :=
  if bool_decide (alo ≤ p ∧ blo ≤ q)
  then common_length a b ((ahi - p) `min` (bhi - q)) p q else 0.

Definition starts_at (p q k : nat) : nat * nat := (p, q).

Local Abbreviation search_ok := (best_ok alo blo bhi reach starts_at).

Lemma longest_row_ok p n : ∀ q best,
  alo ≤ p → blo ≤ q → q + n ≤ bhi → search_ok p q best →
  search_ok p (q + n) (foldl (longest_step_b a b ahi bhi p) best (seq q n)).
Proof.
  induction n as [|n IH]; intros q best Hp Hq Hn Hok; simpl.
  - by rewrite Nat.add_0_r.
  - replace (q + S n) with (S q + n) by lia. apply IH; [lia..|].
    pose proof (best_ok_read alo blo bhi reach starts_at p q best Hok ltac:(lia)) as Hr.
    assert (reach p q = common_length a b ((ahi - p) `min` (bhi - q)) p q) as Hrq.
    { unfold reach. by rewrite bool_decide_eq_true_2 by lia. }
    rewrite Hrq in Hr. exact Hr.
Qed.

Lemma longest_rows_ok n : ∀ p best,
  alo ≤ p → search_ok p 0 best →
  search_ok (p + n) 0 (foldl (longest_step_a a b ahi blo bhi) best (seq p n)).
Proof.
  induction n as [|n IH]; intros p best Hp Hok; simpl.
  - by rewrite Nat.add_0_r.
  - replace (p + S n) with (S p + n) by lia. apply IH; [lia|].
    unfold longest_step_a.
    assert (search_ok p blo best) as Hok'.
    { eapply best_ok_mono; [done|unfold before; lia|].
      unfold before, reach. intros i' j' H1 H2 _. rewrite bool_decide_eq_false_2; lia. }
    destruct (decide (blo ≤ bhi)) as [Hle|Hgt].
    + pose proof (longest_row_ok p (bhi - blo) blo best Hp ltac:(lia) ltac:(lia) Hok') as Hrow.
      eapply best_ok_mono; [done|unfold before; lia|].
      unfold before. intros i' j' H1 H2 H3. lia.
    + replace (bhi - blo) with 0 by lia. simpl.
      eapply best_ok_mono; [done|unfold before; lia|].
      unfold before, reach. intros i' j' H1 H2 H3.
      rewrite bool_decide_eq_false_2; lia.
Qed.

Lemma longest_common_block_ok :
  alo ≤ ahi → search_ok ahi 0 (longest_common_block a b (alo, ahi, blo, bhi)).
Proof.
  intros Hle. unfold longest_common_block.
  replace ahi with (alo + (ahi - alo)) at 1 by lia.
  apply longest_rows_ok; [done|]. split; simpl; [|done|lia].
  intros i' j' Hb _. unfold before in Hb. unfold reach.
  rewrite bool_decide_eq_false_2; lia.
Qed.

Lemma reach_ge (m : block) :
  block_inside (alo, ahi, blo, bhi) m → block_matches a b m → m.2 ≤ reach m.1.1 m.1.2.
Proof.
  destruct m as [[p q] k]. unfold block_inside, block_matches, reach. simpl.
  intros (? & ? & ? & ?) Hm. rewrite bool_decide_eq_true_2 by lia.
  apply common_length_ge; [lia|done].
Qed.

Lemma longest_common_block_is_longest :
  alo ≤ ahi → blo ≤ bhi →
  is_longest (alo, ahi, blo, bhi) (longest_common_block a b (alo, ahi, blo, bhi)).
Proof.
  intros Ha Hb. destruct (longest_common_block_ok Ha) as [Hmax Hzero Hfirst].
  destruct (longest_common_block a b (alo, ahi, blo, bhi)) as [[p q] k]. simpl in *.
  assert (∀ m', block_inside (alo, ahi, blo, bhi) m' → block_matches a b m' →
                0 < m'.2 → m'.2 ≤ reach m'.1.1 m'.1.2 ∧ reach m'.1.1 m'.1.2 ≤ k) as Hbound.
  { intros m' Hi' Hm' Hk'. split; [by apply reach_ge|].
    destruct m' as [[p' q'] k']. simpl in *. apply Hmax; unfold before; lia. }
  destruct (decide (k = 0)) as [->|Hk].
  - specialize (Hzero eq_refl) as [= -> ->]. unfold is_longest. simpl.
    split; [|split; [|split]].
    + lia.
    + intros t Ht. simpl in Ht. lia.
    + intros m' Hi' Hm'. destruct (decide (m'.2 = 0)) as [->|Hk']; [lia|].
      specialize (Hbound m' Hi' Hm' ltac:(lia)). lia.
    + done.
  - destruct (Hfirst ltac:(lia)) as (p0 & q0 & Hb0 & Hq0 & Hr & [= -> ->] & Hf).
    assert (alo ≤ p0 ∧ blo ≤ q0) as [Hp0 Hq0'].
    { unfold reach in Hr. case_bool_decide; lia. }
    pose proof Hr as Hr'. unfold reach in Hr'. rewrite bool_decide_eq_true_2 in Hr' by lia.
    pose proof (common_length_le ((ahi - p0) `min` (bhi - q0)) p0 q0) as Hle.
    unfold is_longest. simpl. unfold before in Hb0.
    split; [|split; [|split]].
    + lia.
    + intros t Ht. simpl in *. eapply common_length_matches. by rewrite Hr'.
    + intros m' Hi' Hm'. destruct (decide (m'.2 = 0)) as [Hk'|Hk']; [lia|].
      destruct (Hbound m' Hi' Hm' ltac:(lia)) as [H1 H2]. split; [lia|].
      intros Heq _. destruct m' as [[p' q'] k']. simpl in *.
      unfold starts_before. simpl.
      assert (¬ before p0 q0 p' q'); [|done].
      apply Hf; unfold before; lia.
    + lia.
Qed.

End Search.
End Longest.

(** * [find_longest_match] when no element is popular *)

Section NoPopular.
Context {T : Type} `{Countable T}.
Variables (a b : list T).
Hypothesis no_popular : bpopular b = ∅.

Lemma cell_no_popular i j : cell a b (chain_b b) i j = elt_eqb a b i j.
Proof.
  unfold cell, elt_eqb. destruct (a !! i) as [x|]; [|done].
  destruct (b !! j) as [y|] eqn:Ey; [|done].
  rewrite (bool_decide_eq_true_2 (is_Some _)); [by rewrite andb_true_r|].
  apply chain_b_is_Some. split; [by eapply list_elem_of_lookup_2|].
  rewrite no_popular. apply not_elem_of_empty.
Qed.

(** The extension loops change nothing when the elements next to the
    match differ. *)
Lemma extend_none alo ahi blo bhi (m : block) :
  ¬ (alo < m.1.1 ∧ blo < m.1.2 ∧ elt_eqb a b (m.1.1 - 1) (m.1.2 - 1) = true) →
  ¬ (m.1.1 + m.2 < ahi ∧ m.1.2 + m.2 < bhi
     ∧ elt_eqb a b (m.1.1 + m.2) (m.1.2 + m.2) = true) →
  extend a b false alo ahi blo bhi m = m.
Proof.
  destruct m as [[p q] k]. simpl. intros Hl Hr. unfold extend. simpl.
  destruct (extend_left_spec a b false alo blo p q k) as (d & Hd1 & Hd2 & -> & Hm & _).
  assert (d = 0) as ->.
  { destruct d as [|d]; [done|]. exfalso. apply Hl.
    destruct (Hm d ltac:(lia)) as [Hm' _].
    replace (p - S d + d) with (p - 1) in Hm' by lia.
    replace (q - S d + d) with (q - 1) in Hm' by lia. split_and!; [lia|lia|done]. }
  rewrite !Nat.sub_0_r, !Nat.add_0_r.
  destruct (extend_right_spec a b false bhi p q (ahi - (p + k)) k)
    as (e & He1 & He2 & -> & Hm' & _).
  assert (e = 0) as ->.
  { destruct e as [|e]; [done|]. exfalso. apply Hr.
    destruct (Hm' 0 ltac:(lia)) as [Hm'' _]. rewrite !Nat.add_0_r in Hm''.
    split_and!; [lia|lia|done]. }
  by rewrite Nat.add_0_r.
Qed.

Lemma find_longest_match_is_longest alo ahi blo bhi :
  alo ≤ ahi → blo ≤ bhi →
  is_longest a b (alo, ahi, blo, bhi) (find_longest_match a b (chain_b b) alo ahi blo bhi).
Proof.
  intros Ha Hb. unfold find_longest_match. rewrite extend_junk.
  pose proof (scan_ok a b (chain_b b) (chain_b_sorted b) (λ x js j, chain_b_elem_of b x js j)
                alo blo bhi ahi Ha) as [Hmax Hzero Hfirst].
  destruct (scan_inside a b (chain_b b) alo ahi blo bhi (chain_b_sorted b)
              (λ x js j, chain_b_elem_of b x js j) Ha Hb) as [Hin Hmt].
  set (R := run a b (chain_b b) alo blo) in *.
  destruct (scan a (chain_b b) alo ahi blo bhi) as [[p q] k] eqn:Es. simpl in *.
  (* the run that ends where a common block ends is at least as long *)
  assert (∀ m', block_inside (alo, ahi, blo, bhi) m' → block_matches a b m' → 0 < m'.2 →
            m'.2 ≤ R (m'.1.1 + m'.2 - 1) (m'.1.2 + m'.2 - 1)
            ∧ R (m'.1.1 + m'.2 - 1) (m'.1.2 + m'.2 - 1) ≤ k) as Hbound.
  { intros [[p' q'] k'] (? & ? & ? & ?) Hm' Hk'. simpl in *. split.
    - apply run_ge; [lia..|]. intros t Ht. rewrite cell_no_popular.
      replace (p' + k' - 1 - t) with (p' + (k' - 1 - t)) by lia.
      replace (q' + k' - 1 - t) with (q' + (k' - 1 - t)) by lia.
      apply (Hm' (k' - 1 - t)). simpl. lia.
    - apply Hmax; unfold before; lia. }
  destruct (decide (k = 0)) as [->|Hk].
  - specialize (Hzero eq_refl) as [= -> ->].
    rewrite extend_none; simpl.
    + split; [done|split; [done|split; [|done]]].
      intros m' Hi' Hm'. destruct (decide (m'.2 = 0)) as [->|Hk']; [lia|].
      specialize (Hbound m' Hi' Hm' ltac:(lia)). lia.
    + lia.
    + rewrite !Nat.add_0_r. intros (H1 & H2 & H3).
      rewrite <- cell_no_popular in H3.
      assert (0 < R alo blo) as Hpos by (apply run_pos; by split_and!).
      assert (R alo blo ≤ 0); [|lia]. apply Hmax; unfold before; lia.
  - destruct (Hfirst ltac:(lia)) as (i0 & j0 & Hb0 & Hj0 & Hr & [= -> ->] & Hf).
    pose proof (run_bound a b (chain_b b) alo blo i0 j0) as [Hb1 Hb2].
    fold R in Hb1, Hb2. rewrite Hr in Hb1, Hb2. unfold before in Hb0.
    rewrite extend_none; simpl.
    + split; [done|split; [done|split; [|simpl; intros; lia]]].
      intros [[p' q'] k'] Hi' Hm'. simpl.
      destruct (decide (k' = 0)) as [->|Hk']; [lia|].
      destruct (Hbound _ Hi' Hm' ltac:(simpl; lia)) as [H1 H2]. simpl in *.
      split; [lia|]. intros -> _. unfold starts_before. simpl.
      assert (¬ before i0 j0 (p' + k - 1) (q' + k - 1)) as Hnb.
      { apply Hf; [unfold before|..]; lia. }
      unfold before in Hnb. lia.
    + intros (H1 & H2 & H3). rewrite <- cell_no_popular in H3.
      pose proof (run_stops a b (chain_b b) alo blo i0 j0) as Hst.
      fold R in Hst. rewrite Hr in Hst.
      replace (i0 + 1 - k - 1) with (i0 - k) in H3 by lia.
      replace (j0 + 1 - k - 1) with (j0 - k) in H3 by lia.
      rewrite Hst in H3; [done|lia|lia].
    + intros (H1 & H2 & H3). rewrite <- cell_no_popular in H3.
      replace (i0 + 1 - k + k) with (S i0) in * by lia.
      replace (j0 + 1 - k + k) with (S j0) in * by lia.
      pose proof (run_succ a b (chain_b b) alo blo i0 j0 ltac:(lia) ltac:(lia) H3) as Hs.
      fold R in Hs. assert (R (S i0) (S j0) ≤ k); [|lia].
      apply Hmax; unfold before; lia.
Qed.

(** Without popular elements [find_longest_match] finds the block of
    the reference search. *)
Lemma find_longest_match_reference (r : region) :
  region_ok a b r →
  (λ '(alo, ahi, blo, bhi), find_longest_match a b (chain_b b) alo ahi blo bhi) r
  = longest_common_block a b r.
Proof.
  destruct r as [[[alo ahi] blo] bhi]. intros (Ha & _ & Hb & _).
  eapply is_longest_unique.
  - by apply find_longest_match_is_longest.
  - by apply longest_common_block_is_longest.
Qed.

End NoPopular.

(** * The work list computes the recursion *)

Section Recursion.
Context {T : Type} `{Countable T}.
Variables (a b : list T) (find : region → block).
Hypothesis find_inside : ∀ r, region_ok a b r →
  block_inside r (find r) ∧ block_matches a b (find r).

Definition region_width (r : region) : nat := r.1.1.2 - r.1.1.1.

Lemma blocks_rec_depth d : ∀ d' r,
  region_ok a b r → region_width r < d → region_width r < d' →
  blocks_rec find d r = blocks_rec find d' r.
Proof.
  induction d as [|d IH]; intros d' [[[alo ahi] blo] bhi] Hok Hd Hd'; [lia|].
  destruct d' as [|d']; [lia|]. simpl.
  destruct (find_inside _ Hok) as [Hin _].
  destruct (find (alo, ahi, blo, bhi)) as [[i j] k]. unfold region_width in *.
  simpl in *. case_bool_decide as Hk; [done|].
  rewrite (IH d' (alo, i, blo, j)), (IH d' (i + k, ahi, j + k, bhi)); simpl; (done || lia).
Qed.

(** One step of the recursion, at any depth that is large enough. *)
Lemma blocks_rec_unfold d alo ahi blo bhi :
  region_ok a b (alo, ahi, blo, bhi) → ahi - alo < d →
  blocks_rec find d (alo, ahi, blo, bhi)
  = let '(i, j, k) := find (alo, ahi, blo, bhi) in
    if bool_decide (k = 0) then []
    else blocks_rec find d (alo, i, blo, j) ++ [(i, j, k)]
         ++ blocks_rec find d (i + k, ahi, j + k, bhi).
Proof.
  intros Hok Hd. destruct d as [|d]; [lia|]. simpl.
  destruct (find_inside _ Hok) as [Hin _].
  destruct (find (alo, ahi, blo, bhi)) as [[i j] k]. simpl in *.
  case_bool_decide as Hk; [done|].
  rewrite (blocks_rec_depth d (S d) (alo, i, blo, j)),
    (blocks_rec_depth d (S d) (i + k, ahi, j + k, bhi));
    unfold region_width; simpl; (done || lia).
Qed.

(** A region that is empty in [a] or in [b] has no block. *)
Lemma blocks_rec_empty d alo ahi blo bhi :
  region_ok a b (alo, ahi, blo, bhi) → ¬ (alo < ahi ∧ blo < bhi) →
  blocks_rec find d (alo, ahi, blo, bhi) = [].
Proof.
  intros Hok Hempty. destruct d as [|d]; [done|]. simpl.
  destruct (find_inside _ Hok) as [Hin _].
  destruct (find (alo, ahi, blo, bhi)) as [[i j] k]. simpl in *.
  rewrite bool_decide_eq_true_2; [done|lia].
Qed.

Lemma blocks_rec_inside d : ∀ r,
  region_ok a b r →
  Forall (λ m, block_inside r m ∧ 0 < m.2) (blocks_rec find d r).
Proof.
  induction d as [|d IH]; intros [[[alo ahi] blo] bhi] Hok; [constructor|]. simpl.
  destruct (find_inside _ Hok) as [Hin _].
  destruct (find (alo, ahi, blo, bhi)) as [[i j] k]. simpl in *.
  case_bool_decide as Hk; [constructor|].
  rewrite Forall_app, Forall_cons_iff. split; [|split].
  - eapply Forall_impl; [|apply (IH (alo, i, blo, j)); simpl; lia].
    intros [[p q] n]. simpl. lia.
  - simpl. lia.
  - eapply Forall_impl; [|apply (IH (i + k, ahi, j + k, bhi)); simpl; lia].
    intros [[p q] n]. simpl. lia.
Qed.

Lemma blocks_rec_sorted d : ∀ r,
  region_ok a b r → StronglySorted block_le (blocks_rec find d r).
Proof.
  induction d as [|d IH]; intros [[[alo ahi] blo] bhi] Hok; [constructor|]. simpl.
  destruct (find_inside _ Hok) as [Hin _].
  pose proof (blocks_rec_inside d) as Hrec.
  destruct (find (alo, ahi, blo, bhi)) as [[i j] k]. simpl in *.
  case_bool_decide as Hk; [constructor|].
  assert (region_ok a b (alo, i, blo, j)) as HokL by (simpl; lia).
  assert (region_ok a b (i + k, ahi, j + k, bhi)) as HokR by (simpl; lia).
  pose proof (Hrec _ HokL) as HL. pose proof (Hrec _ HokR) as HR.
  rewrite Forall_forall in HL, HR.
  apply StronglySorted_app_2; [|by apply IH|].
  - intros x1 x2 H1 H2. apply list_elem_of_In, HL in H1. simpl in H1.
    apply elem_of_cons in H2 as [->|H2].
    + unfold block_le. simpl. lia.
    + apply list_elem_of_In, HR in H2. simpl in H2. unfold block_le. lia.
  - apply StronglySorted_cons. split; [|by apply IH].
    apply Forall_forall. intros x2 H2. apply HR in H2. simpl in H2.
    unfold block_le. simpl. lia.
Qed.

(** The blocks the loop collects are those of the recursion on every
    region of the queue, in some order. *)
Lemma matching_loop_rec d fuel : ∀ queue acc res,
  Forall (λ r, region_ok a b r ∧ region_width r < d) queue →
  matching_loop find fuel queue acc = Some res →
  res ≡ₚ acc ++ concat (blocks_rec find d <$> queue).
Proof.
  induction fuel as [|fuel IH]; intros queue acc res Hq Hrun.
  - destruct queue as [|[[[alo ahi] blo] bhi] queue]; [|done].
    simpl in Hrun. injection Hrun as <-. by rewrite app_nil_r.
  - destruct queue as [|[[[alo ahi] blo] bhi] queue].
    { simpl in Hrun. injection Hrun as <-. by rewrite app_nil_r. }
    apply Forall_cons_iff in Hq as [[Hok Hw] Hq]. unfold region_width in Hw.
    simpl in Hrun, Hw. rewrite fmap_cons. simpl concat.
    rewrite (blocks_rec_unfold d _ _ _ _ Hok Hw).
    destruct (find_inside _ Hok) as [Hin _].
    destruct (find (alo, ahi, blo, bhi)) as [[i j] k]. simpl in Hin.
    destruct (decide (k = 0)) as [Hk|Hk].
    + rewrite (bool_decide_eq_true_2 (k = 0)) by done.
      rewrite (bool_decide_eq_false_2 (k ≠ 0)) in Hrun by lia. by apply IH.
    + rewrite (bool_decide_eq_false_2 (k = 0)) by done.
      rewrite (bool_decide_eq_true_2 (k ≠ 0)) in Hrun by lia.
      assert (region_ok a b (alo, i, blo, j)) as HokL by (simpl in *; lia).
      assert (region_ok a b (i + k, ahi, j + k, bhi)) as HokR by (simpl in *; lia).
      apply IH in Hrun.
      * rewrite Hrun. clear Hrun IH.
        repeat case_bool_decide; rewrite ?fmap_cons; simpl concat;
          rewrite ?(blocks_rec_empty d alo i blo j) by done;
          rewrite ?(blocks_rec_empty d (i + k) ahi (j + k) bhi) by done;
          rewrite <- ?(assoc_L (++)); simpl;
          apply Permutation_app_head; solve_Permutation.
      * unfold region_width.
        repeat case_bool_decide; repeat (apply Forall_cons_iff; split); simpl; try done;
          split; simpl in *; lia.
Qed.

(** Sorting the blocks of the loop gives the list of the recursion. *)
Lemma sorted_raw_blocks res :
  matching_loop find (matching_fuel a) [(0, length a, 0, length b)] [] = Some res →
  merge_sort block_le res = blocks_rec find (S (length a)) (0, length a, 0, length b).
Proof.
  intros Hrun.
  assert (region_ok a b (0, length a, 0, length b)) as Hok by (simpl; lia).
  apply (StronglySorted_unique block_le).
  - apply StronglySorted_merge_sort; apply _.
  - by apply blocks_rec_sorted.
  - rewrite merge_sort_Permutation.
    assert (Forall (λ r, region_ok a b r ∧ region_width r < S (length a))
              [(0, length a, 0, length b)]) as Hq.
    { apply Forall_singleton. split; [done|]. unfold region_width. simpl. lia. }
    rewrite (matching_loop_rec (S (length a)) _ _ _ _ Hq Hrun). simpl.
    by rewrite app_nil_r.
Qed.

Lemma blocks_rec_ext d (find' : region → block) : ∀ r,
  (∀ r, region_ok a b r → find r = find' r) →
  region_ok a b r → blocks_rec find d r = blocks_rec find' d r.
Proof.
  intros r Hext. revert r. induction d as [|d IH]; intros [[[alo ahi] blo] bhi] Hok; [done|].
  simpl. rewrite <- (Hext _ Hok). destruct (find_inside _ Hok) as [Hin _].
  destruct (find (alo, ahi, blo, bhi)) as [[i j] k]. simpl in *.
  case_bool_decide; [done|].
  rewrite (IH (alo, i, blo, j)), (IH (i + k, ahi, j + k, bhi)); simpl; (done || lia).
Qed.

End Recursion.

Section Refinement.
Context {T : Type} `{Countable T}.

(** The blocks of [get_matching_blocks] before the sentinel are those of
    the reference recursion when no element of [b] is popular. *)
Lemma get_opcodes_reference (a b : list T) :
  bpopular b = ∅ → get_opcodes a b = ratcliff_obershelp a b.
Proof.
  intros Hnp. unfold get_opcodes, get_matching_blocks, ratcliff_obershelp,
    ratcliff_obershelp_blocks.
  destruct (raw_matching_blocks_total a b) as (res & Hres & _).
  rewrite Hres. simpl default. unfold raw_matching_blocks in Hres.
  rewrite (sorted_raw_blocks a b _ (find_region_inside a b) res Hres).
  do 3 f_equal. apply (blocks_rec_ext a b); [apply find_region_inside| |simpl; lia].
  intros r Hr. by apply find_longest_match_reference.
Qed.

End Refinement.

(** * Strings *)

(** Closed decidable facts are settled by evaluation. *)
Ltac by_compute :=
  lazymatch goal with
  | |- ?P → False => apply (bool_decide_eq_false_1 P); vm_compute; reflexivity
  | |- ¬ ?P => apply (bool_decide_eq_false_1 P); vm_compute; reflexivity
  | |- ?P => apply (bool_decide_eq_true_1 P); vm_compute; reflexivity
  end.

Lemma elem_of_replace_char (c old : char) (new s : str) :
  c ∈ replace_char old new s → (c ∈ s ∧ c ≠ old) ∨ c ∈ new.
Proof.
  unfold replace_char. rewrite list_elem_of_bind. intros (y & Hc & Hy).
  case_bool_decide as Hyo; [by right|].
  apply list_elem_of_singleton in Hc as ->. by left.
Qed.

(** No [<] is left in an escaped string. *)
Lemma html_escape_no_lt (s : str) : LT ∉ html_escape s.
Proof.
  unfold html_escape. intros Hin.
  apply elem_of_replace_char in Hin as [[Hin _]|Hin]; [|revert Hin; by_compute].
  apply elem_of_replace_char in Hin as [[Hin _]|Hin]; [|revert Hin; by_compute].
  apply elem_of_replace_char in Hin as [[Hin _]|Hin]; [|revert Hin; by_compute].
  apply elem_of_replace_char in Hin as [[Hin Hne]|Hin]; [done|].
  revert Hin. by_compute.
Qed.

Lemma not_contains_char (c : char) (needle hay : str) :
  c ∈ needle → c ∉ hay → ¬ contains needle hay.
Proof.
  intros Hn Hh (pre & post & ->). apply Hh.
  rewrite !elem_of_app. auto.
Qed.

Lemma escape_or_nbsp_no_lt (line : str) : LT ∉ escape_or_nbsp line.
Proof.
  unfold escape_or_nbsp. case_bool_decide; [|apply html_escape_no_lt].
  by_compute.
Qed.

Lemma escape_or_nbsp_no_marker (line : str) : ¬ contains SPAN_OPEN (escape_or_nbsp line).
Proof.
  apply (not_contains_char LT); [|apply escape_or_nbsp_no_lt].
  by_compute.
Qed.

Lemma join_nil (l : list str) : join [] l = concat l.
Proof.
  induction l as [|x l IH]; [done|]. simpl. rewrite <- IH.
  destruct l; [by rewrite app_nil_r|done].
Qed.

(** ** [splitlines] and a final line feed *)

(** The text ends in the middle of a line, or right after a carriage
    return. *)
Definition open_end (after_cr : bool) (cur s : str) : Prop :=
  match list.last s with
  | Some c => is_linebreak c = false ∨ c = CR
  | None => cur ≠ [] ∨ after_cr = true
  end.

Lemma splitlines_from_snoc_LF (s : str) : ∀ after_cr cur,
  open_end after_cr cur s →
  splitlines_from after_cr cur (s ++ [LF]) = splitlines_from after_cr cur s.
Proof.
  induction s as [|c s IH]; intros after_cr cur Hopen.
  - unfold open_end in Hopen. simpl in *. destruct after_cr; simpl; [done|].
    destruct Hopen as [Hc|?]; [|done]. by rewrite bool_decide_eq_false_2.
  - assert (∀ ac cur', (s = [] → cur' ≠ [] ∨ ac = true) → open_end ac cur' s) as Hnext.
    { intros ac cur' Hs. unfold open_end in *. rewrite last_cons in Hopen.
      destruct (list.last s) eqn:El; [done|]. apply Hs. by apply last_None. }
    assert (s = [] → is_linebreak c = false ∨ c = CR) as Hlast.
    { intros ->. by unfold open_end in Hopen. }
    simpl. destruct (after_cr && bool_decide (c = LF)) eqn:E1.
    + apply IH, Hnext. intros Hs.
      apply andb_true_iff in E1 as [_ ->%bool_decide_eq_true].
      by destruct (Hlast Hs).
    + destruct (is_linebreak c) eqn:E2.
      * f_equal. apply IH, Hnext. intros Hs. right.
        destruct (Hlast Hs) as [?| ->]; [congruence|done].
      * apply IH, Hnext. intros _. left. by destruct cur.
Qed.

Lemma splitlines_snoc_LF (t : str) :
  t ≠ [] → (∀ c, list.last t = Some c → is_linebreak c = false ∨ c = CR) →
  splitlines (t ++ [LF]) = splitlines t.
Proof.
  intros Hne Hlast. apply splitlines_from_snoc_LF. unfold open_end.
  destruct (list.last t) as [c|] eqn:El; [by apply Hlast|].
  by apply last_None in El.
Qed.

(** * The properties of the alignment *)

(** C1.  The edit operations of one alignment run, over the lines of the
    two texts ([compute_diff] before it drops the equal operations) or
    over the characters of two lines ([compute_inline_diff]), are a
    total partition of both sequences: the ranges follow one another
    without gap or overlap from the start of each sequence to its end,
    every index lies in exactly one range, an equal operation covers two
    ranges of the same length with pairwise identical elements, an
    insert has an empty range in [a], a delete an empty range in [b],
    and a replace two ranges that are not empty. *)
Theorem alignment_total_partition :
  (∀ text_a text_b : str,
     total_partition (splitlines text_a) (splitlines text_b)
       (get_opcodes (splitlines text_a) (splitlines text_b)))
  ∧ (∀ text1 text2 : str, total_partition text1 text2 (compute_inline_diff text1 text2)).
Proof.
  split.
  - intros text_a text_b. apply get_opcodes_partition.
  - intros text1 text2. apply get_opcodes_partition.
Qed.

(** ** The reference recursion *)

(** C2, as stated, fails: the aligner does not index an element that
    occurs more than [len(b) // 100 + 1] times in a [b] of 200 elements
    or more, and then misses the longest common block. *)
Lemma aligner_differs_from_reference :
  get_opcodes popular_a popular_b = [(tag_replace, 0, 5, 0, 200)]
  ∧ ratcliff_obershelp popular_a popular_b
    = [(tag_delete, 0, 1, 0, 0); (tag_equal, 1, 5, 0, 4); (tag_insert, 5, 5, 4, 200)]
  ∧ get_opcodes popular_a popular_b ≠ ratcliff_obershelp popular_a popular_b.
Proof.
  assert (get_opcodes popular_a popular_b = [(tag_replace, 0, 5, 0, 200)]) as H1.
  { vm_compute. reflexivity. }
  assert (ratcliff_obershelp popular_a popular_b
          = [(tag_delete, 0, 1, 0, 0); (tag_equal, 1, 5, 0, 4); (tag_insert, 5, 5, 4, 200)])
    as H2.
  { vm_compute. reflexivity. }
  split; [done|]. split; [done|]. rewrite H1, H2. discriminate.
Qed.

(** C2, amended.  When no element of [b] is popular (in particular
    when [b] has fewer than 200 elements), the operations of the aligner
    are those of the reference Ratcliff/Obershelp recursion: the longest
    common block of the region, the one with the smallest start in [a]
    and then in [b] among the longest, then the regions before and
    after it, in order. *)
Theorem aligner_refines_reference {T : Type} `{Countable T} (a b : list T) :
  bpopular b = ∅ → get_opcodes a b = ratcliff_obershelp a b.
Proof. apply get_opcodes_reference. Qed.

Lemma aligner_refines_reference_witness :
  bpopular (lit "hallo") = ∅
  ∧ get_opcodes (lit "hello") (lit "hallo") = ratcliff_obershelp (lit "hello") (lit "hallo").
Proof.
  split; [reflexivity|]. apply (aligner_refines_reference (lit "hello") (lit "hallo")).
  reflexivity.
Defined.

(** ** The chunks *)

Lemma compute_diff_fold (ops : list opcode) : ∀ chunks,
  foldl compute_diff_step chunks ops
  = chunks ++ (chunk_of_opcode <$> filter (λ o, op_tag o ≠ tag_equal) ops).
Proof.
  induction ops as [|o ops IH]; intros chunks; simpl.
  - by rewrite app_nil_r.
  - rewrite IH. unfold compute_diff_step. rewrite filter_cons.
    destruct (decide (op_tag o ≠ tag_equal)) as [Ho|Ho].
    + rewrite bool_decide_eq_true_2 by done. by rewrite <- (assoc_L (++)).
    + by rewrite bool_decide_eq_false_2 by done.
Qed.

(** C4.  [compute_diff] returns the operations of the line alignment
    that are not equal, in the order of the alignment: the chunks and
    these operations go by pairs, and a chunk has the tag and the four
    bounds of its operation, unchanged.  The tag of a chunk is insert,
    delete or replace. *)
Theorem compute_diff_non_equal (text_a text_b : str) :
  compute_diff text_a text_b
  = chunk_of_opcode <$> filter (λ o, op_tag o ≠ tag_equal)
                          (get_opcodes (splitlines text_a) (splitlines text_b))
  ∧ Forall (λ chunk, tag_of chunk ≠ tag_equal
                     ∧ tag_of chunk ∈ [tag_insert; tag_delete; tag_replace])
      (compute_diff text_a text_b)
  ∧ Forall2 (λ chunk o,
               tag_of chunk = op_tag o
               ∧ start_a chunk = Z.of_nat (op_i1 o) ∧ end_a chunk = Z.of_nat (op_i2 o)
               ∧ start_b chunk = Z.of_nat (op_j1 o) ∧ end_b chunk = Z.of_nat (op_j2 o))
      (compute_diff text_a text_b)
      (filter (λ o, op_tag o ≠ tag_equal)
         (get_opcodes (splitlines text_a) (splitlines text_b))).
Proof.
  assert (compute_diff text_a text_b
          = chunk_of_opcode <$> filter (λ o, op_tag o ≠ tag_equal)
                                  (get_opcodes (splitlines text_a) (splitlines text_b))) as Heq.
  { unfold compute_diff. by rewrite compute_diff_fold. }
  split; [done|]. split.
  - rewrite Heq. apply Forall_fmap, Forall_forall.
    intros o Ho. apply list_elem_of_In, list_elem_of_filter in Ho as [Ho _].
    destruct o as [[[[t i1] i2] j1] j2]. unfold op_tag in Ho. simpl in *.
    split; [done|]. destruct t; [done|..].
    + by_compute.
    + by_compute.
    + by_compute.
  - rewrite Heq. apply Forall2_fmap_l, Forall_Forall2_diag, Forall_forall.
    intros o _. by destruct o as [[[[t i1] i2] j1] j2].
Qed.

(** Two texts with the same lines have no chunk. *)
Lemma compute_diff_same_lines (text_a text_b : str) :
  splitlines text_a = splitlines text_b → compute_diff text_a text_b = [].
Proof.
  intros Hsame. unfold compute_diff. rewrite Hsame, get_opcodes_same.
  case_bool_decide; [|done]. simpl. unfold compute_diff_step. simpl. done.
Qed.

(** C9.  Two identical texts have no chunk. *)
Theorem compute_diff_identity (text : str) : compute_diff text text = [].
Proof. by apply compute_diff_same_lines. Qed.

(** C10, as stated, fails: the empty text has no line, the text of one
    line feed has one. *)
Lemma final_newline_on_empty_text :
  compute_diff [] ([] ++ [LF]) = [mkDiffChunk tag_insert 0 0 0 1]
  ∧ compute_diff ([] ++ [LF]) [] = [mkDiffChunk tag_delete 0 1 0 0]
  ∧ compute_diff [] ([] ++ [LF]) ≠ [].
Proof. split; [by vm_compute|]. split; [by vm_compute|]. by vm_compute. Qed.

(** C10, amended.  A final line feed goes unnoticed when the text is
    not empty and does not end with a line boundary already, a carriage
    return apart (the line feed then completes the boundary). *)
Theorem final_newline_ignored (t : str) :
  t ≠ [] →
  (∀ c, list.last t = Some c → is_linebreak c = false ∨ c = CR) →
  compute_diff t (t ++ [LF]) = [] ∧ compute_diff (t ++ [LF]) t = [].
Proof.
  intros Hne Hlast.
  split; apply compute_diff_same_lines; [symmetry|]; by apply splitlines_snoc_LF.
Qed.

Lemma final_newline_ignored_witness :
  compute_diff (lit "line1") (lit "line1" ++ [LF]) = []
  ∧ compute_diff (lit "line1" ++ [LF]) (lit "line1") = [].
Proof.
  apply (final_newline_ignored (lit "line1")).
  - discriminate.
  - intros c. vm_compute. intros [= <-]. by left.
Defined.

(** * The limit guard *)


Lemma first_long_line_none (lines : list str) : ∀ i,
  Forall (λ l, length l ≤ LINE_LENGTH_LIMIT) lines → first_long_line i lines = None.
Proof.
  induction lines as [|l lines IH]; intros i Hl; simpl; [done|].
  apply Forall_cons_iff in Hl as [Hl Hls].
  rewrite bool_decide_eq_false_2 by lia. by apply IH.
Qed.



(** * The inline highlighter *)

(** C7.  When the line is not changed, or when one of the two lines is
    empty, the line is rendered escaped and without a marker, and an
    empty line as the non-breaking placeholder.  The line [<script>]
    rendered against itself as unchanged has its [<] and [>] escaped. *)
Theorem unchanged_line_escaped :
  (∀ (line other_line : str) (is_changed : bool),
     is_changed = false ∨ line = [] ∨ other_line = [] →
     format_line_with_inline_diff line other_line is_changed
     = (if bool_decide (line = []) then NBSP else html_escape line)
     ∧ ¬ contains SPAN_OPEN (format_line_with_inline_diff line other_line is_changed))
  ∧ NBSP ≠ []
  ∧ format_line_with_inline_diff (lit "<script>") (lit "<script>") false
    = lit "&lt;script&gt;"
  ∧ contains (lit "&lt;")
      (format_line_with_inline_diff (lit "<script>") (lit "<script>") false)
  ∧ contains (lit "&gt;")
      (format_line_with_inline_diff (lit "<script>") (lit "<script>") false)
  ∧ ¬ contains (lit "<script>")
      (format_line_with_inline_diff (lit "<script>") (lit "<script>") false).
Proof.
  assert (∀ (line other_line : str) (is_changed : bool),
     is_changed = false ∨ line = [] ∨ other_line = [] →
     format_line_with_inline_diff line other_line is_changed = escape_or_nbsp line) as Hgen.
  { intros line other_line is_changed Hcond.
    unfold format_line_with_inline_diff, format_line_with_inline_diff_using.
    destruct Hcond as [->|[->| ->]]; simpl; [done| |].
    - by rewrite orb_true_r.
    - by rewrite !orb_true_r. }
  assert (format_line_with_inline_diff (lit "<script>") (lit "<script>") false
          = lit "&lt;script&gt;") as Hscript by (by vm_compute).
  split; [|split; [done|split; [done|split; [|split]]]].
  - intros line other_line is_changed Hcond. rewrite (Hgen _ _ _ Hcond).
    split; [done|]. apply escape_or_nbsp_no_marker.
  - rewrite Hscript. by exists [], (lit "script&gt;").
  - rewrite Hscript. by exists (lit "&lt;script"), [].
  - rewrite (Hgen _ _ _ (or_introl eq_refl)).
    apply (not_contains_char LT); [by_compute|apply escape_or_nbsp_no_lt].
Qed.

Lemma unchanged_line_escaped_witness :
  format_line_with_inline_diff [] [] false = NBSP
  ∧ ¬ contains SPAN_OPEN (format_line_with_inline_diff [] [] false).
Proof.
  destruct unchanged_line_escaped as (Hgen & _).
  apply (Hgen [] [] false). left. reflexivity.
Defined.

(** C5.  When the two lines together are longer than the budget of
    20480 characters, the line is rendered escaped and without a marker;
    the result is the same whatever the character aligner would
    return: it is not run. *)
Theorem inline_budget_fallback (diff : str → str → list opcode)
    (line other_line : str) :
  line ≠ [] → other_line ≠ [] →
  INLINE_HIGHLIGHT_LIMIT < length line + length other_line →
  N.of_nat INLINE_HIGHLIGHT_LIMIT = 20480%N
  ∧ format_line_with_inline_diff_using diff line other_line true = html_escape line
  ∧ format_line_with_inline_diff line other_line true = html_escape line
  ∧ ¬ contains SPAN_OPEN (format_line_with_inline_diff line other_line true).
Proof.
  intros Hline Hother Hlen.
  assert (∀ d, format_line_with_inline_diff_using d line other_line true = html_escape line)
    as Hany.
  { intros d. unfold format_line_with_inline_diff_using. simpl.
    rewrite (bool_decide_eq_false_2 (line = [])) by done.
    rewrite (bool_decide_eq_false_2 (other_line = [])) by done. simpl.
    rewrite bool_decide_eq_true_2 by done. unfold escape_or_nbsp.
    by rewrite bool_decide_eq_false_2. }
  split; [by vm_compute|]. split; [apply Hany|]. split; [apply Hany|].
  unfold format_line_with_inline_diff. rewrite Hany.
  apply (not_contains_char LT); [by_compute|apply html_escape_no_lt].
Qed.

Lemma inline_budget_fallback_witness :
  format_line_with_inline_diff (lit "<b>") (repeat 120%N 20480) true = lit "&lt;b&gt;".
Proof.
  destruct (inline_budget_fallback compute_inline_diff (lit "<b>") (repeat 120%N 20480))
    as (_ & _ & Hres & _).
  - discriminate.
  - intros E. apply (f_equal length) in E. rewrite repeat_length in E. vm_compute in E.
    discriminate.
  - rewrite repeat_length. apply Nat.ltb_lt. vm_compute. reflexivity.
  - rewrite Hres. vm_compute. reflexivity.
Defined.

(** * The runs of the inline highlighter *)

Lemma render_op_concat (line : str) (result : list str) (o : opcode) :
  concat (render_op line result o) = concat result ++ render_run line o.
Proof.
  destruct o as [[[[t i1] i2] j1] j2].
  unfold render_op, render_run, op_tag, op_i1, op_i2.
  destruct t; cbn [fst snd]; rewrite ?concat_app; cbn [concat]; by rewrite ?app_nil_r.
Qed.

Lemma render_fold_concat (line : str) (ops : list opcode) : ∀ result,
  concat (foldl (render_op line) result ops)
  = concat result ++ concat (render_run line <$> ops).
Proof.
  induction ops as [|o ops IH]; intros result.
  - simpl. by rewrite app_nil_r.
  - cbn [foldl fmap list_fmap concat]. rewrite IH, render_op_concat.
    by rewrite <- (assoc_L (++)).
Qed.

Lemma render_op_length (line : str) (result : list str) (o : opcode) :
  length result ≤ length (render_op line result o)
  ∧ (op_tag o ≠ tag_insert → length result < length (render_op line result o)).
Proof.
  destruct o as [[[[t i1] i2] j1] j2]. unfold render_op, op_tag. cbn [fst snd].
  destruct t; rewrite ?length_app; cbn [length]; split; (done || lia).
Qed.

Lemma render_fold_length (line : str) (ops : list opcode) : ∀ result,
  length result ≤ length (foldl (render_op line) result ops)
  ∧ (Exists (λ o, op_tag o ≠ tag_insert) ops →
     length result < length (foldl (render_op line) result ops)).
Proof.
  induction ops as [|o ops IH]; intros result.
  - simpl. split; [done|]. by intros ?%Exists_nil.
  - cbn [foldl]. destruct (IH (render_op line result o)) as [IH1 IH2].
    destruct (render_op_length line result o) as [Hle Hlt].
    split; [lia|]. intros Hex. apply Exists_cons in Hex as [Ht|Hex].
    + specialize (Hlt Ht). lia.
    + specialize (IH2 Hex). lia.
Qed.

Lemma slice_app {A} (l : list A) (i k n : nat) :
  i ≤ k → k ≤ n → slice l i k ++ slice l k n = slice l i n.
Proof.
  intros Hik Hkn. unfold slice.
  replace (drop k l) with (drop (k - i) (drop i l)) by (rewrite drop_drop; f_equal; lia).
  rewrite take_take_drop. f_equal. lia.
Qed.




(** * The line projector *)

Section Projector.
Variables (other_lines : list str) (chunks : list DiffChunk) (is_left : bool).

(** The record of line [i]. *)
Definition record_of (i : nat) (line : str) : str :=
  line_record (classify is_left i chunks).1 i
    (formatted_line is_left i line other_lines chunks).

Lemma format_lines_fold (lines : list str) : ∀ k html_lines,
  foldl (format_lines_step other_lines chunks is_left) html_lines
    (imap (λ i line, (k + i, line)) lines)
  = html_lines ++ imap (λ i line, record_of (k + i) line) lines.
Proof.
  induction lines as [|line lines IH]; intros k html_lines.
  - simpl. by rewrite app_nil_r.
  - cbn [imap foldl]. unfold format_lines_step at 2. cbn [fst snd].
    rewrite (imap_ext _ (λ i line, (S k + i, line)))
      by (intros; unfold compose; simpl; f_equal; lia).
    rewrite IH, <- (assoc_L (++)). cbn [app]. rewrite Nat.add_0_r. do 2 f_equal.
    apply imap_ext. intros. unfold compose. f_equal. lia.
Qed.

Lemma format_lines_records_imap (lines : list str) :
  format_lines_records lines other_lines chunks is_left = imap record_of lines.
Proof.
  unfold format_lines_records. apply (format_lines_fold lines 0 []).
Qed.

End Projector.

(** ** The chunks of [compute_diff] do not overlap *)

Lemma pairwise_of_lookup {A} (R : relation A) (l : list A) :
  (∀ n m x y, n < m → l !! n = Some x → l !! m = Some y → R x y) → pairwise R l.
Proof.
  induction l as [|x l IH]; intros Hl; simpl; [done|]. split.
  - apply Forall_forall. intros y Hy.
    apply list_elem_of_In, list_elem_of_lookup in Hy as [m Hm].
    apply (Hl 0 (S m)); [lia|done..].
  - apply IH. intros n m y z Hnm Hn Hm. apply (Hl (S n) (S m)); [lia|done..].
Qed.

Lemma pairwise_lookup {A} (R : relation A) (l : list A) n m x y :
  pairwise R l → n < m → l !! n = Some x → l !! m = Some y → R x y.
Proof.
  revert n m. induction l as [|z l IH]; intros n m Hp Hnm Hn Hm; [done|].
  destruct Hp as [Hz Hl].
  destruct m as [|m]; [lia|]. destruct n as [|n]; simpl in *.
  - injection Hn as ->. rewrite Forall_forall in Hz. apply Hz.
    apply list_elem_of_In. by eapply list_elem_of_lookup_2.
  - apply (IH n m); [done|lia|done..].
Qed.

Lemma pairwise_filter {A} (R : relation A) (P : A → Prop) `{∀ x, Decision (P x)}
    (l : list A) :
  pairwise R l → pairwise R (filter P l).
Proof.
  induction l as [|x l IH]; [done|]. simpl. intros [Hx Hl]. rewrite filter_cons.
  destruct (decide (P x)); [|by apply IH]. simpl. split; [|by apply IH].
  rewrite Forall_forall in Hx. apply Forall_forall. intros y Hy. apply Hx.
  apply list_elem_of_In. apply list_elem_of_In, list_elem_of_filter in Hy. tauto.
Qed.

(** A chunk ends, on both sides, before the chunks after it start. *)
Definition chunk_before (c c' : DiffChunk) : Prop :=
  (end_a c ≤ start_a c')%Z ∧ (end_b c ≤ start_b c')%Z.

Lemma compute_diff_ordered (text_a text_b : str) :
  pairwise chunk_before (compute_diff text_a text_b).
Proof.
  unfold compute_diff. rewrite compute_diff_fold. simpl.
  apply pairwise_fmap, pairwise_filter, pairwise_of_lookup.
  intros n m o o' Hnm Hn Hm.
  destruct (get_opcodes_partition (splitlines text_a) (splitlines text_b))
    as (_ & Hord & _).
  destruct (Hord n m o o' Hnm Hn Hm) as (H1 & H2 & _).
  destruct o as [[[[t i1] i2] j1] j2], o' as [[[[t' i1'] i2'] j1'] j2'].
  unfold chunk_before, op_i1, op_i2, op_j1, op_j2 in *. simpl in *. lia.
Qed.

(** Among the chunks of [compute_diff], the chunk whose range holds a
    line is the first and the only one. *)
Lemma compute_diff_first_chunk (text_a text_b : str) (is_left : bool) i n chunk :
  compute_diff text_a text_b !! n = Some chunk → in_chunk is_left chunk i →
  first_chunk (compute_diff text_a text_b) is_left i n chunk.
Proof.
  intros Hn Hin. split; [done|]. split; [done|]. intros m c Hm Hc Hcin.
  pose proof (pairwise_lookup _ _ _ _ _ _ (compute_diff_ordered text_a text_b) Hm Hc Hn)
    as [Ha Hb].
  unfold in_chunk in *. destruct is_left; lia.
Qed.

Lemma classify_first other (chunks : list DiffChunk) is_left i : ∀ n chunk,
  first_chunk chunks is_left i n chunk →
  classify is_left i chunks = (lit "chunk-" ++ tag_name (tag_of chunk), Some (tag_of chunk))
  ∧ (tag_of chunk = tag_replace →
     ∀ line, format_paired is_left i line other chunks
     = if bool_decide (0 ≤ paired_index is_left chunk i < Z.of_nat (length other))%Z
       then match other !! Z.to_nat (paired_index is_left chunk i) with
            | Some other_line => format_line_with_inline_diff line other_line true
            | None => escape_or_nbsp line
            end
       else escape_or_nbsp line).
Proof.
  induction chunks as [|c chunks IH]; intros n chunk (Hn & Hin & Hfirst); [done|].
  destruct n as [|n].
  - injection Hn as ->. simpl. rewrite bool_decide_eq_true_2 by done.
    split; [done|]. intros Htag line. by rewrite bool_decide_eq_true_2.
  - simpl in Hn. assert (¬ in_chunk is_left c i) as Hc.
    { apply (Hfirst 0); [lia|done]. }
    simpl. rewrite bool_decide_eq_false_2 by done.
    rewrite (bool_decide_eq_false_2 (in_chunk is_left c i ∧ _)) by tauto.
    apply (IH n). split_and!; [done..|].
    intros m c' Hm Hc'. apply (Hfirst (S m)); [lia|done].
Qed.



(** * Further properties: escaping *)

Lemma replace_char_app (old : char) (new s t : str) :
  replace_char old new (s ++ t) = replace_char old new s ++ replace_char old new t.
Proof. unfold replace_char. apply bind_app. Qed.

Lemma html_escape_app (s t : str) :
  html_escape (s ++ t) = html_escape s ++ html_escape t.
Proof. unfold html_escape. by rewrite !replace_char_app. Qed.

Lemma html_escape_one (c : char) : html_escape [c] = escape_char c.
Proof.
  unfold escape_char.
  destruct (decide (c = AMP)) as [->|Hamp]; [by vm_compute|].
  destruct (decide (c = LT)) as [->|Hlt]; [by vm_compute|].
  destruct (decide (c = GT)) as [->|Hgt]; [by vm_compute|].
  destruct (decide (c = QUOT)) as [->|Hquot]; [by vm_compute|].
  destruct (decide (c = APOS)) as [->|Hapos]; [by vm_compute|].
  rewrite !bool_decide_eq_false_2 by done.
  unfold html_escape, replace_char. cbn [mbind list_bind app].
  rewrite (bool_decide_eq_false_2 (c = AMP)) by done. cbn [mbind list_bind app].
  rewrite (bool_decide_eq_false_2 (c = LT)) by done. cbn [mbind list_bind app].
  rewrite (bool_decide_eq_false_2 (c = GT)) by done. cbn [mbind list_bind app].
  rewrite (bool_decide_eq_false_2 (c = QUOT)) by done. cbn [mbind list_bind app].
  by rewrite (bool_decide_eq_false_2 (c = APOS)) by done.
Qed.

Lemma html_escape_cons (c : char) (s : str) :
  html_escape (c :: s) = escape_char c ++ html_escape s.
Proof. by rewrite <- html_escape_one, <- html_escape_app. Qed.

Lemma html_escape_bind (s : str) : html_escape s = s ≫= escape_char.
Proof.
  induction s as [|c s IH]; [done|].
  rewrite html_escape_cons, IH. done.
Qed.

(** The entity of a character, or the character itself, tells the
    character, whatever follows. *)
Lemma escape_char_prefix (c d : char) (x y : str) :
  escape_char c ++ x = escape_char d ++ y → c = d ∧ x = y.
Proof.
  unfold escape_char.
  repeat case_bool_decide; subst; cbn; intros Heq; simplify_eq; try done.
Qed.

Lemma escape_char_not_nil (c : char) : escape_char c ≠ [].
Proof. unfold escape_char. repeat case_bool_decide; done. Qed.

Lemma html_escape_inj (s : str) : ∀ t, html_escape s = html_escape t → s = t.
Proof.
  induction s as [|c s IH]; intros [|d t]; rewrite ?html_escape_cons.
  - done.
  - intros Heq. symmetry in Heq. apply app_eq_nil in Heq as [Heq _].
    by apply escape_char_not_nil in Heq.
  - intros Heq. apply app_eq_nil in Heq as [Heq _].
    by apply escape_char_not_nil in Heq.
  - intros Heq. apply escape_char_prefix in Heq as [-> Heq]. f_equal. by apply IH.
Qed.

Lemma escape_char_safe (c : char) :
  Forall (λ x, x ∉ [LT; GT; QUOT; APOS]) (escape_char c).
Proof.
  unfold escape_char.
  repeat case_bool_decide; subst;
    repeat (apply Forall_cons_iff; split; [by_compute|]); try apply Forall_nil_2.
  apply Forall_cons_iff. split; [|apply Forall_nil_2].
  rewrite !elem_of_cons, elem_of_nil. intros [?|[?|[?|[?|[]]]]]; done.
Qed.

Lemma escape_char_length (c : char) : 1 ≤ length (escape_char c).
Proof. unfold escape_char. repeat case_bool_decide; simpl; lia. Qed.

Lemma escape_char_fixed (c : char) :
  escape_char c = [c] ↔ c ∉ [AMP; LT; GT; QUOT; APOS].
Proof.
  unfold escape_char. rewrite !elem_of_cons, elem_of_nil.
  repeat case_bool_decide; subst; split; try done; try tauto.
  all: intros Hno; exfalso; apply Hno; tauto.
Qed.

(** * Further properties: lines *)

Lemma splitlines_from_plain (s : str) : ∀ after_cr cur,
  plain cur → Forall plain (splitlines_from after_cr cur s).
Proof.
  induction s as [|c s IH]; intros after_cr cur Hcur; simpl.
  - case_bool_decide; [apply Forall_nil_2|].
    apply Forall_cons_iff. split; [done|apply Forall_nil_2].
  - destruct (after_cr && bool_decide (c = LF)); [by apply IH|].
    destruct (is_linebreak c) eqn:Hc.
    + apply Forall_cons_iff. split; [done|]. apply IH. apply Forall_nil_2.
    + apply IH. apply Forall_app. split; [done|].
      apply Forall_cons_iff. split; [done|apply Forall_nil_2].
Qed.

(** Every line is a part of the text.  After a carriage return the line
    read so far is empty. *)
Lemma splitlines_from_contains (s : str) : ∀ after_cr cur line,
  (after_cr = true → cur = []) →
  line ∈ splitlines_from after_cr cur s → contains line (cur ++ s).
Proof.
  induction s as [|c s IH]; intros after_cr cur line Hcr; simpl.
  - case_bool_decide; [by rewrite elem_of_nil|].
    rewrite list_elem_of_singleton. intros ->. exists [], []. by rewrite !app_nil_r.
  - destruct (after_cr && bool_decide (c = LF)) eqn:Hskip.
    + apply andb_true_iff in Hskip as [-> _]. rewrite (Hcr eq_refl).
      intros Hin. apply (IH false [] line) in Hin as (pre & post & Heq); [|done].
      simpl in Heq. exists (c :: pre), post. simpl. by rewrite Heq.
    + destruct (is_linebreak c).
      * rewrite elem_of_cons. intros [->|Hin].
        -- by exists [], (c :: s).
        -- apply IH in Hin as (pre & post & Heq); [|done]. simpl in Heq.
           exists (cur ++ c :: pre), post. rewrite Heq. by rewrite <- (assoc_L (++)).
      * intros Hin. apply IH in Hin as (pre & post & Heq); [|done].
        exists pre, post. rewrite <- Heq. by rewrite <- (assoc_L (++)).
Qed.

Lemma contains_length (needle hay : str) : contains needle hay → length needle ≤ length hay.
Proof. intros (pre & post & ->). rewrite !length_app. lia. Qed.

Lemma contains_elem (c : char) (needle hay : str) :
  contains needle hay → c ∈ needle → c ∈ hay.
Proof. intros (pre & post & ->) Hc. rewrite !elem_of_app. auto. Qed.

(** Characters that are no line boundary are added to the line. *)
Lemma splitlines_from_plain_app (l : str) : ∀ cur s,
  plain l → splitlines_from false cur (l ++ s) = splitlines_from false (cur ++ l) s.
Proof.
  induction l as [|c l IH]; intros cur s Hl; simpl.
  - by rewrite app_nil_r.
  - apply Forall_cons_iff in Hl as [Hc Hl]. rewrite Hc.
    rewrite IH by done. by rewrite <- (assoc_L (++)).
Qed.

Lemma splitlines_from_LF (cur s : str) :
  splitlines_from false cur (LF :: s) = cur :: splitlines_from false [] s.
Proof. reflexivity. Qed.

Lemma splitlines_plain (l : str) : plain l → l ≠ [] → splitlines l = [l].
Proof.
  intros Hl Hne. unfold splitlines.
  rewrite <- (app_nil_r l) at 1. rewrite splitlines_from_plain_app by done. simpl.
  by rewrite bool_decide_eq_false_2.
Qed.

Lemma splitlines_join (lines : list str) :
  Forall plain lines → list.last lines ≠ Some [] →
  splitlines (join [LF] lines) = lines.
Proof.
  induction lines as [|x lines IH]; intros Hplain Hlast; [done|].
  apply Forall_cons_iff in Hplain as [Hx Hplain].
  destruct lines as [|y lines].
  - simpl. apply splitlines_plain; [done|]. intros ->. by apply Hlast.
  - change (join [LF] (x :: y :: lines)) with (x ++ [LF] ++ join [LF] (y :: lines)).
    unfold splitlines. rewrite splitlines_from_plain_app by done.
    cbn [app]. rewrite splitlines_from_LF. f_equal. by apply IH.
Qed.

(** A carriage return before every line feed changes no line. *)
Lemma splitlines_from_crlf (s : str) : ∀ cur,
  CR ∉ s →
  splitlines_from false cur (replace_char LF [CR; LF] s) = splitlines_from false cur s.
Proof.
  induction s as [|c s IH]; intros cur Hcr; [done|].
  apply not_elem_of_cons in Hcr as [Hc Hcr].
  unfold replace_char. cbn [mbind list_bind]. fold (replace_char LF [CR; LF] s).
  destruct (decide (c = LF)) as [->|Hlf].
  - rewrite bool_decide_eq_true_2 by done. simpl. f_equal. by apply IH.
  - rewrite bool_decide_eq_false_2 by done. simpl.
    destruct (is_linebreak c).
    + rewrite (bool_decide_eq_false_2 (c = CR)) by done. f_equal. by apply IH.
    + by apply IH.
Qed.

Lemma splitlines_from_concat (s : list char) : ∀ after_cr cur,
  concat (splitlines_from after_cr cur s)
  = cur ++ filter (λ c, is_linebreak c = false) s.
Proof.
  induction s as [|c s IH]; intros after_cr cur.
  - simpl. case_bool_decide as Hcur; simpl; [by rewrite Hcur|done].
  - rewrite filter_cons. cbn [splitlines_from].
    destruct (after_cr && bool_decide (c = LF)) eqn:Hskip.
    + apply andb_true_iff in Hskip as [_ Hc]. apply bool_decide_eq_true_1 in Hc as ->.
      rewrite IH. destruct (decide (is_linebreak LF = false)) as [Hlf|_]; [|done].
      by vm_compute in Hlf.
    + destruct (is_linebreak c) eqn:Hc.
      * simpl. rewrite IH. by destruct (decide (true = false)).
      * rewrite IH. destruct (decide (false = false)); [|done].
        by rewrite <- (assoc_L (++)).
Qed.

Lemma html_escape_length (s : str) : length s ≤ length (html_escape s).
Proof.
  induction s as [|c s IH]; [done|]. rewrite html_escape_cons, length_app.
  pose proof (escape_char_length c). simpl. lia.
Qed.

Lemma html_escape_fixed (s : str) :
  html_escape s = s ↔ Forall (λ c, c ∉ [AMP; LT; GT; QUOT; APOS]) s.
Proof.
  induction s as [|c s IH]; [split; [intros _; apply Forall_nil_2|done]|].
  rewrite html_escape_cons, Forall_cons_iff, <- IH, <- escape_char_fixed. split.
  - intros Heq. destruct (decide (escape_char c = [c])) as [Hc|Hc].
    + rewrite Hc in Heq. by simplify_eq/=.
    + exfalso. apply (f_equal length) in Heq. rewrite length_app in Heq. simpl in Heq.
      pose proof (html_escape_length s). pose proof (escape_char_length c).
      assert (length (escape_char c) = 1) as Hlen by lia.
      apply Hc. revert Hlen. unfold escape_char.
      repeat case_bool_decide; subst; simpl; intros; done.
  - intros [-> ->]. done.
Qed.

(** * Escaping *)

(** X1.  [html.escape] works character by character: each of the five
    special characters becomes its entity and every other character is
    kept; the [&] of an entity that a later replacement puts is not
    escaped again.  The escape of a concatenation is the concatenation
    of the escapes. *)
Theorem html_escape_by_character :
  (∀ s : str, html_escape s = s ≫= escape_char)
  ∧ (∀ s t : str, html_escape (s ++ t) = html_escape s ++ html_escape t).
Proof. split; [apply html_escape_bind|apply html_escape_app]. Qed.

(** X2.  An escaped string holds no [<], [>], double quote or single quote;
    it is at least as long as the string, and it is the string itself
    exactly when the string holds none of the five special characters. *)
Theorem html_escape_safe (s : str) :
  Forall (λ c, c ∉ [LT; GT; QUOT; APOS]) (html_escape s)
  ∧ length s ≤ length (html_escape s)
  ∧ (html_escape s = s ↔ Forall (λ c, c ∉ [AMP; LT; GT; QUOT; APOS]) s).
Proof.
  split; [|split; [apply html_escape_length|apply html_escape_fixed]].
  rewrite html_escape_bind. apply Forall_bind, Forall_forall. intros c _.
  apply escape_char_safe.
Qed.

(** X3.  Escaping loses nothing: two strings with the same escape are the
    same string. *)
Theorem html_escape_injective (s t : str) : html_escape s = html_escape t ↔ s = t.
Proof. split; [apply html_escape_inj|by intros ->]. Qed.

(** * Lines *)

(** X4.  Every line of [splitlines] is a part of the text and holds no line
    boundary; the lines put end to end are the text without its line
    boundaries. *)
Theorem splitlines_lines (text : str) :
  Forall (λ line, contains line text ∧ plain line) (splitlines text)
  ∧ concat (splitlines text) = filter (λ c, is_linebreak c = false) text.
Proof.
  split; [|apply splitlines_from_concat].
  apply Forall_forall. intros line Hin. apply list_elem_of_In in Hin. split.
  - by apply (splitlines_from_contains text false []).
  - pose proof (splitlines_from_plain text false [] (Forall_nil_2 _)) as Hall.
    rewrite Forall_forall in Hall. apply Hall. by apply list_elem_of_In.
Qed.

(** X5.  Lines that hold no line boundary, the last of them not empty, are
    found again when their join with line feeds is split. *)
Theorem splitlines_join_roundtrip (lines : list str) :
  Forall plain lines → list.last lines ≠ Some [] →
  splitlines (join [LF] lines) = lines.
Proof. apply splitlines_join. Qed.

Lemma splitlines_join_roundtrip_witness :
  splitlines (join [LF] [lit "line 0"; []; lit "line 2"]) = [lit "line 0"; []; lit "line 2"].
Proof.
  apply (splitlines_join_roundtrip [lit "line 0"; []; lit "line 2"]).
  - by_compute.
  - discriminate.
Defined.

(** X6.  A text and the same text with a carriage return put before each
    line feed have the same lines, and no chunk between them. *)
Theorem crlf_line_ends_ignored (t : str) :
  CR ∉ t →
  splitlines (replace_char LF [CR; LF] t) = splitlines t
  ∧ compute_diff (replace_char LF [CR; LF] t) t = []
  ∧ compute_diff t (replace_char LF [CR; LF] t) = [].
Proof.
  intros Hcr. pose proof (splitlines_from_crlf t [] Hcr) as Heq.
  split; [exact Heq|]. split; apply compute_diff_same_lines; [exact Heq|symmetry; exact Heq].
Qed.

Lemma crlf_line_ends_ignored_witness :
  compute_diff (lit "line1" ++ [CR; LF] ++ lit "line2" ++ [CR; LF])
    (lit "line1" ++ [LF] ++ lit "line2" ++ [LF]) = [].
Proof.
  apply (crlf_line_ends_ignored (lit "line1" ++ [LF] ++ lit "line2" ++ [LF])).
  by_compute.
Defined.

(** * The limit guard and the inline budget *)

Lemma first_long_line_None (lines : list str) : ∀ i,
  first_long_line i lines = None → Forall (λ l, length l ≤ LINE_LENGTH_LIMIT) lines.
Proof.
  induction lines as [|line lines IH]; intros i; simpl; [intros _; apply Forall_nil_2|].
  case_bool_decide as Hlen; [done|]. intros Hrest.
  apply Forall_cons_iff. split; [lia|]. by eapply IH.
Qed.

Lemma check_file_limits_accepts (text filename : str) :
  (check_file_limits text filename).2 = true
  ↔ (NUL ∉ text) ∧ Forall (λ l, length l ≤ LINE_LENGTH_LIMIT) (splitlines text).
Proof.
  unfold check_file_limits. case_bool_decide as Hnul; [simpl; split; [done|tauto]|].
  destruct (first_long_line 1 (splitlines text)) as [[i len]|] eqn:Hfirst; simpl.
  - split; [done|]. intros [_ Hall]. by rewrite first_long_line_none in Hfirst.
  - split; [|done]. intros _. split; [done|]. by eapply first_long_line_None.
Qed.

Lemma splitlines_length (text line : str) :
  line ∈ splitlines text → length line ≤ length text.
Proof.
  intros Hin. apply contains_length.
  by apply (splitlines_from_contains text false []).
Qed.

(** The character alignment runs, and the line is the concatenation of
    what its runs contribute. *)
Lemma format_line_aligned (line other_line : str) :
  line ≠ [] → other_line ≠ [] →
  length line + length other_line ≤ INLINE_HIGHLIGHT_LIMIT →
  format_line_with_inline_diff line other_line true
  = concat (render_run line <$> compute_inline_diff line other_line).
Proof.
  intros Hline Hother Hlen.
  pose proof (get_opcodes_partition line other_line) as (Ht & _ & Hcov & _ & Hok).
  fold (compute_inline_diff line other_line) in Ht, Hcov, Hok.
  unfold format_line_with_inline_diff, format_line_with_inline_diff_using. simpl.
  rewrite (bool_decide_eq_false_2 (line = [])) by done.
  rewrite (bool_decide_eq_false_2 (other_line = [])) by done. simpl.
  rewrite bool_decide_eq_false_2 by lia.
  assert (Exists (λ o, op_tag o ≠ tag_insert) (compute_inline_diff line other_line)) as Hex.
  { destruct (Hcov 0) as (n & (o & Hn & Ho) & _).
    { destruct line; [done|simpl; lia]. }
    apply Exists_exists. exists o. split.
    - apply list_elem_of_In. by eapply list_elem_of_lookup_2.
    - rewrite Forall_forall in Hok.
      assert (op_ok line other_line o) as Hoo.
      { apply Hok, list_elem_of_In. by eapply list_elem_of_lookup_2. }
      unfold op_ok in Hoo. intros Htag. rewrite Htag in Hoo. lia. }
  destruct (render_fold_length line (compute_inline_diff line other_line) []) as [_ Hpos].
  specialize (Hpos Hex).
  rewrite bool_decide_eq_false_2.
  - by rewrite join_nil, render_fold_concat.
  - intros E. rewrite E in Hpos. simpl in Hpos. lia.
Qed.

Lemma escape_or_nbsp_not_nil (line : str) : escape_or_nbsp line ≠ [].
Proof.
  unfold escape_or_nbsp. case_bool_decide as Hline; [done|].
  intros E. pose proof (html_escape_length line) as Hlen. rewrite E in Hlen.
  destruct line; [done|]. simpl in Hlen. lia.
Qed.

Lemma render_run_not_nil (line other_line : str) (o : opcode) :
  o ∈ compute_inline_diff line other_line → op_tag o ≠ tag_insert →
  render_run line o ≠ [].
Proof.
  intros Hin Htag.
  pose proof (get_opcodes_partition line other_line) as (Ht & _ & _ & _ & Hok).
  fold (compute_inline_diff line other_line) in Ht, Hok.
  apply list_elem_of_lookup_1 in Hin as [n Hn].
  pose proof (tiles_bounds _ _ _ _ _ _ _ Ht Hn) as (_ & _ & Hi2 & _).
  assert (op_ok line other_line o) as Hoo.
  { rewrite Forall_forall in Hok. apply Hok, list_elem_of_In.
    by eapply list_elem_of_lookup_2. }
  unfold op_ok in Hoo. unfold render_run.
  destruct (op_tag o); [|done|done|done].
  destruct Hoo as (Hlt & _). intros E.
  pose proof (html_escape_length (slice line (op_i1 o) (op_i2 o))) as Hlen.
  rewrite E in Hlen. unfold slice in Hlen.
  rewrite length_take, length_drop in Hlen. simpl in Hlen. lia.
Qed.

(** X7.  The lines of two texts that the guard accepts are within the budget
    of the inline highlighter: the budget fallback is never taken for
    them, and two such lines that are not empty are always aligned. *)
Theorem guard_within_inline_budget (text_a filename_a text_b filename_b : str) :
  (check_file_limits text_a filename_a).2 = true →
  (check_file_limits text_b filename_b).2 = true →
  Forall (λ line, Forall (λ other_line,
      length line + length other_line ≤ INLINE_HIGHLIGHT_LIMIT
      ∧ (line ≠ [] → other_line ≠ [] →
         format_line_with_inline_diff line other_line true
         = concat (render_run line <$> compute_inline_diff line other_line)))
    (splitlines text_b)) (splitlines text_a).
Proof.
  intros [_ Ha]%check_file_limits_accepts [_ Hb]%check_file_limits_accepts.
  rewrite Forall_forall in Ha, Hb.
  apply Forall_forall. intros line Hline. apply Forall_forall. intros other_line Hother.
  specialize (Ha line Hline). specialize (Hb other_line Hother).
  assert (length line + length other_line ≤ INLINE_HIGHLIGHT_LIMIT) as Hlen.
  { assert (N.of_nat LINE_LENGTH_LIMIT = 8192%N) as H1 by (by vm_compute).
    assert (N.of_nat INLINE_HIGHLIGHT_LIMIT = 20480%N) as H2 by (by vm_compute).
    lia. }
  split; [done|]. intros. by apply format_line_aligned.
Qed.

Lemma guard_within_inline_budget_witness :
  Forall (λ line, Forall (λ other_line,
      length line + length other_line ≤ INLINE_HIGHLIGHT_LIMIT
      ∧ (line ≠ [] → other_line ≠ [] →
         format_line_with_inline_diff line other_line true
         = concat (render_run line <$> compute_inline_diff line other_line)))
    (splitlines (lit "line1" ++ [LF] ++ lit "new line")))
    (splitlines (lit "line1" ++ [LF] ++ lit "old line")).
Proof.
  apply (guard_within_inline_budget (lit "line1" ++ [LF] ++ lit "old line") (lit "a.txt")
           (lit "line1" ++ [LF] ++ lit "new line") (lit "b.txt")).
  - vm_compute. reflexivity.
  - vm_compute. reflexivity.
Defined.

(** X8.  The guard returns [True] exactly for the texts that hold no null
    character and no line of more than 8192 characters; it prints
    nothing exactly when it returns [True], and the file name has no
    part in the verdict. *)
Theorem guard_accepts_exactly (text filename : str) :
  ((check_file_limits text filename).2 = true
   ↔ (NUL ∉ text) ∧ Forall (λ l, length l ≤ LINE_LENGTH_LIMIT) (splitlines text))
  ∧ ((check_file_limits text filename).2 = true
     ↔ (check_file_limits text filename).1 = [])
  ∧ (∀ other_name, (check_file_limits text other_name).2
                   = (check_file_limits text filename).2).
Proof.
  split; [apply check_file_limits_accepts|]. split.
  - unfold check_file_limits. case_bool_decide; [done|].
    by destruct (first_long_line 1 (splitlines text)) as [[i len]|].
  - intros other_name. unfold check_file_limits. case_bool_decide; [done|].
    by destruct (first_long_line 1 (splitlines text)) as [[i len]|].
Qed.

(** X9.  A text without a null character and of at most 8192 characters is
    accepted, however it is cut into lines. *)
Theorem short_text_accepted (text filename : str) :
  NUL ∉ text → length text ≤ LINE_LENGTH_LIMIT →
  check_file_limits text filename = ([], true).
Proof.
  intros Hnul Hlen. unfold check_file_limits. rewrite bool_decide_eq_false_2 by done.
  rewrite first_long_line_none; [done|].
  apply Forall_forall. intros line Hin. apply list_elem_of_In in Hin.
  apply splitlines_length in Hin. lia.
Qed.

Lemma short_text_accepted_witness :
  check_file_limits (lit "line1" ++ [LF] ++ lit "line2") (lit "test.txt") = ([], true).
Proof.
  apply (short_text_accepted (lit "line1" ++ [LF] ++ lit "line2") (lit "test.txt")).
  - by_compute.
  - apply Nat.leb_le. vm_compute. reflexivity.
Defined.

(** * The inline highlighter *)

(** X10.  What the highlighter returns is never the empty string. *)
Theorem format_line_never_empty (line other_line : str) (is_changed : bool) :
  format_line_with_inline_diff line other_line is_changed ≠ [].
Proof.
  destruct (decide (is_changed = false ∨ line = [] ∨ other_line = [])) as [Hplain|Hrun].
  - assert (format_line_with_inline_diff line other_line is_changed = escape_or_nbsp line)
      as ->; [|apply escape_or_nbsp_not_nil].
    unfold format_line_with_inline_diff, format_line_with_inline_diff_using.
    destruct Hplain as [->|[->| ->]]; simpl; [done| |].
    + by rewrite orb_true_r.
    + by rewrite !orb_true_r.
  - assert (is_changed = true ∧ line ≠ [] ∧ other_line ≠ []) as (-> & Hline & Hother).
    { destruct is_changed; [|exfalso; apply Hrun; auto].
      split; [done|]. split; intros ?; apply Hrun; auto. }
    destruct (decide (length line + length other_line ≤ INLINE_HIGHLIGHT_LIMIT))
      as [Hlen|Hlen].
    + rewrite format_line_aligned by done.
      pose proof (get_opcodes_partition line other_line) as (_ & _ & Hcov & _ & Hok).
      fold (compute_inline_diff line other_line) in Hcov, Hok.
      destruct (Hcov 0) as (n & (o & Hn & Ho) & _).
      { destruct line; [done|simpl; lia]. }
      assert (o ∈ compute_inline_diff line other_line) as Hin.
      { by eapply list_elem_of_lookup_2. }
      assert (op_tag o ≠ tag_insert) as Htag.
      { rewrite Forall_forall in Hok. specialize (Hok o).
        intros Htag. unfold op_ok in Hok. rewrite Htag in Hok.
        apply list_elem_of_In in Hin. specialize (Hok Hin). lia. }
      pose proof (render_run_not_nil line other_line o Hin Htag) as Hne.
      apply list_elem_of_split in Hin as (l1 & l2 & ->).
      rewrite fmap_app, concat_app. simpl. intros E.
      apply app_eq_nil in E as [_ E]. apply app_eq_nil in E as [E _]. done.
    + unfold format_line_with_inline_diff, format_line_with_inline_diff_using. simpl.
      rewrite (bool_decide_eq_false_2 (line = [])) by done.
      rewrite (bool_decide_eq_false_2 (other_line = [])) by done. simpl.
      rewrite bool_decide_eq_true_2 by lia. apply escape_or_nbsp_not_nil.
Qed.

(** X11.  A line rendered against an identical line carries no marker,
    changed or not, within the budget or not: it is the line escaped,
    or the placeholder when the line is empty. *)
Theorem identical_line_unmarked (line : str) (is_changed : bool) :
  format_line_with_inline_diff line line is_changed = escape_or_nbsp line
  ∧ ¬ contains SPAN_OPEN (format_line_with_inline_diff line line is_changed).
Proof.
  assert (format_line_with_inline_diff line line is_changed = escape_or_nbsp line) as Heq.
  { unfold format_line_with_inline_diff, format_line_with_inline_diff_using.
    destruct (negb is_changed || bool_decide (line = []) || bool_decide (line = []))
      eqn:Hplain; [done|].
    destruct (bool_decide (INLINE_HIGHLIGHT_LIMIT < length line + length line)); [done|].
    apply orb_false_iff in Hplain as [_ Hline]. apply bool_decide_eq_false_1 in Hline.
    unfold compute_inline_diff. rewrite get_opcodes_same.
    assert (length line ≠ 0) as Hlen by (destruct line; [done|simpl; lia]).
    rewrite (bool_decide_eq_true_2 (length line ≠ 0)) by done.
    simpl. unfold slice, escape_or_nbsp. rewrite drop_0, Nat.sub_0_r, firstn_all.
    by rewrite (bool_decide_eq_false_2 (line = [])). }
  split; [done|]. rewrite Heq. apply escape_or_nbsp_no_marker.
Qed.

(** * The shape of the matching blocks and of the operations *)

(** [R] holds between every element and the next. *)
Fixpoint adjacent {A} (R : relation A) (l : list A) : Prop :=
  match l with
  | [] => True
  | x :: l' => match l' with [] => True | y :: _ => R x y end ∧ adjacent R l'
  end.

Lemma adjacent_lookup {A} (R : relation A) (l : list A) :
  adjacent R l ↔ ∀ n x y, l !! n = Some x → l !! S n = Some y → R x y.
Proof.
  induction l as [|x l IH]; simpl.
  - split; [|done]. intros _ n x y Hn. by rewrite lookup_nil in Hn.
  - rewrite IH. split.
    + intros [Hhead Htail] [|n] x' y' Hx Hy.
      * simpl in Hx, Hy. destruct l as [|y l]; simplify_eq/=. done.
      * simpl in Hx. by eapply Htail.
    + intros Hall. split.
      * destruct l as [|y l]; [done|]. by apply (Hall 0).
      * intros n x' y' Hx Hy. by apply (Hall (S n)).
Qed.

Lemma adjacent_snoc {A} (R : relation A) (l : list A) (x y : A) :
  adjacent R (l ++ [x]) → R x y → adjacent R (l ++ [x; y]).
Proof.
  induction l as [|z l IH]; simpl; [tauto|].
  intros [Hhead Htail] Hxy. split; [|by apply IH].
  destruct l; simpl in *; done.
Qed.

Lemma adjacent_last {A} (R : relation A) (l : list A) (x x' : A) :
  adjacent R (l ++ [x]) → (∀ z, R z x → R z x') → adjacent R (l ++ [x']).
Proof.
  induction l as [|z l IH]; simpl; [tauto|].
  intros [Hhead Htail] Hchange. split; [|by apply IH].
  destruct l as [|w l]; simpl in *; [by apply Hchange|done].
Qed.

(** Two blocks that touch in both sequences. *)
Definition touching (m m' : block) : Prop :=
  m.1.1 + m.2 = m'.1.1 ∧ m.1.2 + m.2 = m'.1.2.

Lemma collapse_fold_apart (l : list block) : ∀ cur na,
  Forall (λ m, m.2 ≠ 0) l → (cur.2 = 0 → na = []) →
  adjacent (λ m m', ¬ touching m m') (na ++ current cur) →
  adjacent (λ m m', ¬ touching m m')
    ((foldl collapse_step (cur, na) l).2 ++ current (foldl collapse_step (cur, na) l).1).
Proof.
  induction l as [|[[i2 j2] k2] l IH]; intros [[i1 j1] k1] na Hpos Hdummy Hadj; [done|].
  apply Forall_cons_iff in Hpos as [Hk2 Hpos]. simpl in Hk2, Hdummy. simpl foldl.
  destruct (decide (i1 + k1 = i2 ∧ j1 + k1 = j2)) as [[<- <-]|Hapart].
  - rewrite bool_decide_eq_true_2 by done. apply IH; [done|simpl; lia|].
    rewrite current_pos by lia. destruct (decide (k1 = 0)) as [->|Hk1].
    + rewrite (Hdummy eq_refl). simpl. done.
    + rewrite current_pos in Hadj by done.
      eapply adjacent_last; [exact Hadj|]. intros z. unfold touching. simpl. done.
  - rewrite bool_decide_eq_false_2 by done.
    destruct (decide (k1 = 0)) as [->|Hk1].
    + rewrite bool_decide_eq_false_2 by lia. apply IH; [done|simpl; lia|].
      rewrite (Hdummy eq_refl), current_pos by done. simpl. done.
    + rewrite bool_decide_eq_true_2 by done. apply IH; [done|simpl; lia|].
      rewrite current_pos in * by done. rewrite <- (assoc_L (++)).
      apply adjacent_snoc; [done|]. unfold touching. simpl. done.
Qed.

Lemma collapse_apart (l : list block) :
  Forall (λ m, m.2 ≠ 0) l → adjacent (λ m m', ¬ touching m m') (collapse l).
Proof.
  intros Hpos. pose proof (collapse_fold_apart l (0, 0, 0) [] Hpos) as Hfold.
  unfold collapse. simpl in Hfold.
  destruct (foldl collapse_step (0, 0, 0, []) l) as [[[i1 j1] k1] na].
  unfold current in Hfold. simpl in Hfold. specialize (Hfold ltac:(done) ltac:(done)).
  case_bool_decide; [done|]. by rewrite app_nil_r in Hfold.
Qed.

(** The operations that one step of [get_opcodes] adds. *)
Definition block_ops (i j : nat) (m : block) : list opcode :=
  let '(ai, bj, size) := m in
  (if bool_decide (i < ai ∧ j < bj) then [(tag_replace, i, ai, j, bj)]
   else if bool_decide (i < ai) then [(tag_delete, i, ai, j, bj)]
   else if bool_decide (j < bj) then [(tag_insert, i, ai, j, bj)]
   else [])
  ++ (if bool_decide (size ≠ 0) then [(tag_equal, ai, ai + size, bj, bj + size)] else []).

Fixpoint ops_from (i j : nat) (l : list block) : list opcode :=
  match l with
  | [] => []
  | m :: l' => block_ops i j m ++ ops_from (m.1.1 + m.2) (m.1.2 + m.2) l'
  end.

Lemma opcode_step_ops (i j : nat) (answer : list opcode) (m : block) :
  opcode_step (i, j, answer) m = (m.1.1 + m.2, m.1.2 + m.2, answer ++ block_ops i j m).
Proof.
  destruct m as [[ai bj] size]. unfold opcode_step, block_ops.
  repeat case_bool_decide; simpl; rewrite ?app_nil_r, <- ?(assoc_L (++)); reflexivity.
Qed.

Lemma opcode_fold_ops (l : list block) : ∀ i j answer,
  (foldl opcode_step (i, j, answer) l).2 = answer ++ ops_from i j l.
Proof.
  induction l as [|m l IH]; intros i j answer.
  - simpl. by rewrite app_nil_r.
  - change (foldl opcode_step (i, j, answer) (m :: l))
      with (foldl opcode_step (opcode_step (i, j, answer) m) l).
    rewrite opcode_step_ops, IH. simpl. by rewrite <- (assoc_L (++)).
Qed.

(** Every block but the last has a size, and a block that has a size
    does not touch the block before it. *)
Definition starts_apart (i j : nat) (l : list block) : Prop :=
  match l with
  | [] => True
  | m :: _ => m.2 ≠ 0 → ¬ (i = m.1.1 ∧ j = m.1.2)
  end.

Fixpoint blocks_apart (l : list block) : Prop :=
  match l with
  | [] => True
  | m :: l' =>
      (l' ≠ [] → m.2 ≠ 0) ∧ starts_apart (m.1.1 + m.2) (m.1.2 + m.2) l' ∧ blocks_apart l'
  end.

Lemma blocks_apart_sentinel (l : list block) (i j : nat) :
  Forall (λ m, m.2 ≠ 0) l → adjacent (λ m m', ¬ touching m m') l →
  blocks_apart (l ++ [(i, j, 0)]).
Proof.
  induction l as [|m l IH]; intros Hpos Hadj; simpl.
  - split_and!; done.
  - apply Forall_cons_iff in Hpos as [Hm Hpos]. destruct Hadj as [Hhead Htail].
    split_and!; [done| |by apply IH].
    destruct l as [|m' l]; simpl; [done|]. intros _. exact Hhead.
Qed.

(** An operation is an equal one or a change. *)
Definition changes (o : opcode) : Prop := op_tag o ≠ tag_equal.

Definition alternate (o o' : opcode) : Prop := op_tag o = tag_equal ↔ changes o'.

Lemma ops_from_alternate (l : list block) : ∀ i j,
  blocks_chain i j l → blocks_apart l →
  adjacent alternate (ops_from i j l)
  ∧ (starts_apart i j l → ∀ o, head (ops_from i j l) = Some o → changes o).
Proof.
  induction l as [|[[ai bj] size] l IH]; intros i j Hchain Hapart.
  - simpl. split; [done|]. intros _ o Ho. done.
  - simpl in Hchain. destruct Hchain as (Hi & Hj & Hchain).
    simpl in Hapart. destruct Hapart as (Hsize & Hnext & Hapart).
    destruct (IH (ai + size) (bj + size) Hchain Hapart) as [IHalt IHhead].
    specialize (IHhead Hnext). cbn [ops_from fst snd].
    destruct (decide (size = 0)) as [->|Hpos].
    + assert (l = []) as ->.
      { destruct l; [done|]. exfalso. by apply Hsize. }
      simpl. rewrite app_nil_r. unfold block_ops.
      repeat case_bool_decide; simpl; (split; [done|]); intros _ o Ho;
        simplify_eq/=; try done.
    + unfold block_ops. rewrite (bool_decide_eq_true_2 (size ≠ 0)) by done.
      assert (match ops_from (ai + size) (bj + size) l with
              | [] => True
              | o' :: _ => alternate (tag_equal, ai, ai + size, bj, bj + size) o'
              end) as Hnexthead.
      { destruct (ops_from (ai + size) (bj + size) l) as [|o' rest] eqn:Hrest; [done|].
        unfold alternate. split; [intros _; by apply IHhead|done]. }
      repeat case_bool_decide; simpl.
      * split; [|intros _ o [= <-]; done].
        split_and!; [unfold alternate, changes, op_tag; simpl; split; done|done|done].
      * split; [|intros _ o [= <-]; done].
        split_and!; [unfold alternate, changes, op_tag; simpl; split; done|done|done].
      * split; [|intros _ o [= <-]; done].
        split_and!; [unfold alternate, changes, op_tag; simpl; split; done|done|done].
      * split; [split; done|]. intros Hstart. exfalso. apply Hstart; [done|]. simpl. lia.
Qed.

Section Shape.
Context {T : Type} `{Countable T}.
Variables (a b : list T).

(** The blocks of [get_matching_blocks] before the sentinel. *)
Lemma get_matching_blocks_shape :
  ∃ blocks,
    get_matching_blocks a b = blocks ++ [(length a, length b, 0)]
    ∧ blocks_chain 0 0 blocks
    ∧ Forall (block_good a b) blocks
    ∧ adjacent (λ m m', ¬ touching m m') blocks.
Proof.
  destruct (raw_matching_blocks_total a b) as (res & Hres & Hg & Hp).
  unfold get_matching_blocks. rewrite Hres. simpl.
  destruct (sorted_good_chain a b res Hg Hp) as [Hc Hg'].
  destruct (collapse_ok a b _ Hc Hg') as (Hc2 & Hg2 & _).
  eexists. split; [reflexivity|]. split_and!; [done..|].
  apply collapse_apart. eapply Forall_impl; [|exact Hg'].
  intros m (Hpos & _). lia.
Qed.

Lemma get_opcodes_adjacent : adjacent alternate (get_opcodes a b).
Proof.
  destruct get_matching_blocks_shape as (blocks & Heq & Hc & Hg & Hadj).
  unfold get_opcodes, opcodes_of_blocks. rewrite Heq, opcode_fold_ops. simpl.
  destruct (chain_end_bound a b blocks 0 0) as [He1 He2]; [lia|lia|done|].
  apply ops_from_alternate.
  - apply blocks_chain_app. split; [done|]. simpl. by split_and!.
  - apply blocks_apart_sentinel; [|done].
    eapply Forall_impl; [|exact Hg]. intros m (Hpos & _). lia.
Qed.

End Shape.

Lemma blocks_chain_adjacent (l : list block) : ∀ i j,
  blocks_chain i j l →
  adjacent (λ m m', m.1.1 + m.2 ≤ m'.1.1 ∧ m.1.2 + m.2 ≤ m'.1.2) l.
Proof.
  induction l as [|m l IH]; intros i j Hchain; simpl; [done|].
  simpl in Hchain. destruct Hchain as (_ & _ & Hchain). split; [|by eapply IH].
  destruct l as [|m' l]; [done|]. simpl in Hchain. tauto.
Qed.

(** * The matching blocks *)

(** X12.  [get_matching_blocks] returns blocks that have a size, lie within
    the two sequences and cover equal elements, followed by the sentinel
    [(len(a), len(b), 0)].  A block starts where the block before it
    ends or later, in both sequences, and later in one of them: two
    blocks never touch. *)
Theorem matching_blocks_structure {T : Type} `{Countable T} (a b : list T) :
  ∃ blocks : list block,
    get_matching_blocks a b = blocks ++ [(length a, length b, 0)]
    ∧ Forall (λ m, 0 < m.2 ∧ m.1.1 + m.2 ≤ length a ∧ m.1.2 + m.2 ≤ length b
                 ∧ ∀ t, t < m.2 →
                     ∃ x, a !! (m.1.1 + t) = Some x ∧ b !! (m.1.2 + t) = Some x) blocks
    ∧ (∀ n m m', blocks !! n = Some m → blocks !! S n = Some m' →
         m.1.1 + m.2 ≤ m'.1.1 ∧ m.1.2 + m.2 ≤ m'.1.2
         ∧ (m.1.1 + m.2 < m'.1.1 ∨ m.1.2 + m.2 < m'.1.2)).
Proof.
  destruct (get_matching_blocks_shape a b) as (blocks & Heq & Hc & Hg & Hadj).
  exists blocks. split; [done|]. split.
  - eapply Forall_impl; [|exact Hg]. intros m (Hpos & Ha & Hb & Hm).
    split_and!; [done..|]. intros t Ht. apply elt_eqb_true. by apply Hm.
  - intros n m m' Hn Hn'.
    pose proof (proj1 (adjacent_lookup _ _) (blocks_chain_adjacent _ _ _ Hc) n m m' Hn Hn')
      as [Hi Hj].
    pose proof (proj1 (adjacent_lookup _ _) Hadj n m m' Hn Hn') as Htouch.
    unfold touching in Htouch. split_and!; [done..|]. lia.
Qed.

(** * The operations *)

(** X13.  In the list of [get_opcodes], an equal operation is followed by a
    change and a change by an equal operation: no two changes, and no
    two equal operations, follow each other. *)
Theorem operations_alternate {T : Type} `{Countable T} (a b : list T)
    (n : nat) (o o' : opcode) :
  get_opcodes a b !! n = Some o → get_opcodes a b !! S n = Some o' →
  (op_tag o = tag_equal ↔ op_tag o' ≠ tag_equal).
Proof.
  intros Hn Hn'.
  apply (proj1 (adjacent_lookup _ _) (get_opcodes_adjacent a b) n o o' Hn Hn').
Qed.

Lemma operations_alternate_witness :
  op_tag (tag_equal, 0, 1, 0, 1) = tag_equal ↔ op_tag (tag_replace, 1, 2, 1, 2) ≠ tag_equal.
Proof.
  apply (operations_alternate (lit "hello") (lit "hallo") 0); reflexivity.
Defined.

(** * The changes among the operations *)

#[global] Instance changes_dec o : Decision (changes o).
Proof. unfold changes. apply _. Defined.

Lemma not_changes (o : opcode) : ¬ changes o ↔ op_tag o = tag_equal.
Proof.
  unfold changes. split.
  - intros Hno. by destruct (decide (op_tag o = tag_equal)).
  - intros Heq Hne. done.
Qed.

(** An equal operation [e] that fills the gap from [(i, j)] to
    [(i', j')]. *)
Definition fills (ops : list opcode) (i j i' j' : nat) : Prop :=
  ∃ e, e ∈ ops ∧ op_tag e = tag_equal
       ∧ op_i1 e = i ∧ op_j1 e = j ∧ op_i2 e = i' ∧ op_j2 e = j'.

Lemma fills_cons ops o i j i' j' : fills ops i j i' j' → fills (o :: ops) i j i' j'.
Proof. intros (e & He & Hrest). exists e. split; [by apply list_elem_of_further|done]. Qed.

(** Between two changes that follow each other in the filtered list
    there is one equal operation. *)
Lemma between_changes (ops : list opcode) : ∀ i j i' j',
  tiles i j ops i' j' → adjacent alternate ops →
  ∀ n o o', filter changes ops !! n = Some o → filter changes ops !! S n = Some o' →
  fills ops (op_i2 o) (op_j2 o) (op_i1 o') (op_j1 o').
Proof.
  induction ops as [|x ops IH]; intros i j i' j' Ht Hadj n o o' Hn Hn'; [done|].
  simpl in Ht. destruct Ht as (Hxi & Hxj & _ & _ & Ht). destruct Hadj as [Hhead Hadj].
  rewrite filter_cons in Hn, Hn'. destruct (decide (changes x)) as [Hx|Hx].
  - destruct n as [|n]; [|apply fills_cons; by eapply IH].
    simpl in Hn, Hn'. injection Hn as ->.
    destruct ops as [|e ops]; [done|].
    assert (op_tag e = tag_equal) as He.
    { apply not_changes. intros Hc. apply Hhead in Hc. by apply Hx. }
    rewrite filter_cons in Hn'.
    destruct (decide (changes e)) as [Hc|_]; [by apply not_changes in He|].
    simpl in Ht. destruct Ht as (Hei & Hej & _ & _ & Ht). destruct Hadj as [Hhead' Hadj].
    destruct ops as [|y ops]; [done|].
    assert (changes y) as Hy by (by apply Hhead').
    rewrite filter_cons in Hn'. destruct (decide (changes y)) as [_|Hny]; [|done].
    simpl in Hn'. injection Hn' as ->.
    simpl in Ht. destruct Ht as (Hyi & Hyj & _).
    exists e. split; [apply list_elem_of_further, list_elem_of_here|].
    split_and!; done.
  - apply fills_cons. by eapply IH.
Qed.

(** The first change starts where the operations start, or after one
    equal operation. *)
Lemma before_first_change (ops : list opcode) i j i' j' o :
  tiles i j ops i' j' → adjacent alternate ops →
  head (filter changes ops) = Some o →
  (op_i1 o = i ∧ op_j1 o = j) ∨ fills ops i j (op_i1 o) (op_j1 o).
Proof.
  intros Ht Hadj Ho. destruct ops as [|x ops]; [done|].
  simpl in Ht. destruct Ht as (Hxi & Hxj & _ & _ & Ht). destruct Hadj as [Hhead Hadj].
  rewrite filter_cons in Ho. destruct (decide (changes x)) as [Hx|Hx].
  - simpl in Ho. injection Ho as ->. by left.
  - right. destruct ops as [|y ops]; [done|].
    assert (changes y) as Hy by (by apply Hhead, not_changes).
    rewrite filter_cons in Ho. destruct (decide (changes y)) as [_|Hny]; [|done].
    simpl in Ho. injection Ho as ->. simpl in Ht. destruct Ht as (Hyi & Hyj & _).
    exists x. split; [apply list_elem_of_here|]. apply not_changes in Hx. split_and!; done.
Qed.

(** The last change ends where the operations end, or one equal
    operation before. *)
Lemma after_last_change (ops : list opcode) : ∀ i j i' j' o,
  tiles i j ops i' j' → adjacent alternate ops →
  list.last (filter changes ops) = Some o →
  (op_i2 o = i' ∧ op_j2 o = j') ∨ fills ops (op_i2 o) (op_j2 o) i' j'.
Proof.
  induction ops as [|x ops IH]; intros i j i' j' o Ht Hadj Ho; [done|].
  simpl in Ht. destruct Ht as (Hxi & Hxj & _ & _ & Ht). destruct Hadj as [Hhead Hadj].
  rewrite filter_cons in Ho.
  destruct (filter changes ops) as [|z rest] eqn:Hrest.
  - destruct (decide (changes x)) as [Hx|Hx]; [|done].
    simpl in Ho. injection Ho as ->.
    destruct ops as [|e ops]; [simpl in Ht; left; lia|]. right.
    assert (op_tag e = tag_equal) as He.
    { apply not_changes. intros Hc. apply Hhead in Hc. by apply Hx. }
    simpl in Ht. destruct Ht as (Hei & Hej & _ & _ & Ht). destruct Hadj as [Hhead' Hadj].
    destruct ops as [|y ops].
    + simpl in Ht. exists e. split; [apply list_elem_of_further, list_elem_of_here|].
      split_and!; [done|done|done|lia|lia].
    + exfalso. assert (changes y) as Hy by (by apply Hhead').
      rewrite !filter_cons in Hrest.
      destruct (decide (changes e)); [done|]. by destruct (decide (changes y)).
  - assert (list.last (z :: rest) = Some o) as Hlast.
    { destruct (decide (changes x)); [|done]. by rewrite last_cons_cons in Ho. }
    destruct (IH _ _ _ _ o Ht Hadj Hlast) as [Hend|Hfill]; [by left|].
    right. by apply fills_cons.
Qed.

(** Operations that are all equal align two sequences that are equal. *)
Lemma tiles_all_equal {T} (a b : list T) (ops : list opcode) : ∀ i j i' j',
  tiles i j ops i' j' → Forall (op_ok a b) ops → Forall (λ o, op_tag o = tag_equal) ops →
  i' - i = j' - j ∧ ∀ t, i + t < i' → ∃ x, a !! (i + t) = Some x ∧ b !! (j + t) = Some x.
Proof.
  induction ops as [|o ops IH]; intros i j i' j' Ht Hok Heq.
  - simpl in Ht. split; [lia|]. intros t Hlt. lia.
  - simpl in Ht. destruct Ht as (Hi & Hj & Hile & Hjle & Ht).
    apply Forall_cons_iff in Hok as [Ho Hok]. apply Forall_cons_iff in Heq as [Htag Heq].
    destruct (IH _ _ _ _ Ht Hok Heq) as [Hlen Hrest].
    pose proof (tiles_le _ _ _ _ _ Ht) as [Hle1 Hle2].
    unfold op_ok in Ho. rewrite Htag in Ho. destruct Ho as (Hlt & Hsz & Hsame).
    subst i j. split; [lia|]. intros t Hlt'.
    destruct (decide (op_i1 o + t < op_i2 o)) as [Hin|Hout]; [by apply Hsame|].
    destruct (Hrest (op_i1 o + t - op_i2 o)) as (x & Hx1 & Hx2); [lia|].
    exists x. split.
    + rewrite <- Hx1. f_equal. lia.
    + rewrite <- Hx2. f_equal. lia.
Qed.

Lemma filter_changes_nil (ops : list opcode) :
  filter changes ops = [] ↔ Forall (λ o, op_tag o = tag_equal) ops.
Proof.
  induction ops as [|o ops IH]; [split; [intros _; apply Forall_nil_2|done]|].
  rewrite filter_cons, Forall_cons_iff, <- IH, <- not_changes.
  destruct (decide (changes o)); split; try done; tauto.
Qed.

Section Changes.
Context {T : Type} `{Countable T}.
Variables (a b : list T).

Lemma get_opcodes_tiles : tiles 0 0 (get_opcodes a b) (length a) (length b).
Proof. by destruct (get_opcodes_partition a b) as (Ht & _). Qed.

Lemma get_opcodes_ok (o : opcode) : o ∈ get_opcodes a b → op_ok a b o.
Proof.
  intros Hin. destruct (get_opcodes_partition a b) as (_ & _ & _ & _ & Hok).
  rewrite Forall_forall in Hok. by apply Hok, list_elem_of_In.
Qed.

(** No change at all: the two sequences are the same. *)
Lemma get_opcodes_no_change :
  filter changes (get_opcodes a b) = [] ↔ a = b.
Proof.
  split.
  - intros Hnil. apply filter_changes_nil in Hnil.
    destruct (get_opcodes_partition a b) as (Ht & _ & _ & _ & Hok).
    destruct (tiles_all_equal a b _ _ _ _ _ Ht Hok Hnil) as [Hlen Hsame].
    apply list_eq. intros t. destruct (decide (t < length a)) as [Hlt|Hge].
    + destruct (Hsame t) as (x & Hx1 & Hx2); [lia|]. simpl in Hx1, Hx2.
      by rewrite Hx1, Hx2.
    + rewrite !lookup_ge_None_2; [done|lia..].
  - intros <-. rewrite get_opcodes_same. by case_bool_decide.
Qed.

(** A filled gap is a run of elements that the two sequences share. *)
Lemma fills_common i j i' j' :
  fills (get_opcodes a b) i j i' j' →
  0 < i' - i ∧ i' - i = j' - j
  ∧ ∀ t, i + t < i' → ∃ x, a !! (i + t) = Some x ∧ b !! (j + t) = Some x.
Proof.
  intros (e & He & Htag & <- & <- & <- & <-).
  apply get_opcodes_ok in He. unfold op_ok in He. rewrite Htag in He.
  destruct He as (Hlt & Hsz & Hsame). split_and!; [lia|lia|done].
Qed.

(** Sequences with no element in common: one change, which takes both
    sequences whole. *)
Lemma get_opcodes_nothing_common :
  (∀ x, x ∈ a → x ∉ b) →
  get_opcodes a b
  = if bool_decide (a = []) then
      if bool_decide (b = []) then [] else [(tag_insert, 0, 0, 0, length b)]
    else
      if bool_decide (b = []) then [(tag_delete, 0, length a, 0, 0)]
      else [(tag_replace, 0, length a, 0, length b)].
Proof.
  intros Hdisj.
  assert (Forall changes (get_opcodes a b)) as Hall.
  { apply Forall_forall. intros o Ho Htag. apply list_elem_of_In in Ho.
    apply get_opcodes_ok in Ho. unfold op_ok in Ho. rewrite Htag in Ho.
    destruct Ho as (Hlt & _ & Hsame). destruct (Hsame 0) as (x & Hx1 & Hx2); [lia|].
    apply (Hdisj x); by eapply list_elem_of_lookup_2. }
  pose proof get_opcodes_tiles as Ht. pose proof (get_opcodes_adjacent a b) as Hadj.
  pose proof get_opcodes_ok as Hok.
  destruct (get_opcodes a b) as [|o [|o' ops]].
  - simpl in Ht. destruct Ht as [Ha Hb].
    symmetry in Ha, Hb. apply length_zero_iff_nil in Ha, Hb. subst. done.
  - simpl in Ht. destruct Ht as (Hi & Hj & _ & _ & Hi2 & Hj2).
    specialize (Hok o ltac:(apply list_elem_of_here)).
    apply Forall_cons_iff in Hall as [Ho _]. unfold changes in Ho.
    destruct o as [[[[t i1] i2] j1] j2]. unfold op_ok, op_tag, op_i1, op_i2, op_j1, op_j2 in *.
    simpl in *. subst.
    destruct t; [done|..]; destruct Hok as [Hok1 Hok2].
    + assert (a = []) as -> by (by apply length_zero_iff_nil).
      assert (b ≠ []) by (intros ->; simpl in *; lia).
      rewrite bool_decide_eq_true_2, bool_decide_eq_false_2 by done. done.
    + assert (b = []) as -> by (by apply length_zero_iff_nil).
      assert (a ≠ []) by (intros ->; simpl in *; lia).
      rewrite bool_decide_eq_false_2, bool_decide_eq_true_2 by done. by rewrite <- Hok2.
    + assert (a ≠ []) by (intros ->; simpl in *; lia).
      assert (b ≠ []) by (intros ->; simpl in *; lia).
      by rewrite !bool_decide_eq_false_2 by done.
  - exfalso. destruct Hadj as [Hhead _]. unfold alternate in Hhead.
    apply Forall_cons_iff in Hall as [Ho Hall]. apply Forall_cons_iff in Hall as [Ho' _].
    apply Ho. by apply Hhead.
Qed.

End Changes.

(** * The chunks *)

Lemma compute_diff_changes (text_a text_b : str) :
  compute_diff text_a text_b
  = chunk_of_opcode <$> filter changes (get_opcodes (splitlines text_a) (splitlines text_b)).
Proof. unfold compute_diff. by rewrite compute_diff_fold. Qed.

Lemma chunk_of_opcode_fields (o : opcode) :
  tag_of (chunk_of_opcode o) = op_tag o
  ∧ start_a (chunk_of_opcode o) = Z.of_nat (op_i1 o)
  ∧ end_a (chunk_of_opcode o) = Z.of_nat (op_i2 o)
  ∧ start_b (chunk_of_opcode o) = Z.of_nat (op_j1 o)
  ∧ end_b (chunk_of_opcode o) = Z.of_nat (op_j2 o).
Proof. by destruct o as [[[[t i1] i2] j1] j2]. Qed.

Lemma compute_diff_lookup (text_a text_b : str) (n : nat) (c : DiffChunk) :
  compute_diff text_a text_b !! n = Some c →
  ∃ o, filter changes (get_opcodes (splitlines text_a) (splitlines text_b)) !! n = Some o
       ∧ c = chunk_of_opcode o.
Proof.
  rewrite compute_diff_changes, list_lookup_fmap. intros Hn.
  destruct (filter changes _ !! n) as [o|]; [|done]. exists o. by simplify_eq/=.
Qed.

Lemma compute_diff_elem (text_a text_b : str) (c : DiffChunk) :
  c ∈ compute_diff text_a text_b ↔
  ∃ o, o ∈ get_opcodes (splitlines text_a) (splitlines text_b) ∧ changes o
       ∧ c = chunk_of_opcode o.
Proof.
  rewrite compute_diff_changes, list_elem_of_fmap. split.
  - intros (o & -> & Ho). apply list_elem_of_filter in Ho as [Hc Ho]. by exists o.
  - intros (o & Ho & Hc & ->). exists o. split; [done|]. by apply list_elem_of_filter.
Qed.

(** [classify] finds no chunk exactly when no chunk holds the line. *)
Lemma classify_none (is_left : bool) (i : nat) (chunks : list DiffChunk) :
  (classify is_left i chunks).2 = None ↔ ∀ c, c ∈ chunks → ¬ in_chunk is_left c i.
Proof.
  induction chunks as [|c chunks IH]; simpl.
  - split; [|done]. intros _ c Hc. by apply elem_of_nil in Hc.
  - case_bool_decide as Hin; simpl.
    + split; [done|]. intros Hall. exfalso. apply (Hall c); [apply list_elem_of_here|done].
    + rewrite IH. split.
      * intros Hall c' [->|Hc']%elem_of_cons; [done|by apply Hall].
      * intros Hall c' Hc'. by apply Hall, list_elem_of_further.
Qed.

(** The sizes of the two sequences and of the changes. *)
Lemma tiles_balance {T} (a b : list T) (ops : list opcode) : ∀ i j i' j',
  tiles i j ops i' j' → Forall (op_ok a b) ops →
  (i' - i) + sum_list_with (λ o, op_j2 o - op_j1 o) (filter changes ops)
  = (j' - j) + sum_list_with (λ o, op_i2 o - op_i1 o) (filter changes ops).
Proof.
  induction ops as [|o ops IH]; intros i j i' j' Ht Hok.
  - simpl in Ht. simpl. lia.
  - simpl in Ht. destruct Ht as (Hi & Hj & Hile & Hjle & Ht).
    apply Forall_cons_iff in Hok as [Ho Hok]. specialize (IH _ _ _ _ Ht Hok).
    pose proof (tiles_le _ _ _ _ _ Ht) as [Hle1 Hle2].
    rewrite filter_cons. destruct (decide (changes o)) as [Hc|Hc].
    + simpl. lia.
    + apply not_changes in Hc. unfold op_ok in Ho. rewrite Hc in Ho. lia.
Qed.

(** ** No chunk *)

(** X14.  [compute_diff] returns no chunk exactly when the two texts have the
    same lines. *)
Theorem no_chunk_iff_same_lines (text_a text_b : str) :
  compute_diff text_a text_b = [] ↔ splitlines text_a = splitlines text_b.
Proof.
  rewrite compute_diff_changes, <- get_opcodes_no_change. split.
  - apply fmap_nil_inv.
  - by intros ->.
Qed.

(** ** The empty text *)

(** X15.  Against the empty text, or any text without a line, a text with
    lines is one insert chunk, or one delete chunk, of all its lines. *)
Theorem compute_diff_empty_text (text : str) :
  compute_diff [] text
  = (if bool_decide (splitlines text = []) then []
     else [mkDiffChunk tag_insert 0 0 0 (Z.of_nat (length (splitlines text)))])
  ∧ compute_diff text []
    = (if bool_decide (splitlines text = []) then []
       else [mkDiffChunk tag_delete 0 (Z.of_nat (length (splitlines text))) 0 0]).
Proof.
  rewrite !compute_diff_changes. change (splitlines []) with (@nil str). split.
  - rewrite get_opcodes_nothing_common by (intros x Hx; by apply elem_of_nil in Hx).
    rewrite (bool_decide_eq_true_2 ([] = [])) by done. by case_bool_decide.
  - rewrite get_opcodes_nothing_common by (intros x _ Hx; by apply elem_of_nil in Hx).
    rewrite (bool_decide_eq_true_2 ([] = [])) by done. by case_bool_decide.
Qed.

(** ** Texts without a common line *)

(** X16.  Two texts that have lines, and no line in common, are one replace
    chunk that takes all the lines of both. *)
Theorem compute_diff_nothing_common (text_a text_b : str) :
  splitlines text_a ≠ [] → splitlines text_b ≠ [] →
  (∀ line, line ∈ splitlines text_a → line ∉ splitlines text_b) →
  compute_diff text_a text_b
  = [mkDiffChunk tag_replace 0 (Z.of_nat (length (splitlines text_a)))
       0 (Z.of_nat (length (splitlines text_b)))].
Proof.
  intros Ha Hb Hdisj. rewrite compute_diff_changes, get_opcodes_nothing_common by done.
  by rewrite !bool_decide_eq_false_2 by done.
Qed.

Lemma compute_diff_nothing_common_witness :
  compute_diff (lit "old 1" ++ [LF] ++ lit "old 2") (lit "new")
  = [mkDiffChunk tag_replace 0 2 0 1].
Proof.
  apply (compute_diff_nothing_common (lit "old 1" ++ [LF] ++ lit "old 2") (lit "new")).
  - by vm_compute.
  - by vm_compute.
  - intros line Ha Hb. revert Ha. vm_compute in Hb.
    apply list_elem_of_singleton in Hb as ->. by_compute.
Defined.

(** ** The ranges of a chunk *)

(** X17.  The ranges of every chunk lie within the lines of the two texts,
    and agree with its tag: an insert has no line of the first text, a
    delete no line of the second, a replace lines of both; no chunk is
    empty on both sides. *)
Theorem chunk_ranges_valid (text_a text_b : str) :
  Forall (λ c,
      (0 ≤ start_a c ≤ end_a c)%Z ∧ (end_a c ≤ Z.of_nat (length (splitlines text_a)))%Z
      ∧ (0 ≤ start_b c ≤ end_b c)%Z ∧ (end_b c ≤ Z.of_nat (length (splitlines text_b)))%Z
      ∧ match tag_of c with
        | tag_equal => False
        | tag_insert => start_a c = end_a c ∧ (start_b c < end_b c)%Z
        | tag_delete => (start_a c < end_a c)%Z ∧ start_b c = end_b c
        | tag_replace => (start_a c < end_a c)%Z ∧ (start_b c < end_b c)%Z
        end)
    (compute_diff text_a text_b).
Proof.
  apply Forall_forall. intros c Hc.
  apply list_elem_of_In, compute_diff_elem in Hc as (o & Ho & Hch & ->).
  pose proof (get_opcodes_ok _ _ o Ho) as Hok.
  apply list_elem_of_lookup_1 in Ho as [n Hn].
  pose proof (tiles_bounds _ _ _ _ _ _ _ (get_opcodes_tiles _ _) Hn) as Hb.
  destruct (chunk_of_opcode_fields o) as (-> & -> & -> & -> & ->).
  unfold changes in Hch. unfold op_ok in Hok.
  split_and!; [lia..|]. destruct (op_tag o); [done|lia..].
Qed.

(** ** What lies between the chunks *)

(** X18.  Between two chunks that follow each other there is at least one
    line, the lines between them are as many in the two texts, and they
    are the same lines. *)
Theorem chunks_separated (text_a text_b : str) (n : nat) (c c' : DiffChunk) :
  compute_diff text_a text_b !! n = Some c →
  compute_diff text_a text_b !! S n = Some c' →
  ∃ k, 0 < k
    ∧ start_a c' = (end_a c + Z.of_nat k)%Z ∧ start_b c' = (end_b c + Z.of_nat k)%Z
    ∧ ∀ t, t < k →
        ∃ line, splitlines text_a !! (Z.to_nat (end_a c) + t) = Some line
                ∧ splitlines text_b !! (Z.to_nat (end_b c) + t) = Some line.
Proof.
  intros (o & Ho & ->)%compute_diff_lookup (o' & Ho' & ->)%compute_diff_lookup.
  pose proof (between_changes _ _ _ _ _ (get_opcodes_tiles _ _)
                (get_opcodes_adjacent _ _) n o o' Ho Ho') as Hfill.
  apply fills_common in Hfill as (Hpos & Hsz & Hsame).
  destruct (chunk_of_opcode_fields o) as (_ & _ & -> & _ & ->).
  destruct (chunk_of_opcode_fields o') as (_ & -> & _ & -> & _).
  exists (op_i1 o' - op_i2 o). split_and!; [lia..|].
  intros t Ht. rewrite !Nat2Z.id. apply Hsame. lia.
Qed.

Lemma chunks_separated_witness :
  ∃ k, 0 < k
    ∧ start_a (mkDiffChunk tag_replace 3 4 3 5)
      = (end_a (mkDiffChunk tag_replace 1 2 1 2) + Z.of_nat k)%Z
    ∧ start_b (mkDiffChunk tag_replace 3 4 3 5)
      = (end_b (mkDiffChunk tag_replace 1 2 1 2) + Z.of_nat k)%Z
    ∧ ∀ t, t < k →
        ∃ line,
          splitlines (join [LF] [lit "A"; lit "B"; lit "C"; lit "D"])
            !! (Z.to_nat (end_a (mkDiffChunk tag_replace 1 2 1 2)) + t) = Some line
          ∧ splitlines (join [LF] [lit "A"; lit "X"; lit "C"; lit "Y"; lit "Z"])
              !! (Z.to_nat (end_b (mkDiffChunk tag_replace 1 2 1 2)) + t) = Some line.
Proof.
  apply (chunks_separated (join [LF] [lit "A"; lit "B"; lit "C"; lit "D"])
           (join [LF] [lit "A"; lit "X"; lit "C"; lit "Y"; lit "Z"]) 0); reflexivity.
Defined.

(** X19.  Before the first chunk and after the last one the two texts have
    the same lines: the first chunk starts at the same line number in
    both, and as many lines follow the last chunk in both. *)
Theorem chunks_common_ends (text_a text_b : str) :
  (∀ c, compute_diff text_a text_b !! 0 = Some c →
     start_a c = start_b c
     ∧ ∀ t, (Z.of_nat t < start_a c)%Z →
         ∃ line, splitlines text_a !! t = Some line ∧ splitlines text_b !! t = Some line)
  ∧ (∀ c, list.last (compute_diff text_a text_b) = Some c →
       (Z.of_nat (length (splitlines text_a)) - end_a c
        = Z.of_nat (length (splitlines text_b)) - end_b c)%Z
       ∧ ∀ t, (end_a c + Z.of_nat t < Z.of_nat (length (splitlines text_a)))%Z →
           ∃ line, splitlines text_a !! (Z.to_nat (end_a c) + t) = Some line
                   ∧ splitlines text_b !! (Z.to_nat (end_b c) + t) = Some line).
Proof.
  pose proof (get_opcodes_tiles (splitlines text_a) (splitlines text_b)) as Ht.
  pose proof (get_opcodes_adjacent (splitlines text_a) (splitlines text_b)) as Hadj.
  split.
  - intros c (o & Ho & ->)%compute_diff_lookup. rewrite <- head_lookup in Ho.
    destruct (chunk_of_opcode_fields o) as (_ & -> & _ & -> & _).
    destruct (before_first_change _ _ _ _ _ _ Ht Hadj Ho) as [[-> ->]|Hfill].
    + split; [done|]. intros t Hlt. lia.
    + apply fills_common in Hfill as (Hpos & Hsz & Hsame).
      split; [lia|]. intros t Hlt. apply (Hsame t). lia.
  - intros c Hlast. rewrite compute_diff_changes, fmap_last in Hlast.
    destruct (list.last (filter changes _)) as [o|] eqn:Ho; [|done].
    simpl in Hlast. injection Hlast as <-.
    destruct (chunk_of_opcode_fields o) as (_ & _ & -> & _ & ->).
    destruct (after_last_change _ _ _ _ _ _ Ht Hadj Ho) as [[Hi Hj]|Hfill].
    + split; [lia|]. intros t Hlt. lia.
    + apply fills_common in Hfill as (Hpos & Hsz & Hsame).
      split; [lia|]. intros t Hlt. rewrite !Nat2Z.id. apply Hsame. lia.
Qed.

(** X20.  The chunks account for the whole difference between the numbers
    of lines: the lines of the first text with the lines that the chunks
    take of the second text are as many as the lines of the second text
    with the lines that the chunks take of the first. *)
Theorem chunks_balance (text_a text_b : str) :
  length (splitlines text_a)
  + sum_list_with (λ c, Z.to_nat (end_b c - start_b c)) (compute_diff text_a text_b)
  = length (splitlines text_b)
    + sum_list_with (λ c, Z.to_nat (end_a c - start_a c)) (compute_diff text_a text_b).
Proof.
  pose proof (get_opcodes_partition (splitlines text_a) (splitlines text_b))
    as (Ht & _ & _ & _ & Hok).
  pose proof (tiles_balance _ _ _ _ _ _ _ Ht Hok) as Hbal.
  rewrite !Nat.sub_0_r in Hbal. rewrite compute_diff_changes.
  assert (∀ (f : DiffChunk → nat) (g : opcode → nat) (l : list opcode),
            (∀ o, f (chunk_of_opcode o) = g o) →
            sum_list_with f (chunk_of_opcode <$> l) = sum_list_with g l) as Hsum.
  { intros f g l Hfg. induction l as [|o l IH]; [done|]. simpl. rewrite Hfg.
    f_equal. exact IH. }
  rewrite (Hsum _ (λ o, op_j2 o - op_j1 o)), (Hsum _ (λ o, op_i2 o - op_i1 o)); [done|..].
  - intros o. destruct (chunk_of_opcode_fields o) as (_ & -> & -> & _). lia.
  - intros o. destruct (chunk_of_opcode_fields o) as (_ & _ & _ & -> & ->). lia.
Qed.

(** ** The lines outside the chunks *)

(** X21.  A line of the first text that no chunk holds is a line of the
    second text as well, at a place that no chunk holds either; and the
    same with the two texts exchanged. *)
Theorem line_outside_chunks_common (text_a text_b : str) :
  (∀ i line,
     splitlines text_a !! i = Some line →
     (classify true i (compute_diff text_a text_b)).2 = None →
     ∃ j, splitlines text_b !! j = Some line
          ∧ (classify false j (compute_diff text_a text_b)).2 = None)
  ∧ (∀ j line,
       splitlines text_b !! j = Some line →
       (classify false j (compute_diff text_a text_b)).2 = None →
       ∃ i, splitlines text_a !! i = Some line
            ∧ (classify true i (compute_diff text_a text_b)).2 = None).
Proof.
  pose proof (get_opcodes_tiles (splitlines text_a) (splitlines text_b)) as Ht.
  split.
  - intros i line Hline Hnone. rewrite classify_none in Hnone.
    destruct (tiles_cover_a _ _ _ _ _ i Ht) as (n & o & Hn & Hrange).
    { apply lookup_lt_Some in Hline. lia. }
    assert (o ∈ get_opcodes (splitlines text_a) (splitlines text_b)) as Ho.
    { by eapply list_elem_of_lookup_2. }
    assert (op_tag o = tag_equal) as Htag.
    { apply not_changes. intros Hc. apply (Hnone (chunk_of_opcode o)).
      - apply compute_diff_elem. by exists o.
      - unfold in_chunk. destruct (chunk_of_opcode_fields o) as (_ & -> & -> & _). lia. }
    pose proof (get_opcodes_ok _ _ o Ho) as Hok. unfold op_ok in Hok. rewrite Htag in Hok.
    destruct Hok as (Hlt & Hsz & Hsame).
    destruct (Hsame (i - op_i1 o)) as (x & Hx1 & Hx2); [lia|].
    replace (op_i1 o + (i - op_i1 o)) with i in Hx1 by lia.
    exists (op_j1 o + (i - op_i1 o)). split; [congruence|].
    apply classify_none. intros c (o' & Ho' & Hc' & ->)%compute_diff_elem.
    unfold in_chunk. destruct (chunk_of_opcode_fields o') as (_ & _ & _ & -> & ->).
    apply list_elem_of_lookup_1 in Ho' as [m Hm].
    destruct (decide (m = n)) as [->|Hne].
    { rewrite Hn in Hm. injection Hm as <-. by apply not_changes in Htag. }
    destruct (decide (m < n)) as [Hmn|Hnm].
    + pose proof (tiles_ordered _ _ _ _ _ _ _ _ _ Ht Hmn Hm Hn). lia.
    + assert (n < m) as Hlt' by lia.
      pose proof (tiles_ordered _ _ _ _ _ _ _ _ _ Ht Hlt' Hn Hm). lia.
  - intros j line Hline Hnone. rewrite classify_none in Hnone.
    destruct (tiles_cover_b _ _ _ _ _ j Ht) as (n & o & Hn & Hrange).
    { apply lookup_lt_Some in Hline. lia. }
    assert (o ∈ get_opcodes (splitlines text_a) (splitlines text_b)) as Ho.
    { by eapply list_elem_of_lookup_2. }
    assert (op_tag o = tag_equal) as Htag.
    { apply not_changes. intros Hc. apply (Hnone (chunk_of_opcode o)).
      - apply compute_diff_elem. by exists o.
      - unfold in_chunk. destruct (chunk_of_opcode_fields o) as (_ & _ & _ & -> & ->). lia. }
    pose proof (get_opcodes_ok _ _ o Ho) as Hok. unfold op_ok in Hok. rewrite Htag in Hok.
    destruct Hok as (Hlt & Hsz & Hsame).
    destruct (Hsame (j - op_j1 o)) as (x & Hx1 & Hx2); [lia|].
    replace (op_j1 o + (j - op_j1 o)) with j in Hx2 by lia.
    exists (op_i1 o + (j - op_j1 o)). split; [congruence|].
    apply classify_none. intros c (o' & Ho' & Hc' & ->)%compute_diff_elem.
    unfold in_chunk. destruct (chunk_of_opcode_fields o') as (_ & -> & -> & _).
    apply list_elem_of_lookup_1 in Ho' as [m Hm].
    destruct (decide (m = n)) as [->|Hne].
    { rewrite Hn in Hm. injection Hm as <-. by apply not_changes in Htag. }
    destruct (decide (m < n)) as [Hmn|Hnm].
    + pose proof (tiles_ordered _ _ _ _ _ _ _ _ _ Ht Hmn Hm Hn). lia.
    + assert (n < m) as Hlt' by lia.
      pose proof (tiles_ordered _ _ _ _ _ _ _ _ _ Ht Hlt' Hn Hm). lia.
Qed.

(** * The markup of the projected lines *)

Lemma opens_own_tags_plain (s : str) : LT ∉ s → opens_own_tags s.
Proof.
  intros Hno pre post ->. exfalso. apply Hno.
  apply elem_of_app. right. apply list_elem_of_here.
Qed.

Lemma opens_own_tags_app (x y : str) :
  opens_own_tags x → opens_own_tags y → opens_own_tags (x ++ y).
Proof.
  intros Hx Hy pre post Heq.
  apply app_eq_app in Heq as [l [[Hx' Hl]|[Hpre Hl]]].
  - (* the [<] lies in [x], or is the first character of [y] *)
    destruct l as [|c l].
    + simpl in Hl. destruct (Hy [] post) as (tag & rest & Htag & Hrest); [by symmetry|].
      by exists tag, rest.
    + simpl in Hl. injection Hl as <- Hpost.
      destruct (Hx pre l) as (tag & rest & Htag & Hrest); [done|].
      exists tag, (rest ++ y). split; [done|].
      rewrite Hpost. rewrite (assoc_L (++)), <- Hrest. done.
  - (* the [<] lies in [y] *)
    destruct (Hy l post) as (tag & rest & Htag & Hrest); [done|]. by exists tag, rest.
Qed.

Lemma opens_own_tags_tag (tag t : str) :
  tag ∈ own_tags → tag = LT :: t → LT ∉ t → opens_own_tags tag.
Proof.
  intros Htag -> Hno pre post Heq. destruct pre as [|c pre].
  - simpl in Heq. exists (LT :: t), []. split; [done|]. rewrite app_nil_r. by rewrite Heq.
  - exfalso. simpl in Heq. injection Heq as _ Heq. apply Hno. rewrite Heq.
    apply elem_of_app. right. apply list_elem_of_here.
Qed.

Lemma opens_own_tags_concat (l : list str) :
  Forall opens_own_tags l → opens_own_tags (concat l).
Proof.
  induction 1 as [|x l Hx _ IH]; simpl.
  - by apply opens_own_tags_plain, not_elem_of_nil.
  - by apply opens_own_tags_app.
Qed.

Lemma opens_own_tags_join (sep : str) (l : list str) :
  opens_own_tags sep → Forall opens_own_tags l → opens_own_tags (join sep l).
Proof.
  intros Hsep. induction 1 as [|x l Hx Hl IH]; simpl.
  - by apply opens_own_tags_plain, not_elem_of_nil.
  - destruct l as [|y l]; [done|]. by repeat apply opens_own_tags_app.
Qed.

(** The digits of a number. *)
Lemma string_of_uint_no_lt (d : Decimal.uint) : LT ∉ lit (NilEmpty.string_of_uint d).
Proof.
  induction d; simpl; [apply not_elem_of_nil|..];
    (apply not_elem_of_cons; split; [by vm_compute|done]).
Qed.

Lemma str_of_nat_no_lt (n : nat) : LT ∉ str_of_nat n.
Proof. apply string_of_uint_no_lt. Qed.

(** The pieces of the markup. *)
Ltac own_tags_pieces :=
  repeat first
    [ apply opens_own_tags_app
    | apply opens_own_tags_plain;
        first [apply str_of_nat_no_lt | apply html_escape_no_lt | by_compute]
    | eapply opens_own_tags_tag; [by_compute|reflexivity|by_compute] ].

Lemma SPAN_OPEN_own : opens_own_tags SPAN_OPEN.
Proof. unfold SPAN_OPEN. own_tags_pieces. Qed.

Lemma SPAN_CLOSE_own : opens_own_tags SPAN_CLOSE.
Proof. unfold SPAN_CLOSE. own_tags_pieces. Qed.

Lemma escape_or_nbsp_own (line : str) : opens_own_tags (escape_or_nbsp line).
Proof. apply opens_own_tags_plain, escape_or_nbsp_no_lt. Qed.

Lemma render_run_own (line : str) (o : opcode) : opens_own_tags (render_run line o).
Proof.
  unfold render_run. destruct (op_tag o).
  - apply opens_own_tags_plain, html_escape_no_lt.
  - by apply opens_own_tags_plain, not_elem_of_nil.
  - apply opens_own_tags_app; [apply SPAN_OPEN_own|].
    apply opens_own_tags_app; [|apply SPAN_CLOSE_own].
    apply opens_own_tags_plain, html_escape_no_lt.
  - apply opens_own_tags_app; [apply SPAN_OPEN_own|].
    apply opens_own_tags_app; [|apply SPAN_CLOSE_own].
    apply opens_own_tags_plain, html_escape_no_lt.
Qed.

Lemma format_line_own (diff : str → str → list opcode) (line other_line : str)
    (is_changed : bool) :
  opens_own_tags (format_line_with_inline_diff_using diff line other_line is_changed).
Proof.
  unfold format_line_with_inline_diff_using.
  destruct (negb is_changed || bool_decide (line = []) || bool_decide (other_line = []));
    [apply escape_or_nbsp_own|].
  destruct (bool_decide (INLINE_HIGHLIGHT_LIMIT < length line + length other_line));
    [apply escape_or_nbsp_own|].
  case_bool_decide; [apply opens_own_tags_plain; by_compute|].
  rewrite join_nil, render_fold_concat. simpl.
  apply opens_own_tags_concat, Forall_fmap, Forall_forall. intros o _. apply render_run_own.
Qed.

Lemma format_paired_own (is_left : bool) (i : nat) (line : str) (other_lines : list str)
    (chunks : list DiffChunk) :
  opens_own_tags (format_paired is_left i line other_lines chunks).
Proof.
  induction chunks as [|chunk chunks IH]; simpl; [apply escape_or_nbsp_own|].
  case_bool_decide; [|done]. case_bool_decide; [|apply escape_or_nbsp_own].
  destruct (other_lines !! _); [apply format_line_own|apply escape_or_nbsp_own].
Qed.

Lemma formatted_line_own (is_left : bool) (i : nat) (line : str) (other_lines : list str)
    (chunks : list DiffChunk) :
  opens_own_tags (formatted_line is_left i line other_lines chunks).
Proof.
  unfold formatted_line. case_bool_decide; [apply format_paired_own|apply escape_or_nbsp_own].
Qed.

Lemma classify_no_lt (is_left : bool) (i : nat) (chunks : list DiffChunk) :
  LT ∉ (classify is_left i chunks).1.
Proof.
  induction chunks as [|chunk chunks IH]; simpl; [apply not_elem_of_nil|].
  case_bool_decide; [|done]. simpl. destruct (tag_of chunk); by_compute.
Qed.

Lemma line_record_own (chunk_class : str) (i : nat) (content : str) :
  LT ∉ chunk_class → opens_own_tags content →
  opens_own_tags (line_record chunk_class i content).
Proof.
  intros Hclass Hcontent. unfold line_record.
  repeat first
    [ apply opens_own_tags_app
    | exact Hcontent
    | apply opens_own_tags_plain; first [exact Hclass | apply str_of_nat_no_lt | by_compute]
    | eapply opens_own_tags_tag; [by_compute|reflexivity|by_compute] ].
Qed.

Lemma not_contains_script (out : str) :
  opens_own_tags out → ¬ contains (lit "<script") out.
Proof.
  intros Hown (pre & post & ->).
  destruct (Hown pre (lit "script" ++ post) eq_refl) as (tag & rest & Htag & Hrest).
  unfold own_tags in Htag. rewrite !elem_of_cons, elem_of_nil in Htag.
  destruct Htag as [->|[->|[->|[->|[]]]]]; simpl in Hrest; simplify_eq.
Qed.

Lemma format_lines_own (lines other_lines : list str) (chunks : list DiffChunk)
    (is_left : bool) :
  opens_own_tags (format_lines lines other_lines chunks is_left).
Proof.
  unfold format_lines. rewrite format_lines_records_imap.
  apply opens_own_tags_join; [apply opens_own_tags_plain; by_compute|].
  apply Forall_forall. intros record Hin. apply list_elem_of_In in Hin.
  apply list_elem_of_lookup_1 in Hin as [i Hi].
  rewrite list_lookup_imap in Hi. destruct (lines !! i) as [line|]; [|done].
  simpl in Hi. injection Hi as <-. unfold record_of.
  apply line_record_own; [apply classify_no_lt|apply formatted_line_own].
Qed.

(** X22.  Every [<] in what the highlighter returns opens a tag of its
    own, whatever the two lines.  So does every [<] in what the
    projector returns for the chunks of [compute_diff], whatever the
    lines: the text of the lines opens no tag, and the output holds no
    [<script].  (A chunk made by hand could carry any string as its
    tag, which the source writes as it is into the class of the line;
    the chunks of [compute_diff] carry the tags of [difflib].) *)
Theorem markup_tags_own :
  (∀ (line other_line : str) (is_changed : bool),
     opens_own_tags (format_line_with_inline_diff line other_line is_changed))
  ∧ (∀ (text_a text_b : str) (lines other_lines : list str) (is_left : bool),
       opens_own_tags
         (format_lines lines other_lines (compute_diff text_a text_b) is_left)
       ∧ ¬ contains (lit "<script")
             (format_lines lines other_lines (compute_diff text_a text_b) is_left)).
Proof.
  split; [intros; apply format_line_own|].
  intros text_a text_b lines other_lines is_left.
  pose proof (format_lines_own lines other_lines (compute_diff text_a text_b) is_left)
    as Hown.
  split; [done|]. by apply not_contains_script.
Qed.

(** * The runs of the inline highlighter, again *)

Lemma slice_eq {A} (a b : list A) (i1 i2 j1 j2 : nat) :
  i2 - i1 = j2 - j1 →
  (∀ t, i1 + t < i2 → ∃ x, a !! (i1 + t) = Some x ∧ b !! (j1 + t) = Some x) →
  slice a i1 i2 = slice b j1 j2.
Proof.
  intros Hsz Hsame. unfold slice. rewrite <- Hsz. apply list_eq. intros t.
  destruct (decide (t < i2 - i1)) as [Hlt|Hge].
  - rewrite !lookup_take_lt, !lookup_drop by done.
    destruct (Hsame t) as (x & -> & ->); [lia|done].
  - by rewrite !lookup_take_ge by lia.
Qed.

Lemma equal_runs_sublist {A} (a b : list A) (ops : list opcode) : ∀ i j i' j',
  tiles i j ops i' j' → Forall (op_ok a b) ops →
  concat ((λ o, slice a (op_i1 o) (op_i2 o)) <$> filter (λ o, op_tag o = tag_equal) ops)
  `sublist_of` slice b j j'.
Proof.
  induction ops as [|o ops IH]; intros i j i' j' Ht Hok.
  - simpl. apply sublist_nil_l.
  - simpl in Ht. destruct Ht as (Hi & Hj & Hile & Hjle & Ht).
    apply Forall_cons_iff in Hok as [Ho Hok]. specialize (IH _ _ _ _ Ht Hok).
    pose proof (tiles_le _ _ _ _ _ Ht) as [Hle1 Hle2].
    subst j. rewrite <- (slice_app b (op_j1 o) (op_j2 o) j') by done.
    rewrite filter_cons. destruct (decide (op_tag o = tag_equal)) as [Htag|Htag].
    + simpl. unfold op_ok in Ho. rewrite Htag in Ho. destruct Ho as (_ & Hsz & Hsame).
      rewrite (slice_eq a b _ _ (op_j1 o) (op_j2 o)) by done.
      by apply sublist_app.
    + by apply sublist_inserts_l.
Qed.

(** X23.  The runs of a line that the highlighter leaves without a marker,
    the equal runs, are in this order a subsequence of the other line. *)
Theorem unmarked_runs_subsequence (line other_line : str) :
  concat ((λ o, slice line (op_i1 o) (op_i2 o))
            <$> filter (λ o, op_tag o = tag_equal) (compute_inline_diff line other_line))
  `sublist_of` other_line.
Proof.
  pose proof (get_opcodes_partition line other_line) as (Ht & _ & _ & _ & Hok).
  pose proof (equal_runs_sublist line other_line _ _ _ _ _ Ht Hok) as Hsub.
  unfold slice in Hsub at 2. by rewrite drop_0, Nat.sub_0_r, firstn_all in Hsub.
Qed.

(** X24.  Two lines that are within the budget and have no character in
    common: the whole line is one marked run. *)
Theorem disjoint_line_whole_marked (line other_line : str) :
  line ≠ [] → other_line ≠ [] →
  length line + length other_line ≤ INLINE_HIGHLIGHT_LIMIT →
  (∀ c, c ∈ line → c ∉ other_line) →
  format_line_with_inline_diff line other_line true
  = SPAN_OPEN ++ html_escape line ++ SPAN_CLOSE.
Proof.
  intros Hline Hother Hlen Hdisj. rewrite format_line_aligned by done.
  unfold compute_inline_diff. rewrite get_opcodes_nothing_common by done.
  rewrite !bool_decide_eq_false_2 by done.
  cbn [fmap list_fmap concat]. unfold render_run, slice, op_tag, op_i1, op_i2.
  cbn [fst snd]. by rewrite drop_0, Nat.sub_0_r, firstn_all, app_nil_r.
Qed.

Lemma disjoint_line_whole_marked_witness :
  format_line_with_inline_diff (lit "a<b") (lit "xyz") true
  = SPAN_OPEN ++ lit "a&lt;b" ++ SPAN_CLOSE.
Proof.
  apply (disjoint_line_whole_marked (lit "a<b") (lit "xyz")).
  - discriminate.
  - discriminate.
  - apply Nat.leb_le. vm_compute. reflexivity.
  - intros c Hc. apply list_elem_of_In in Hc. revert c Hc. apply Forall_forall. by_compute.
Defined.

(** * The chunks in the projector *)

Lemma classify_some (is_left : bool) (i : nat) (chunks : list DiffChunk) (t : tag) :
  (classify is_left i chunks).2 = Some t →
  ∃ c, c ∈ chunks ∧ in_chunk is_left c i ∧ tag_of c = t.
Proof.
  induction chunks as [|c chunks IH]; simpl; [done|].
  case_bool_decide as Hin; simpl.
  - intros [= <-]. exists c. split; [apply list_elem_of_here|done].
  - intros Ht. destruct (IH Ht) as (c' & Hc' & Hrest). exists c'.
    split; [by apply list_elem_of_further|done].
Qed.

Lemma compute_diff_chunk_valid (text_a text_b : str) (c : DiffChunk) :
  c ∈ compute_diff text_a text_b →
  (0 ≤ start_a c ≤ end_a c)%Z ∧ (end_a c ≤ Z.of_nat (length (splitlines text_a)))%Z
  ∧ (0 ≤ start_b c ≤ end_b c)%Z ∧ (end_b c ≤ Z.of_nat (length (splitlines text_b)))%Z
  ∧ (tag_of c = tag_insert → start_a c = end_a c)
  ∧ (tag_of c = tag_delete → start_b c = end_b c)
  ∧ tag_of c ≠ tag_equal.
Proof.
  intros (o & Ho & Hch & ->)%compute_diff_elem.
  pose proof (get_opcodes_ok _ _ o Ho) as Hok.
  apply list_elem_of_lookup_1 in Ho as [n Hn].
  pose proof (tiles_bounds _ _ _ _ _ _ _ (get_opcodes_tiles _ _) Hn) as Hb.
  destruct (chunk_of_opcode_fields o) as (-> & -> & -> & -> & ->).
  unfold changes in Hch. unfold op_ok in Hok.
  split_and!; [lia..| | |done]; intros Htag; rewrite Htag in Hok; lia.
Qed.

(** X25.  On the side of the first text no line is classified as an insert,
    on the side of the second text none as a delete, and on neither
    side as equal. *)
Theorem classify_side_tags (text_a text_b : str) (i : nat) :
  (classify true i (compute_diff text_a text_b)).2
    ∈ [None; Some tag_delete; Some tag_replace]
  ∧ (classify false i (compute_diff text_a text_b)).2
      ∈ [None; Some tag_insert; Some tag_replace].
Proof.
  split.
  - destruct (classify true i (compute_diff text_a text_b)).2 as [t|] eqn:Ht; [|by_compute].
    apply classify_some in Ht as (c & Hc & Hin & <-).
    apply compute_diff_chunk_valid in Hc as (_ & _ & _ & _ & Hins & _ & Heq).
    unfold in_chunk in Hin. destruct (tag_of c); [done| |by_compute|by_compute].
    specialize (Hins eq_refl). lia.
  - destruct (classify false i (compute_diff text_a text_b)).2 as [t|] eqn:Ht; [|by_compute].
    apply classify_some in Ht as (c & Hc & Hin & <-).
    apply compute_diff_chunk_valid in Hc as (_ & _ & _ & _ & _ & Hdel & Heq).
    unfold in_chunk in Hin. destruct (tag_of c); [done|by_compute| |by_compute].
    specialize (Hdel eq_refl). lia.
Qed.

(** X26.  A line of a replace chunk of [compute_diff] whose offset in the
    chunk is less than the number of lines of the chunk on the other
    side is paired with a line of the same chunk, which exists, and is
    rendered by the inline highlighter against it. *)
Theorem replace_line_paired_in_chunk (text_a text_b : str) (is_left : bool)
    (n i : nat) (c : DiffChunk) :
  compute_diff text_a text_b !! n = Some c → tag_of c = tag_replace →
  in_chunk is_left c i →
  (Z.of_nat i - this_start is_left c < other_end is_left c - other_start is_left c)%Z →
  ∃ other_line,
    (if is_left then splitlines text_b else splitlines text_a)
      !! Z.to_nat (paired_index is_left c i) = Some other_line
    ∧ in_chunk (negb is_left) c (Z.to_nat (paired_index is_left c i))
    ∧ ∀ line,
        formatted_line is_left i line
          (if is_left then splitlines text_b else splitlines text_a)
          (compute_diff text_a text_b)
        = format_line_with_inline_diff line other_line true.
Proof.
  intros Hn Htag Hin Hoff.
  assert (c ∈ compute_diff text_a text_b) as Hc by (by eapply list_elem_of_lookup_2).
  apply compute_diff_chunk_valid in Hc as (Ha1 & Ha2 & Hb1 & Hb2 & _).
  set (other_lines := if is_left then splitlines text_b else splitlines text_a).
  assert (0 ≤ paired_index is_left c i < Z.of_nat (length other_lines))%Z as Hbound.
  { unfold paired_index, this_start, other_end, other_start, in_chunk, other_lines in *.
    destruct is_left; lia. }
  destruct (lookup_lt_is_Some_2 other_lines (Z.to_nat (paired_index is_left c i)))
    as [other_line Hother]; [lia|].
  exists other_line. split; [done|]. split.
  { unfold paired_index, this_start, other_end, other_start, in_chunk in *.
    destruct is_left; simpl; lia. }
  intros line.
  pose proof (compute_diff_first_chunk text_a text_b is_left i n c Hn Hin) as Hfirst.
  destruct (classify_first other_lines _ _ _ _ _ Hfirst) as [Hclass Hpaired].
  unfold formatted_line. rewrite Hclass. simpl. rewrite Htag.
  rewrite (bool_decide_eq_true_2 (Some tag_replace = Some tag_replace)) by done.
  rewrite (Hpaired Htag line), bool_decide_eq_true_2 by done. by rewrite Hother.
Qed.

Lemma replace_line_paired_in_chunk_witness :
  ∃ other_line,
    splitlines (join [LF] [lit "line1"; lit "new line"; lit "line3"])
      !! Z.to_nat (paired_index true (mkDiffChunk tag_replace 1 2 1 2) 1) = Some other_line
    ∧ in_chunk (negb true) (mkDiffChunk tag_replace 1 2 1 2)
        (Z.to_nat (paired_index true (mkDiffChunk tag_replace 1 2 1 2) 1))
    ∧ ∀ line,
        formatted_line true 1 line
          (splitlines (join [LF] [lit "line1"; lit "new line"; lit "line3"]))
          (compute_diff (join [LF] [lit "line1"; lit "old line"; lit "line3"])
             (join [LF] [lit "line1"; lit "new line"; lit "line3"]))
        = format_line_with_inline_diff line other_line true.
Proof.
  apply (replace_line_paired_in_chunk (join [LF] [lit "line1"; lit "old line"; lit "line3"])
           (join [LF] [lit "line1"; lit "new line"; lit "line3"]) true 0 1
           (mkDiffChunk tag_replace 1 2 1 2)).
  - reflexivity.
  - reflexivity.
  - unfold in_chunk. simpl. lia.
  - unfold this_start, other_end, other_start. simpl. lia.
Defined.

(** X27.  The character alignment of a string with itself is one equal run
    that takes the string whole; the empty string has no run. *)
Theorem inline_diff_identity (text : str) :
  compute_inline_diff text text
  = if bool_decide (text = []) then []
    else [(tag_equal, 0, length text, 0, length text)].
Proof.
  unfold compute_inline_diff. rewrite get_opcodes_same.
  destruct text; [done|]. by rewrite bool_decide_eq_true_2.
Qed.

(** ** Examples of the lines around the chunks *)

Lemma chunks_common_ends_witness :
  start_a (mkDiffChunk tag_replace 1 2 1 2) = start_b (mkDiffChunk tag_replace 1 2 1 2)
  ∧ ∀ t, (Z.of_nat t < start_a (mkDiffChunk tag_replace 1 2 1 2))%Z →
      ∃ line,
        splitlines (join [LF] [lit "A"; lit "B"; lit "C"; lit "D"]) !! t = Some line
        ∧ splitlines (join [LF] [lit "A"; lit "X"; lit "C"; lit "Y"; lit "Z"]) !! t
          = Some line.
Proof.
  apply (proj1 (chunks_common_ends (join [LF] [lit "A"; lit "B"; lit "C"; lit "D"])
                  (join [LF] [lit "A"; lit "X"; lit "C"; lit "Y"; lit "Z"]))).
  reflexivity.
Defined.

Lemma line_outside_chunks_common_witness :
  ∃ j, splitlines (join [LF] [lit "line1"; lit "line2"; lit "line3"]) !! j
       = Some (lit "line3")
       ∧ (classify false j
            (compute_diff (join [LF] [lit "line1"; lit "line3"])
               (join [LF] [lit "line1"; lit "line2"; lit "line3"]))).2 = None.
Proof.
  apply (proj1 (line_outside_chunks_common (join [LF] [lit "line1"; lit "line3"])
                  (join [LF] [lit "line1"; lit "line2"; lit "line3"])) 1).
  - reflexivity.
  - reflexivity.
Defined.

(** * The chunks as JSON *)

(** What follows a number in the JSON text: a comma or a closing
    brace. *)
Definition stops (r : str) : Prop :=
  ∃ c r', r = c :: r' ∧ c ∈ [44; 125]%N.

Ltac solve_stops :=
  unfold stops; cbn; eexists _, _; split; [reflexivity|by_compute].

Ltac no_stop H :=
  exfalso; revert H; cbn; rewrite !elem_of_cons, elem_of_nil;
  intros [?|[?|[]]]; discriminate.

(** The digits of a number end where a comma or a brace stands. *)
Lemma uint_prefix_inj (d : Decimal.uint) : ∀ d' r r',
  stops r → stops r' →
  lit (NilEmpty.string_of_uint d) ++ r = lit (NilEmpty.string_of_uint d') ++ r' →
  d = d' ∧ r = r'.
Proof.
  induction d as [|d IH|d IH|d IH|d IH|d IH|d IH|d IH|d IH|d IH|d IH];
    intros d' r r' Hr Hr' Heq; destruct d' as [|d'|d'|d'|d'|d'|d'|d'|d'|d'|d'];
    cbn in Heq;
    try (injection Heq as Heq; destruct (IH _ _ _ Hr Hr' Heq) as [-> ->]; done);
    try (by subst);
    destruct Hr as (c & r0 & -> & Hc), Hr' as (c' & r0' & -> & Hc');
    try discriminate;
    injection Heq as Hhead _; subst; first [no_stop Hc | no_stop Hc'].
Qed.

Lemma str_of_nat_prefix_inj (n n' : nat) (r r' : str) :
  stops r → stops r' → str_of_nat n ++ r = str_of_nat n' ++ r' → n = n' ∧ r = r'.
Proof.
  intros Hr Hr' Heq. apply uint_prefix_inj in Heq as [Hd ->]; [|done..].
  split; [|done]. by apply Unsigned.to_uint_inj.
Qed.

(** No number starts with what a minus sign is. *)
Lemma uint_head (d : Decimal.uint) (r : str) :
  stops r → ∃ c t, lit (NilEmpty.string_of_uint d) ++ r = c :: t ∧ c ≠ 45%N.
Proof.
  intros (c & r0 & -> & Hc). destruct d; cbn; eexists _, _; (split; [reflexivity|]);
    try discriminate.
  intros ->. no_stop Hc.
Qed.

Lemma json_int_prefix_inj (z z' : Z) (r r' : str) :
  stops r → stops r' → json_int z ++ r = json_int z' ++ r' → z = z' ∧ r = r'.
Proof.
  intros Hr Hr'. unfold json_int.
  assert (lit "-" = [45%N]) as -> by (by vm_compute).
  destruct (decide (z < 0)%Z) as [Hz|Hz], (decide (z' < 0)%Z) as [Hz'|Hz'].
  - rewrite !bool_decide_eq_true_2 by done. simpl. intros [= Heq].
    apply str_of_nat_prefix_inj in Heq as [Hn ->]; [|done..]. split; [lia|done].
  - rewrite bool_decide_eq_true_2, bool_decide_eq_false_2 by done. simpl. intros Heq.
    destruct (uint_head (Nat.to_uint (Z.to_nat z')) r' Hr') as (c & t & Hhead & Hc).
    unfold str_of_nat in Heq. rewrite Hhead in Heq. injection Heq as Heq _. by subst.
  - rewrite bool_decide_eq_false_2, bool_decide_eq_true_2 by done. simpl. intros Heq.
    destruct (uint_head (Nat.to_uint (Z.to_nat z)) r Hr) as (c & t & Hhead & Hc).
    unfold str_of_nat in Heq. rewrite Hhead in Heq. injection Heq as Heq _. by subst.
  - rewrite !bool_decide_eq_false_2 by done. intros Heq.
    apply str_of_nat_prefix_inj in Heq as [Hn ->]; [|done..]. split; [lia|done].
Qed.

Lemma json_tag_prefix_inj (t t' : tag) (r r' : str) :
  json_str (tag_name t) ++ r = json_str (tag_name t') ++ r' → t = t' ∧ r = r'.
Proof. destruct t, t'; cbn; intros Heq; by simplify_eq. Qed.

Lemma json_chunk_prefix_inj (i i' : nat) (c c' : DiffChunk) (r r' : str) :
  json_chunk i c ++ r = json_chunk i' c' ++ r' → i = i' ∧ c = c' ∧ r = r'.
Proof.
  unfold json_chunk. rewrite <- !(assoc_L (++)). intros Heq.
  do 3 apply app_inv_head in Heq.
  apply json_int_prefix_inj in Heq as [Hi Heq]; [|solve_stops..].
  do 3 apply app_inv_head in Heq.
  apply json_tag_prefix_inj in Heq as [Htag Heq].
  do 3 apply app_inv_head in Heq.
  apply json_int_prefix_inj in Heq as [Hsa Heq]; [|solve_stops..].
  do 3 apply app_inv_head in Heq.
  apply json_int_prefix_inj in Heq as [Hea Heq]; [|solve_stops..].
  do 3 apply app_inv_head in Heq.
  apply json_int_prefix_inj in Heq as [Hsb Heq]; [|solve_stops..].
  do 3 apply app_inv_head in Heq.
  apply json_int_prefix_inj in Heq as [Heb Heq]; [|solve_stops..].
  apply app_inv_head in Heq.
  split; [lia|]. split; [|done].
  destruct c, c'. simpl in *. by subst.
Qed.

Lemma json_chunk_head (i : nat) (c : DiffChunk) (r : str) :
  ∃ t, json_chunk i c ++ r = 123%N :: t.
Proof. unfold json_chunk. cbn. by eexists. Qed.

(** The objects of the array, numbered from [k]. *)
Lemma json_join_inj (chunks : list DiffChunk) : ∀ chunks' k,
  join (lit ", ") (imap (λ i, json_chunk (k + i)) chunks) ++ lit "]"
  = join (lit ", ") (imap (λ i, json_chunk (k + i)) chunks') ++ lit "]" →
  chunks = chunks'.
Proof.
  induction chunks as [|c chunks IH]; intros [|c' chunks'] k Heq.
  - done.
  - exfalso. cbn [imap join] in Heq.
    destruct (imap _ chunks') as [|y l].
    + destruct (json_chunk_head (k + 0) c' (lit "]")) as [t Ht].
      rewrite Ht in Heq. discriminate.
    + rewrite <- (assoc_L (++)) in Heq.
      destruct (json_chunk_head (k + 0) c' (lit ", " ++ join (lit ", ") (y :: l) ++ lit "]"))
        as [t Ht].
      rewrite <- (assoc_L (++)) in Heq. rewrite Ht in Heq. discriminate.
  - exfalso. cbn [imap join] in Heq.
    destruct (imap _ chunks) as [|y l].
    + destruct (json_chunk_head (k + 0) c (lit "]")) as [t Ht].
      rewrite Ht in Heq. discriminate.
    + rewrite <- (assoc_L (++)) in Heq.
      destruct (json_chunk_head (k + 0) c (lit ", " ++ join (lit ", ") (y :: l) ++ lit "]"))
        as [t Ht].
      rewrite <- (assoc_L (++)) in Heq. rewrite Ht in Heq. discriminate.
  - cbn [imap] in Heq.
    assert (∀ l : list DiffChunk,
              imap ((λ i, json_chunk (k + i)) ∘ S) l = imap (λ i, json_chunk (S k + i)) l)
      as Hshift.
    { intros l. apply imap_ext. intros i x _. simpl. f_equal. lia. }
    rewrite !Hshift in Heq.
    assert (∀ (x : str) (l : list str),
              join (lit ", ") (x :: l) ++ lit "]"
              = x ++ (match l with
                      | [] => lit "]"
                      | _ :: _ => lit ", " ++ join (lit ", ") l ++ lit "]"
                      end)) as Hjoin.
    { intros x [|y l]; [done|]. cbn [join]. by rewrite <- !(assoc_L (++)). }
    rewrite !Hjoin in Heq.
    apply json_chunk_prefix_inj in Heq as (_ & -> & Heq). f_equal.
    apply (IH chunks' (S k)).
    destruct chunks as [|x l], chunks' as [|x' l']; cbn [imap] in *.
    + done.
    + exfalso. revert Heq. cbn. discriminate.
    + exfalso. revert Heq. cbn. discriminate.
    + by apply app_inv_head in Heq.
Qed.

Lemma join_no_lt (sep : str) (l : list str) :
  LT ∉ sep → Forall (λ x, LT ∉ x) l → LT ∉ join sep l.
Proof.
  intros Hsep. induction 1 as [|x l Hx Hl IH]; simpl; [apply not_elem_of_nil|].
  destruct l as [|y l]; [done|]. rewrite !elem_of_app. tauto.
Qed.

Lemma json_int_no_lt (z : Z) : LT ∉ json_int z.
Proof.
  unfold json_int. case_bool_decide; [|apply str_of_nat_no_lt].
  rewrite elem_of_app. intros [Hin|Hin]; [revert Hin; by_compute|].
  by apply str_of_nat_no_lt in Hin.
Qed.

Lemma json_chunk_no_lt (i : nat) (c : DiffChunk) : LT ∉ json_chunk i c.
Proof.
  unfold json_chunk, json_str. rewrite !elem_of_app.
  pose proof (json_int_no_lt (Z.of_nat i)). pose proof (json_int_no_lt (start_a c)).
  pose proof (json_int_no_lt (end_a c)). pose proof (json_int_no_lt (start_b c)).
  pose proof (json_int_no_lt (end_b c)).
  assert (LT ∉ tag_name (tag_of c)) by (destruct (tag_of c); by_compute).
  assert (∀ s : string, bool_decide (LT ∈ lit s) = false → LT ∉ lit s) as Hlit.
  { intros s Hs. by apply bool_decide_eq_false_1 in Hs. }
  assert (LT ∉ [QUOT]) by by_compute.
  pose proof (Hlit "{"%string eq_refl). pose proof (Hlit "}"%string eq_refl).
  pose proof (Hlit ": "%string eq_refl). pose proof (Hlit ", "%string eq_refl).
  pose proof (Hlit "id"%string eq_refl). pose proof (Hlit "tag"%string eq_refl).
  pose proof (Hlit "start_a"%string eq_refl). pose proof (Hlit "end_a"%string eq_refl).
  pose proof (Hlit "start_b"%string eq_refl). pose proof (Hlit "end_b"%string eq_refl).
  tauto.
Qed.

Lemma chunks_json_no_lt (chunks : list DiffChunk) : LT ∉ chunks_json chunks.
Proof.
  unfold chunks_json. rewrite !elem_of_app. intros [Hin|[Hin|Hin]].
  - revert Hin. by_compute.
  - revert Hin. apply join_no_lt; [by_compute|].
    apply Forall_forall. intros x Hx. apply list_elem_of_In in Hx.
    apply list_elem_of_lookup_1 in Hx as [i Hi]. rewrite list_lookup_imap in Hi.
    destruct (chunks !! i) as [c|]; [|done]. simpl in Hi. injection Hi as <-.
    apply json_chunk_no_lt.
  - revert Hin. by_compute.
Qed.

(** * [generate_html] *)

(** X28.  [generate_html], called on the chunks of [compute_diff] as
    [main] calls it, returns what the template renders from arguments
    of which this holds.  The JSON text tells the chunks: a list of
    chunks with this text is the list of [compute_diff]; and it holds no
    [<].  In the two panes every [<] opens a tag of the projector, and
    each pane holds no [<script]. *)
Theorem generate_html_arguments (text_a text_b : str) :
  ∃ args : template_args,
    (∀ (R : Type) (template_render : template_args → R),
       generate_html template_render text_a text_b (compute_diff text_a text_b)
       = template_render args)
    ∧ (∀ chunks', chunks_json chunks' = chunks_json_arg args →
                  chunks' = compute_diff text_a text_b)
    ∧ (LT ∉ chunks_json_arg args)
    ∧ opens_own_tags (left_content args) ∧ opens_own_tags (right_content args)
    ∧ ¬ contains (lit "<script") (left_content args)
    ∧ ¬ contains (lit "<script") (right_content args).
Proof.
  exists (render_args text_a text_b (compute_diff text_a text_b)).
  split; [done|]. split; [|split; [apply chunks_json_no_lt|]].
  - intros chunks'. unfold render_args, chunks_json.
    cbn [chunks_json_arg]. intros Heq. apply app_inv_head in Heq.
    by apply (json_join_inj chunks' (compute_diff text_a text_b) 0).
  - cbn [left_content right_content render_args].
    split_and!; [apply format_lines_own..| |];
      apply not_contains_script, format_lines_own.
Qed.

(** * The longest match *)

(** X29.  For windows that lie within the two sequences,
    [find_longest_match] returns a block that lies within the two
    windows and covers equal elements.  When no element of [b] is
    popular it is the contract of the library: no common block of the
    windows is longer, none as long starts earlier in [a], or at the
    same place in [a] and earlier in [b]; and with nothing in common the
    result is [(alo, blo, 0)]. *)
Theorem find_longest_match_contract {T : Type} `{Countable T} (a b : list T)
    (alo ahi blo bhi : nat) :
  alo ≤ ahi → ahi ≤ length a → blo ≤ bhi → bhi ≤ length b →
  ∃ i j k,
    find_longest_match a b (chain_b b) alo ahi blo bhi = (i, j, k)
    ∧ alo ≤ i ∧ i + k ≤ ahi ∧ blo ≤ j ∧ j + k ≤ bhi
    ∧ (∀ t, t < k → ∃ x, a !! (i + t) = Some x ∧ b !! (j + t) = Some x)
    ∧ (bpopular b = ∅ →
       (∀ i' j' k',
          alo ≤ i' → i' + k' ≤ ahi → blo ≤ j' → j' + k' ≤ bhi →
          (∀ t, t < k' → ∃ x, a !! (i' + t) = Some x ∧ b !! (j' + t) = Some x) →
          k' ≤ k ∧ (k' = k → 0 < k → i ≤ i' ∧ (i = i' → j ≤ j')))
       ∧ (k = 0 → i = alo ∧ j = blo)).
Proof.
  intros Ha _ Hb _.
  destruct (find_longest_match_inside a b alo ahi blo bhi Ha Hb) as [Hin Hm].
  destruct (find_longest_match a b (chain_b b) alo ahi blo bhi) as [[i j] k] eqn:Efind.
  exists i, j, k. split; [done|]. simpl in Hin. destruct Hin as (H1 & H2 & H3 & H4).
  split_and!; [done..| |].
  - intros t Ht. apply elt_eqb_true. by apply (Hm t).
  - intros Hpop.
    pose proof (find_longest_match_is_longest a b Hpop alo ahi blo bhi Ha Hb) as Hlong.
    rewrite Efind in Hlong. destruct Hlong as (_ & _ & Hbest & Hzero). split.
    + intros i' j' k' Hi1 Hi2 Hj1 Hj2 Hsame.
      destruct (Hbest (i', j', k')) as [Hle Hfirst].
      * simpl. by split_and!.
      * intros t Ht. apply elt_eqb_true. by apply Hsame.
      * simpl in *. split; [done|]. intros -> Hpos. specialize (Hfirst eq_refl Hpos).
        unfold starts_before in Hfirst. simpl in Hfirst. lia.
    + intros ->. specialize (Hzero eq_refl). simpl in Hzero. by injection Hzero.
Qed.

Lemma find_longest_match_contract_witness :
  ∃ i j k,
    find_longest_match (lit "hello") (lit "hallo") (chain_b (lit "hallo")) 0 5 0 5 = (i, j, k)
    ∧ 0 ≤ i ∧ i + k ≤ 5 ∧ 0 ≤ j ∧ j + k ≤ 5
    ∧ (∀ t, t < k →
         ∃ x, lit "hello" !! (i + t) = Some x ∧ lit "hallo" !! (j + t) = Some x)
    ∧ (bpopular (lit "hallo") = ∅ →
       (∀ i' j' k',
          0 ≤ i' → i' + k' ≤ 5 → 0 ≤ j' → j' + k' ≤ 5 →
          (∀ t, t < k' →
             ∃ x, lit "hello" !! (i' + t) = Some x ∧ lit "hallo" !! (j' + t) = Some x) →
          k' ≤ k ∧ (k' = k → 0 < k → i ≤ i' ∧ (i = i' → j ≤ j')))
       ∧ (k = 0 → i = 0 ∧ j = 0)).
Proof.
  apply (find_longest_match_contract (lit "hello") (lit "hallo") 0 5 0 5);
    first [lia | apply Nat.leb_le; reflexivity].
Defined.
